(** * 3-coloring generator / supervisor (src/1b_3coloring)

    A shallow embedding of [ipc.h], [util.c], [generator.c] and
    [supervisor.c]: the graph built from the command line, the search for
    removal candidates, and the circular buffer in shared memory that is
    guarded by three named POSIX semaphores.

    Conventions.
    - A C [int] is a [Z] in the range of [to_int]; a [size_t] that counts
      the elements of an array is the [nat] length of a list, and the
      [length] field of an entry is a [Z]; [%] on [int] is [Z.rem].
    - An array with a separate length variable ([edges]/[edges_length],
      [vertices]/[vertices_length]) is the list of its used prefix.
    - The address [&vertices[i]] is the index [i]; [NULL] is [None].
    - A fixed array inside shared memory ([entries], [from_vertices],
      [to_vertices]) is a list updated in place with [<[i:=x]>].
    - An access outside an array is [Undefined]; a [sem_wait] that cannot
      return is [Blocked]. *)

From Stdlib Require Import ZArith List Bool Lia Ascii String Sorted.
From Stdlib Require Import DecimalString DecimalNat.
From stdpp Require Import base option list.

Local Open Scope Z_scope.

(** ** Constants of ipc.h *)

Definition NUMBER_OF_ENTRIES : Z := 200.
Definition MAXIMUM_SOLUTION_LENGTH : nat := 8.
Definition INT_MAX : Z := 2147483647.
Definition LONG_MAX : Z := 9223372036854775807.
Definition LONG_MIN : Z := -9223372036854775808.
Definition EXIT_SUCCESS : Z := 0.
Definition EXIT_FAILURE : Z := 1.

(** The conversion to [int] (two's complement, 32 bits). *)
Definition to_int (z : Z) : Z := (z + 2 ^ 31) mod 2 ^ 32 - 2 ^ 31.

(** ** Data of ipc.h *)

Record vertex_t := { key : Z; color : Z }.

(** [v1] and [v2] hold addresses of vertices: indices into [vertices]. *)
Record edge_t := { v1 : nat; v2 : nat }.

Record cb_entry_t := {
  length : Z;
  from_vertices : list Z;
  to_vertices : list Z
}.

Record cb_t := {
  signal : Z;
  rd : Z;
  wr : Z;
  entries : list cb_entry_t
}.

Inductive sem_name := FREE_SEM | USED_SEM | WRITE_SEM.

(** ** Graph construction (generator.c, parse_argv and its helpers) *)

Module Graph.

(** The graph under construction: the two arrays of [main]. *)
Record t := { vertices : list vertex_t; edges : list edge_t }.

Definition empty : t := {| vertices := []; edges := [] |}.

Fixpoint find_vertex_from (i : nat) (vs : list vertex_t) (k : Z) : option nat :=
  match vs with
  | [] => None
  | v :: vs' => if key v =? k then Some i else find_vertex_from (S i) vs' k
  end.

(** [key] is a [long] here; the [int] field is promoted for the comparison. *)
Definition find_vertex_by_key (vs : list vertex_t) (k : Z) : option nat :=
  find_vertex_from 0 vs k.

(** Stores the key (converted to [int]) with color 0 at [vertices_length]
    and returns the address of the new element. *)
Definition add_new_vertex (vs : list vertex_t) (k : Z) : list vertex_t * nat :=
  (vs ++ [{| key := to_int k; color := 0 |}], List.length vs).

Definition edge_matches (e : edge_t) (p1 p2 : nat) : bool :=
  ((v1 e =? p1)%nat && (v2 e =? p2)%nat) || ((v1 e =? p2)%nat && (v2 e =? p1)%nat).

Fixpoint find_edge_from (i : nat) (es : list edge_t) (p1 p2 : nat) : option nat :=
  match es with
  | [] => None
  | e :: es' => if edge_matches e p1 p2 then Some i else find_edge_from (S i) es' p1 p2
  end.

Definition find_edge_by_vertices (es : list edge_t) (p1 p2 : nat) : option nat :=
  find_edge_from 0 es p1 p2.

Definition add_new_edge (es : list edge_t) (p1 p2 : nat) : list edge_t :=
  es ++ [{| v1 := p1; v2 := p2 |}].

(** *** The C library functions used by parse_argv *)

Definition is_dash (c : ascii) : bool := Ascii.eqb c "-"%char.

(** The successive results of [strtok(s, "-")], [strtok(NULL, "-")], ...:
    the maximal runs of characters other than ['-']. [cur] is the token
    being read, reversed. *)
Fixpoint strtok_all (cur : list ascii) (s : list ascii) : list (list ascii) :=
  match s with
  | [] => match cur with [] => [] | _ => [rev cur] end
  | c :: s' =>
      if is_dash c
      then match cur with [] => strtok_all [] s' | _ => rev cur :: strtok_all [] s' end
      else strtok_all (c :: cur) s'
  end.

Definition isspace (c : ascii) : bool :=
  let n := nat_of_ascii c in ((n =? 32) || ((9 <=? n) && (n <=? 13)))%nat.

Definition digit_of (c : ascii) : option Z :=
  let n := nat_of_ascii c in
  if ((48 <=? n) && (n <=? 57))%nat then Some (Z.of_nat n - 48) else None.

Fixpoint skip_spaces (s : list ascii) : list ascii :=
  match s with
  | c :: s' => if isspace c then skip_spaces s' else s
  | [] => []
  end.

(** Reads decimal digits; returns the number read, how many digits there
    were, and what follows them. *)
Fixpoint read_digits (acc : Z) (n : nat) (s : list ascii) : Z * nat * list ascii :=
  match s with
  | c :: s' =>
      match digit_of c with
      | Some d => read_digits (10 * acc + d) (S n) s'
      | None => (acc, n, s)
      end
  | [] => (acc, n, [])
  end.

Definition clamp_long (z : Z) : Z :=
  if z <? LONG_MIN then LONG_MIN else if LONG_MAX <? z then LONG_MAX else z.

(** [strtol(s, &next, 10)]: the value and the text at [next]. Without a
    digit nothing is converted and [next] is [s] itself. *)
Definition strtol (s : list ascii) : Z * list ascii :=
  let body := skip_spaces s in
  let '(neg, body') :=
    match body with
    | c :: r =>
        if Ascii.eqb c "-"%char then (true, r)
        else if Ascii.eqb c "+"%char then (false, r)
        else (false, body)
    | [] => (false, body)
    end in
  let '(n, count, rest) := read_digits 0 0 body' in
  match count with
  | O => (0, s)
  | _ => (clamp_long (if neg : bool then - n else n), rest)
  end.

(** [next == s]: both point into the same string, so they are equal exactly
    when the same number of characters follows them. *)
Definition same_position (next s : list ascii) : bool :=
  (List.length next =? List.length s)%nat.

(** The first half of a round of the loop of parse_argv: the two keys of
    [argv[i]], each converted to [int]. [None] is the call of [usage],
    which exits. *)
Definition parse_keys (arg : string) : option (Z * Z) :=
  match strtok_all [] (list_ascii_of_string arg) with
  | [v1_key; v2_key] =>
      let '(n1, v1_next) := strtol v1_key in
      let '(n2, v2_next) := strtol v2_key in
      let v1_key_parsed := to_int n1 in
      let v2_key_parsed := to_int n2 in
      if same_position v1_next v1_key || negb (same_position v1_next [])
         || same_position v2_next v2_key || negb (same_position v2_next [])
      then None
      else Some (v1_key_parsed, v2_key_parsed)
  | _ => None
  end.

(** The second half: look both vertices up, or add them, and add the edge
    unless it is found. *)
Definition insert_edge (v1_key_parsed v2_key_parsed : Z) (g : t) : t :=
  let '(vs1, p1) :=
    match find_vertex_by_key (vertices g) v1_key_parsed with
    | Some p => (vertices g, p)
    | None => add_new_vertex (vertices g) v1_key_parsed
    end in
  let '(vs2, p2) :=
    match find_vertex_by_key vs1 v2_key_parsed with
    | Some p => (vs1, p)
    | None => add_new_vertex vs1 v2_key_parsed
    end in
  match find_edge_by_vertices (edges g) p1 p2 with
  | Some _ => {| vertices := vs2; edges := edges g |}
  | None => {| vertices := vs2; edges := add_new_edge (edges g) p1 p2 |}
  end.

(** One round of the loop of parse_argv. *)
Definition parse_arg (arg : string) (g : t) : option t :=
  match parse_keys arg with
  | Some (k1, k2) => Some (insert_edge k1 k2 g)
  | None => None
  end.

(** [args] is [argv[1]], ..., [argv[argc - 1]]. *)
Fixpoint parse_from (args : list string) (g : t) : option t :=
  match args with
  | [] => Some g
  | a :: args' =>
      match parse_arg a g with
      | Some g' => parse_from args' g'
      | None => None
      end
  end.

Definition parse_argv (args : list string) : option t := parse_from args empty.

End Graph.

(** ** The search of the generator (generator.c) *)

(** [rand] is the sequence of values that the successive calls of [rand()]
    return in one process; [n] counts the calls made so far. *)
Fixpoint randomize (rand : nat -> Z) (n : nat) (vs : list vertex_t) : list vertex_t :=
  match vs with
  | [] => []
  | v :: vs' =>
      {| key := key v; color := Z.rem (rand n) 3 |} :: randomize rand (S n) vs'
  end.

(** The loop of set_removal_candidates from edge [i] on. [rc] is the part
    of [removal_candidates] written so far, so [j] is its length. [None]
    is the dereference of an address outside [vertices]. *)
Fixpoint set_removal_candidates_from (vs : list vertex_t) (es : list edge_t)
    (rc : list edge_t) : option (list edge_t) :=
  match es with
  | [] => Some rc
  | e :: es' =>
      if (List.length rc <? MAXIMUM_SOLUTION_LENGTH)%nat then
        match vs !! v1 e, vs !! v2 e with
        | Some a, Some b =>
            if color a =? color b
            then set_removal_candidates_from vs es' (rc ++ [e])
            else set_removal_candidates_from vs es' rc
        | _, _ => None
        end
      else Some rc
  end.

(** The array [removal_candidates] after the call; the returned count is
    its length. *)
Definition set_removal_candidates (vs : list vertex_t) (es : list edge_t)
  : option (list edge_t) :=
  set_removal_candidates_from vs es [].

(** What the documentation of set_removal_candidates describes: every edge
    that connects two vertices of the same color. *)
Definition same_color (vs : list vertex_t) (e : edge_t) : bool :=
  match vs !! v1 e, vs !! v2 e with
  | Some a, Some b => color a =? color b
  | _, _ => false
  end.

Definition conflict_set (vs : list vertex_t) (es : list edge_t) : list edge_t :=
  List.filter (same_color vs) es.

(** A coloring is valid when no edge joins two vertices of one color. *)
Definition valid_coloring (vs : list vertex_t) (es : list edge_t) : Prop :=
  forall e, In e es -> same_color vs e = false.

(** Edge addresses point into [vertices]. *)
Definition wf_edges (vs : list vertex_t) (es : list edge_t) : Prop :=
  forall e, In e es -> (v1 e < List.length vs)%nat /\ (v2 e < List.length vs)%nat.

(** The loop that copies the keys of the candidates into a slot, from
    index [i] on. Writing past the end of the two arrays is [None]. *)
Fixpoint write_pairs (vs : list vertex_t) (rc : list edge_t) (i : nat)
    (e : cb_entry_t) : option cb_entry_t :=
  match rc with
  | [] => Some e
  | c :: rc' =>
      if (i <? MAXIMUM_SOLUTION_LENGTH)%nat then
        match vs !! v1 c, vs !! v2 c with
        | Some a, Some b =>
            write_pairs vs rc' (S i)
              {| length := length e;
                 from_vertices := <[i := key a]> (from_vertices e);
                 to_vertices := <[i := key b]> (to_vertices e) |}
        | _, _ => None
        end
      else None
  end.

(** The entry left in a slot that held [old]. *)
Definition write_entry (vs : list vertex_t) (rc : list edge_t) (old : cb_entry_t)
  : option cb_entry_t :=
  write_pairs vs rc 0
    {| length := Z.of_nat (List.length rc);
       from_vertices := from_vertices old;
       to_vertices := to_vertices old |}.

(** The pairs an entry stands for: the first [length] ones. *)
Definition entry_pairs (e : cb_entry_t) : list (Z * Z) :=
  take (Z.to_nat (length e)) (zip (from_vertices e) (to_vertices e)).

(** The key pair of an edge. *)
Definition edge_keys (vs : list vertex_t) (e : edge_t) : option (Z * Z) :=
  match vs !! v1 e, vs !! v2 e with
  | Some a, Some b => Some (key a, key b)
  | _, _ => None
  end.

(** ** Shared memory and semaphores *)

Record world := {
  cb : cb_t;
  free_sem : nat;
  used_sem : nat;
  write_sem : nat
}.

Definition zero_entry : cb_entry_t :=
  {| length := 0;
     from_vertices := repeat 0 MAXIMUM_SOLUTION_LENGTH;
     to_vertices := repeat 0 MAXIMUM_SOLUTION_LENGTH |}.

(** The state the supervisor sets up when [shm_open] creates the object:
    it is filled with zeroes by [ftruncate], and the semaphores are created
    with the values given to [sem_open]. For an object that is already
    there see [world_on]. *)
Definition world_init : world :=
  {| cb := {| signal := 0; rd := 0; wr := 0;
              entries := repeat zero_entry (Z.to_nat NUMBER_OF_ENTRIES) |};
     free_sem := Z.to_nat NUMBER_OF_ENTRIES;
     used_sem := 0;
     write_sem := 1 |}.

Definition sem_value (w : world) (s : sem_name) : nat :=
  match s with
  | FREE_SEM => free_sem w
  | USED_SEM => used_sem w
  | WRITE_SEM => write_sem w
  end.

Definition sem_set (w : world) (s : sem_name) (n : nat) : world :=
  match s with
  | FREE_SEM => {| cb := cb w; free_sem := n; used_sem := used_sem w; write_sem := write_sem w |}
  | USED_SEM => {| cb := cb w; free_sem := free_sem w; used_sem := n; write_sem := write_sem w |}
  | WRITE_SEM => {| cb := cb w; free_sem := free_sem w; used_sem := used_sem w; write_sem := n |}
  end.

Definition set_cb (w : world) (c : cb_t) : world :=
  {| cb := c; free_sem := free_sem w; used_sem := used_sem w; write_sem := write_sem w |}.

Definition sem_post (w : world) (s : sem_name) : world :=
  sem_set w s (S (sem_value w s)).

(** What a step of a process can be. *)
Inductive result (A : Type) :=
| Ok (a : A)
| Blocked
| Undefined.
Arguments Ok {A} a.
Arguments Blocked {A}.
Arguments Undefined {A}.

(** How a call of [sem_wait] returns: 0, or -1 with [errno == EINTR], or
    -1 with another error. *)
Inductive wait_result := Acquired | Eintr | Efail.

(** [sem_wait] returns 0 only by taking a permit; with none it does not
    return that way. The failing returns leave the semaphore alone. *)
Definition sem_wait (r : wait_result) (w : world) (s : sem_name) : result world :=
  match r with
  | Acquired =>
      match sem_value w s with
      | O => Blocked
      | S n => Ok (sem_set w s n)
      end
  | Eintr | Efail => Ok w
  end.

(** The index of a slot, when it is one. *)
Definition slot (i : Z) : option nat :=
  if (0 <=? i) && (i <? NUMBER_OF_ENTRIES) then Some (Z.to_nat i) else None.

(** ** What a process does to the outside *)

Inductive message :=
| Msg_usage
| Msg_errno (what : string)
| Msg_signal
| Msg_started
| Msg_reported (n : nat)
| Msg_by_order_of_supervisor
| Msg_cleaned_up
| Msg_3_colorable
| Msg_solution (n : Z) (pairs : list (Z * Z)).

Inductive event :=
| Ev_print (m : message)
| Ev_munmap
| Ev_close_fd
| Ev_shm_unlink
| Ev_sem_close (s : sem_name)
| Ev_sem_unlink (s : sem_name)
| Ev_exit (status : Z).

(** util.c: close_sem closes the handle and unlinks the name. *)
Definition close_sem (s : sem_name) : list event := [Ev_sem_close s; Ev_sem_unlink s].

Definition close_all_sems : list event :=
  close_sem FREE_SEM ++ close_sem USED_SEM ++ close_sem WRITE_SEM.

(** util.c: print_errno_msg prints and exits with failure. *)
Definition print_errno_msg (what : string) : list event :=
  [Ev_print (Msg_errno what); Ev_exit EXIT_FAILURE].

Definition usage : list event := [Ev_print Msg_usage; Ev_exit EXIT_FAILURE].

(** What the operating system answers to a step that asks it something. *)
Record input := {
  in_wait : wait_result;
  in_shm_open : bool;
  in_ftruncate : bool;
  in_mmap : bool;
  in_sem_open : bool
}.

Definition next_index (i : Z) : Z := Z.rem (to_int (i + 1)) NUMBER_OF_ENTRIES.

(** ** The generator process (generator.c, main) *)

Module Generator.

(** Where the process is: before [main], at the test of the [while], in
    one of the two calls of [sem_wait], between the second [sem_wait] and
    the end of the loop body, behind the loop, or gone. Processes
    interleave between these points; the rest of the loop body, which runs
    with [write_sem] taken, is one step. *)
Inductive pc :=
| At_start
| At_loop_top
| At_wait_write
| At_wait_free
| At_body
| At_after_loop
| Exited (status : Z).

Record local := {
  at_pc : pc;
  quit : bool;
  args : list string;
  graph : Graph.t;
  rand : nat -> Z;
  rand_calls : nat;
  out : list event
}.

Definition init (argv : list string) (r : nat -> Z) : local :=
  {| at_pc := At_start; quit := false; args := argv; graph := Graph.empty;
     rand := r; rand_calls := 0; out := [] |}.

Definition goto (p : pc) (g : local) : local :=
  {| at_pc := p; quit := quit g; args := args g; graph := graph g;
     rand := rand g; rand_calls := rand_calls g; out := out g |}.

Definition emit (evs : list event) (g : local) : local :=
  {| at_pc := at_pc g; quit := quit g; args := args g; graph := graph g;
     rand := rand g; rand_calls := rand_calls g; out := out g ++ evs |}.

(** The process prints or calls what [evs] says and ends with [status]. *)
Definition leave (evs : list event) (status : Z) (g : local) : local :=
  goto (Exited status) (emit evs g).

Definition set_graph (gr : Graph.t) (g : local) : local :=
  {| at_pc := at_pc g; quit := quit g; args := args g; graph := gr;
     rand := rand g; rand_calls := rand_calls g; out := out g |}.

(** randomize: one call of [rand()] per vertex. *)
Definition recolor (g : local) : local :=
  {| at_pc := at_pc g; quit := quit g; args := args g;
     graph := {| Graph.vertices := randomize (rand g) (rand_calls g) (Graph.vertices (graph g));
                 Graph.edges := Graph.edges (graph g) |};
     rand := rand g;
     rand_calls := (rand_calls g + List.length (Graph.vertices (graph g)))%nat;
     out := out g |}.

(** handle_signal, installed for SIGINT and SIGTERM. *)
Definition handle_signal (g : local) : local :=
  {| at_pc := at_pc g; quit := true; args := args g; graph := graph g;
     rand := rand g; rand_calls := rand_calls g;
     out := out g ++ [Ev_print Msg_signal] |}.

Definition fatal_wait : list event :=
  close_all_sems ++ print_errno_msg "sem_wait failed".

(** The lines behind the loop. *)
Definition cleanup (w : world) : list event :=
  (if signal (cb w) =? 1 then [Ev_print Msg_by_order_of_supervisor] else [])
  ++ [Ev_munmap; Ev_close_fd] ++ close_all_sems
  ++ [Ev_print Msg_cleaned_up; Ev_exit EXIT_SUCCESS].

(** The loop body behind the two waits. *)
Definition body (g : local) (w : world) : result (local * world) :=
  let g1 := recolor g in
  let vs := Graph.vertices (graph g1) in
  match set_removal_candidates vs (Graph.edges (graph g1)) with
  | None => Undefined
  | Some rc =>
      if (MAXIMUM_SOLUTION_LENGTH <? List.length rc)%nat
      then Ok (goto At_loop_top g1, w)
      else
        match slot (wr (cb w)) with
        | None => Undefined
        | Some k =>
            match entries (cb w) !! k with
            | None => Undefined
            | Some old =>
                match write_entry vs rc old with
                | None => Undefined
                | Some e =>
                    let c := {| signal := signal (cb w); rd := rd (cb w);
                                wr := next_index (wr (cb w));
                                entries := <[k := e]> (entries (cb w)) |} in
                    Ok (goto At_loop_top
                          (emit [Ev_print (Msg_reported (List.length rc))] g1),
                        sem_post (sem_post (set_cb w c) USED_SEM) WRITE_SEM)
                end
            end
        end
  end.

(** One step of [main]. *)
Definition main_step (i : input) (g : local) (w : world) : result (local * world) :=
  match at_pc g with
  | At_start =>
      match args g with
      | [] => Ok (leave usage EXIT_FAILURE g, w)
      | _ =>
          match Graph.parse_argv (args g) with
          | None => Ok (leave usage EXIT_FAILURE g, w)
          | Some gr =>
              if negb (in_shm_open i)
              then Ok (leave (print_errno_msg "shm_open failed") EXIT_FAILURE g, w)
              else if negb (in_mmap i)
              then Ok (leave (print_errno_msg "mmap failed") EXIT_FAILURE g, w)
              else if negb (in_sem_open i)
              then Ok (leave (close_all_sems ++ print_errno_msg "sem_open failed")
                         EXIT_FAILURE g, w)
              else Ok (goto At_loop_top (emit [Ev_print Msg_started] (set_graph gr g)), w)
          end
      end
  | At_loop_top =>
      if negb (quit g) && (signal (cb w) =? 0)
      then Ok (goto At_wait_write g, w)
      else Ok (goto At_after_loop g, w)
  | At_wait_write =>
      match in_wait i with
      | Acquired =>
          match sem_wait Acquired w WRITE_SEM with
          | Ok w' => Ok (goto At_wait_free g, w')
          | Blocked => Blocked
          | Undefined => Undefined
          end
      | Eintr => Ok (goto At_loop_top g, w)
      | Efail => Ok (leave fatal_wait EXIT_FAILURE g, w)
      end
  | At_wait_free =>
      match in_wait i with
      | Acquired =>
          match sem_wait Acquired w FREE_SEM with
          | Ok w' => Ok (goto At_body g, w')
          | Blocked => Blocked
          | Undefined => Undefined
          end
      | Eintr => Ok (goto At_loop_top g, w)
      | Efail => Ok (leave fatal_wait EXIT_FAILURE g, w)
      end
  | At_body => body g w
  | At_after_loop => Ok (leave (cleanup w) EXIT_SUCCESS g, w)
  | Exited _ => Blocked
  end.

(** A signal reaches the process while it runs [main]. *)
Definition signal_step (g : local) : result local :=
  match at_pc g with
  | At_start | Exited _ => Blocked
  | _ => Ok (handle_signal g)
  end.

End Generator.

(** ** The supervisor process (supervisor.c, main) *)

Module Supervisor.

Inductive pc :=
| At_start
| At_loop_top
| At_wait_used
| At_after_loop
| At_cleanup
| Exited (status : Z).

Record local := {
  at_pc : pc;
  quit : bool;
  args : list string;
  current_best : cb_entry_t;
  out : list event
}.

(** [stack] is what the memory of [current_best] holds before [main]
    writes to it. *)
Definition init (argv : list string) (stack : cb_entry_t) : local :=
  {| at_pc := At_start; quit := false; args := argv; current_best := stack; out := [] |}.

Definition goto (p : pc) (s : local) : local :=
  {| at_pc := p; quit := quit s; args := args s; current_best := current_best s;
     out := out s |}.

Definition emit (evs : list event) (s : local) : local :=
  {| at_pc := at_pc s; quit := quit s; args := args s; current_best := current_best s;
     out := out s ++ evs |}.

Definition leave (evs : list event) (status : Z) (s : local) : local :=
  goto (Exited status) (emit evs s).

Definition set_best (e : cb_entry_t) (s : local) : local :=
  {| at_pc := at_pc s; quit := quit s; args := args s; current_best := e; out := out s |}.

Definition handle_signal (s : local) : local :=
  {| at_pc := at_pc s; quit := true; args := args s; current_best := current_best s;
     out := out s ++ [Ev_print Msg_signal] |}.

Definition fatal_wait : list event :=
  close_all_sems ++ print_errno_msg "sem_wait failed".

Definition cleanup : list event :=
  [Ev_munmap; Ev_close_fd; Ev_shm_unlink] ++ close_all_sems
  ++ [Ev_print Msg_cleaned_up; Ev_exit EXIT_SUCCESS].

Definition advance_rd (w : world) : world :=
  set_cb w {| signal := signal (cb w); rd := next_index (rd (cb w));
              wr := wr (cb w); entries := entries (cb w) |}.

Definition raise_signal (w : world) : world :=
  set_cb w {| signal := 1; rd := rd (cb w); wr := wr (cb w); entries := entries (cb w) |}.

(** The loop body behind a successful [sem_wait(used_sem)]. *)
Definition body (s : local) (w : world) : result (local * world) :=
  match slot (Z.rem (rd (cb w)) NUMBER_OF_ENTRIES) with
  | None => Undefined
  | Some k0 =>
      match entries (cb w) !! k0 with
      | None => Undefined
      | Some e0 =>
          if length e0 =? 0
          then Ok (goto At_after_loop (emit [Ev_print Msg_3_colorable] s),
                   sem_post w FREE_SEM)
          else
            match slot (rd (cb w)) with
            | None => Undefined
            | Some k =>
                match entries (cb w) !! k with
                | None => Undefined
                | Some e =>
                    if length e >=? length (current_best s)
                    then Ok (goto At_loop_top s, sem_post (advance_rd w) FREE_SEM)
                    else Ok (goto At_loop_top
                               (emit [Ev_print (Msg_solution (length e) (entry_pairs e))]
                                  (set_best e s)),
                             sem_post (advance_rd w) FREE_SEM)
                end
            end
      end
  end.

Definition main_step (i : input) (s : local) (w : world) : result (local * world) :=
  match at_pc s with
  | At_start =>
      match args s with
      | _ :: _ => Ok (leave usage EXIT_FAILURE s, w)
      | [] =>
          if negb (in_shm_open i)
          then Ok (leave (print_errno_msg "shm_open failed") EXIT_FAILURE s, w)
          else if negb (in_ftruncate i)
          then Ok (leave (print_errno_msg "ftruncate failed") EXIT_FAILURE s, w)
          else if negb (in_mmap i)
          then Ok (leave (print_errno_msg "mmap failed") EXIT_FAILURE s, w)
          else if negb (in_sem_open i)
          then Ok (leave (close_all_sems ++ print_errno_msg "sem_open failed")
                     EXIT_FAILURE s, w)
          else Ok (goto At_loop_top
                     (emit [Ev_print Msg_started]
                        (set_best {| length := INT_MAX;
                                     from_vertices := from_vertices (current_best s);
                                     to_vertices := to_vertices (current_best s) |} s)),
                   w)
      end
  | At_loop_top =>
      if negb (quit s) then Ok (goto At_wait_used s, w) else Ok (goto At_after_loop s, w)
  | At_wait_used =>
      match in_wait i with
      | Acquired =>
          match sem_wait Acquired w USED_SEM with
          | Ok w' => body s w'
          | Blocked => Blocked
          | Undefined => Undefined
          end
      | Eintr => Ok (goto At_loop_top s, w)
      | Efail => Ok (leave fatal_wait EXIT_FAILURE s, w)
      end
  | At_after_loop => Ok (goto At_cleanup s, raise_signal w)
  | At_cleanup => Ok (leave cleanup EXIT_SUCCESS s, w)
  | Exited _ => Blocked
  end.

Definition signal_step (s : local) : result local :=
  match at_pc s with
  | At_start | Exited _ => Blocked
  | _ => Ok (handle_signal s)
  end.

End Supervisor.

(** ** One supervisor and any number of generators *)

Record system := {
  shm : world;
  sup : Supervisor.local;
  gens : list Generator.local
}.

Inductive label :=
| L_sup (i : input)
| L_gen (n : nat) (i : input)
| L_signal_sup
| L_signal_gen (n : nat).

Definition sys_step (l : label) (s : system) : result system :=
  match l with
  | L_sup i =>
      match Supervisor.main_step i (sup s) (shm s) with
      | Ok (s', w') => Ok {| shm := w'; sup := s'; gens := gens s |}
      | Blocked => Blocked
      | Undefined => Undefined
      end
  | L_gen n i =>
      match gens s !! n with
      | None => Blocked
      | Some g =>
          match Generator.main_step i g (shm s) with
          | Ok (g', w') => Ok {| shm := w'; sup := sup s; gens := <[n := g']> (gens s) |}
          | Blocked => Blocked
          | Undefined => Undefined
          end
      end
  | L_signal_sup =>
      match Supervisor.signal_step (sup s) with
      | Ok s' => Ok {| shm := shm s; sup := s'; gens := gens s |}
      | Blocked => Blocked
      | Undefined => Undefined
      end
  | L_signal_gen n =>
      match gens s !! n with
      | None => Blocked
      | Some g =>
          match Generator.signal_step g with
          | Ok g' => Ok {| shm := shm s; sup := sup s; gens := <[n := g']> (gens s) |}
          | Blocked => Blocked
          | Undefined => Undefined
          end
      end
  end.

Fixpoint run (ls : list label) (s : system) : result system :=
  match ls with
  | [] => Ok s
  | l :: ls' =>
      match sys_step l s with
      | Ok s' => run ls' s'
      | Blocked => Blocked
      | Undefined => Undefined
      end
  end.

Definition system_init (sup_args : list string) (stack : cb_entry_t)
    (gs : list (list string * (nat -> Z))) : system :=
  {| shm := world_init;
     sup := Supervisor.init sup_args stack;
     gens := List.map (fun '(a, r) => Generator.init a r) gs |}.

Definition reachable (s : system) : Prop :=
  exists sup_args stack gs ls, run ls (system_init sup_args stack gs) = Ok s.

(** * What the statements speak of *)

(** ** The graph *)

Module GraphSpec.
Import Graph.

(** What parse_argv keeps true of the two arrays while it fills them. *)
Record inv (g : t) : Prop := {
  inv_keys : NoDup (map key (vertices g));
  inv_wf : wf_edges (vertices g) (edges g);
  inv_edges : forall i j ei ej,
    i <> j -> edges g !! i = Some ei -> edges g !! j = Some ej ->
    edge_matches ei (v1 ej) (v2 ej) = false
}.

(** The lookup-or-add that parse_argv does for each of the two keys. *)
Definition vertex_for (vs : list vertex_t) (k : Z) : list vertex_t * nat :=
  match find_vertex_by_key vs k with
  | Some p => (vs, p)
  | None => add_new_vertex vs k
  end.

(** A vertex is behind key [k]. *)
Definition has_key (vs : list vertex_t) (k : Z) : Prop :=
  exists v, In v vs /\ key v = k.

(** Two key pairs name the same edge. *)
Definition same_pair (a b : Z * Z) : Prop := a = b \/ a = (snd b, fst b).

(** Some edge joins the vertices with keys [k1] and [k2], either way round. *)
Definition joins (g : t) (k1 k2 : Z) : Prop :=
  exists e, In e (edges g) /\
    (edge_keys (vertices g) e = Some (k1, k2) \/ edge_keys (vertices g) e = Some (k2, k1)).

(** Every edge has its two vertices, and no two edges at different places
    of the array have the same pair of keys, in either order. *)
Definition distinct_edges (vs : list vertex_t) (es : list edge_t) : Prop :=
  forall i j ei ej,
    i <> j -> es !! i = Some ei -> es !! j = Some ej ->
    exists a b, edge_keys vs ei = Some a /\ edge_keys vs ej = Some b /\ ~ same_pair a b.

End GraphSpec.

(** ** The shared state *)

Definition index_ok (i : Z) : Prop := 0 <= i < NUMBER_OF_ENTRIES.

Definition entry_ok (e : cb_entry_t) : Prop :=
  0 <= length e <= Z.of_nat MAXIMUM_SOLUTION_LENGTH /\
  List.length (from_vertices e) = MAXIMUM_SOLUTION_LENGTH /\
  List.length (to_vertices e) = MAXIMUM_SOLUTION_LENGTH.

Definition world_ok (w : world) : Prop :=
  List.length (entries (cb w)) = Z.to_nat NUMBER_OF_ENTRIES /\
  Forall entry_ok (entries (cb w)) /\
  index_ok (rd (cb w)) /\ index_ok (wr (cb w)).

(** ** The supervisor's read position *)

(** The step [l] is a consume: the supervisor's [sem_wait(used_sem)]
    returns 0 and the loop body runs. *)
Definition consumes (l : label) (s : system) : bool :=
  match l with
  | L_sup i =>
      match Supervisor.at_pc (sup s), in_wait i with
      | Supervisor.At_wait_used, Acquired => true
      | _, _ => false
      end
  | _ => false
  end.

(** The values of [cb->rd] at the consumes of a run, in order. *)
Fixpoint read_indices (ls : list label) (s : system) : list Z :=
  match ls with
  | [] => []
  | l :: ls' =>
      match sys_step l s with
      | Ok s' => (if consumes l s then [rd (cb (shm s))] else []) ++ read_indices ls' s'
      | _ => []
      end
  end.

(** [r], [r + 1], ... counted around the buffer. *)
Definition cyclic_from (r : Z) (n : nat) : list Z :=
  map (fun k => (r + Z.of_nat k) mod NUMBER_OF_ENTRIES) (seq 0 n).

(** The supervisor has left its loop for good. *)
Definition past_loop (p : Supervisor.pc) : bool :=
  match p with
  | Supervisor.At_after_loop | Supervisor.At_cleanup | Supervisor.Exited _ => true
  | _ => false
  end.

(** ** What a generator leaves behind *)

(** What a generator prints while it runs. *)
Definition progress_event (e : event) : Prop :=
  e = Ev_print Msg_started \/ e = Ev_print Msg_signal \/
  exists n, e = Ev_print (Msg_reported n).

(** The ways [main] of the generator ends. *)
Definition generator_exit_tail (st : Z) (tail : list event) : Prop :=
  (st = EXIT_SUCCESS /\ exists w, tail = Generator.cleanup w) \/
  (st = EXIT_FAILURE /\
   (tail = usage \/
    tail = print_errno_msg "shm_open failed" \/
    tail = print_errno_msg "mmap failed" \/
    tail = close_all_sems ++ print_errno_msg "sem_open failed" \/
    tail = Generator.fatal_wait)).

Definition generator_trace_ok (g : Generator.local) : Prop :=
  match Generator.at_pc g with
  | Generator.Exited st =>
      exists pre tail, Generator.out g = pre ++ tail /\
        Forall progress_event pre /\ generator_exit_tail st tail
  | _ => Forall progress_event (Generator.out g)
  end.

(** An event that is a call on a resource or the exit, no progress message. *)
Definition resource_event (e : event) : bool :=
  match e with
  | Ev_print (Msg_started | Msg_signal | Msg_reported _) => false
  | _ => true
  end.

(** ** One attempt of the generator *)

(** The test [removal_candidates_length > MAXIMUM_SOLUTION_LENGTH]. *)
Definition overflow (rc : list edge_t) : bool :=
  (MAXIMUM_SOLUTION_LENGTH <? List.length rc)%nat.

(** [w'] is [w] after one entry [e] with [n] candidates was published:
    the slot at [wr] holds [e], [wr] has moved on, and one permit each went
    to [used_sem] and [write_sem]. *)
Definition published (n : nat) (e : cb_entry_t) (w w' : world) : Prop :=
  exists k,
    slot (wr (cb w)) = Some k /\
    length e = Z.of_nat n /\
    entries (cb w') = <[k := e]> (entries (cb w)) /\
    wr (cb w') = next_index (wr (cb w)) /\
    rd (cb w') = rd (cb w) /\ signal (cb w') = signal (cb w) /\
    used_sem w' = S (used_sem w) /\ write_sem w' = S (write_sem w) /\
    free_sem w' = free_sem w.

(** ** The end of the supervisor *)

Definition is_print (e : event) : bool :=
  match e with
  | Ev_print _ => true
  | _ => false
  end.

(** While the supervisor runs it has only printed, and once it stands
    before its cleanup or has called [shm_unlink] the flag is set. *)
Definition supervisor_ok (s : Supervisor.local) (w : world) : Prop :=
  match Supervisor.at_pc s with
  | Supervisor.Exited _ => In Ev_shm_unlink (Supervisor.out s) -> signal (cb w) = 1
  | Supervisor.At_cleanup =>
      Forall (fun e => is_print e = true) (Supervisor.out s) /\ signal (cb w) = 1
  | _ => Forall (fun e => is_print e = true) (Supervisor.out s)
  end.

(** The edges of a generator's graph point into its vertices. *)
Definition generator_graph_ok (g : Generator.local) : Prop :=
  wf_edges (Graph.vertices (Generator.graph g)) (Graph.edges (Generator.graph g)).

(** ** Concrete runs *)

Module Scenario.

(** The operating system grants everything; [sem_wait] returns as [r]. *)
Definition os_ok (r : wait_result) : input :=
  {| in_wait := r; in_shm_open := true; in_ftruncate := true;
     in_mmap := true; in_sem_open := true |}.

Definition go : input := os_ok Acquired.

(** A star with nine edges; with [rand()] returning 0 every vertex gets
    color 0 and all nine edges conflict. *)
Definition star9 : list string :=
  ["0-1"; "0-2"; "0-3"; "0-4"; "0-5"; "0-6"; "0-7"; "0-8"; "0-9"]%string.

Definition all_zero (n : nat) : Z := 0.

Definition star9_system : system := system_init [] zero_entry [(star9, all_zero)].

(** One edge; with [rand()] returning 0, 1, 2, ... its ends get colors 0
    and 1: a valid coloring. *)
Definition counting (n : nat) : Z := Z.of_nat n.

Definition path_system : system := system_init [] zero_entry [(["0-1"%string], counting)].

(** Supervisor and generator start; the generator stands at its loop. *)
Definition attach : list label := [L_sup go; L_gen 0 go].

(** One round of the generator's loop without interruption: the test, the
    two waits, the body. *)
Definition attempt : list label := [L_gen 0 go; L_gen 0 go; L_gen 0 go; L_gen 0 go].

(** The state a run ends in. *)
Definition after (ls : list label) (s : system) : system :=
  match run ls s with
  | Ok s' => s'
  | _ => s
  end.

(** The star as parse_argv builds it, and with every vertex of color 0. *)
Definition star9_graph : Graph.t :=
  match Graph.parse_argv star9 with
  | Some g => g
  | None => Graph.empty
  end.

Definition star9_colored : list vertex_t :=
  randomize all_zero 0 (Graph.vertices star9_graph).

(** The generator of the path gets SIGINT while the supervisor listens,
    and runs to its end. *)
Definition generator_interrupted : system :=
  after (attach ++ [L_signal_gen 0; L_gen 0 go; L_gen 0 go]) path_system.

(** The generator of the path has published its valid coloring and the
    supervisor is in [sem_wait(used_sem)]. *)
Definition solution_pending : system :=
  after (attach ++ attempt ++ [L_sup go]) path_system.

(** The star's generator publishes twice and the supervisor consumes both. *)
Definition two_consumes : list label :=
  attach ++ attempt ++ attempt ++ [L_sup go; L_sup go; L_sup go; L_sup go].

(** The star's generator has published eight edges and the supervisor is
    in [sem_wait(used_sem)]. *)
Definition star9_pending : system :=
  after (attach ++ attempt ++ [L_sup go]) star9_system.

(** And the supervisor has consumed them. *)
Definition star9_consumed : system := after [L_sup go] star9_pending.

(** The generator of the path has filled all slots while the supervisor
    has not consumed any, has taken [write_sem] again and is in
    [sem_wait(free_sem)]. *)
Definition buffer_full : system :=
  after (attach ++ concat (repeat attempt (Z.to_nat NUMBER_OF_ENTRIES))
           ++ [L_gen 0 go; L_gen 0 go]) path_system.

(** The star's generator has published once. *)
Definition star9_published : system := after (attach ++ attempt) star9_system.

End Scenario.

(** ** Tokens *)

(** A natural number in decimal, and the argument that names an edge
    between two of them. *)
Definition show_key (n : nat) : string := NilZero.string_of_uint (Nat.to_uint n).

Definition edge_token (a b : nat) : string :=
  (show_key a ++ "-" ++ show_key b)%string.

Definition no_dash (c : ascii) : Prop := Graph.is_dash c = false.

Definition is_digit (c : ascii) : Prop := is_Some (Graph.digit_of c).

(** ** Permits and positions *)

(** The generator is between its [sem_wait(write_sem)] and the end of the
    loop body. *)
Definition in_critical (g : Generator.local) : bool :=
  match Generator.at_pc g with
  | Generator.At_wait_free | Generator.At_body => true
  | _ => false
  end.

(** The generator has returned from its [sem_wait(free_sem)] and has not
    yet published: it holds a free slot. *)
Definition in_body (g : Generator.local) : bool :=
  match Generator.at_pc g with
  | Generator.At_body => true
  | _ => false
  end.

Definition count_gens (P : Generator.local -> bool) (s : system) : nat :=
  List.length (List.filter P (gens s)).

(** What the three semaphores keep true. *)
Definition permits_ok (s : system) : Prop :=
  (write_sem (shm s) + count_gens in_critical s <= 1)%nat /\
  (free_sem (shm s) + used_sem (shm s) + count_gens in_body s =
   Z.to_nat NUMBER_OF_ENTRIES)%nat.

(** What a step of a generator can be. *)
Inductive generator_move (g : Generator.local) (w : world) (g' : Generator.local)
    (w' : world) : Prop :=
| Move_take_write :
    Generator.at_pc g = Generator.At_wait_write ->
    Generator.at_pc g' = Generator.At_wait_free ->
    cb w' = cb w -> write_sem w = S (write_sem w') ->
    free_sem w' = free_sem w -> used_sem w' = used_sem w ->
    generator_move g w g' w'
| Move_take_free :
    Generator.at_pc g = Generator.At_wait_free ->
    Generator.at_pc g' = Generator.At_body ->
    cb w' = cb w -> free_sem w = S (free_sem w') ->
    write_sem w' = write_sem w -> used_sem w' = used_sem w ->
    generator_move g w g' w'
| Move_publish n e :
    Generator.at_pc g = Generator.At_body ->
    Generator.at_pc g' = Generator.At_loop_top ->
    (n <= MAXIMUM_SOLUTION_LENGTH)%nat ->
    published n e w w' ->
    generator_move g w g' w'
| Move_other :
    Generator.at_pc g <> Generator.At_body ->
    in_critical g' = false -> w' = w ->
    generator_move g w g' w'.

(** ** The history of a run *)

(** The steps a run takes, each with the state before and the state after. *)
Fixpoint steps (ls : list label) (s : system) : list (label * system * system) :=
  match ls with
  | [] => []
  | l :: ls' =>
      match sys_step l s with
      | Ok s' => (l, s, s') :: steps ls' s'
      | _ => []
      end
  end.

(** The entry the supervisor reads when the step is a consume. *)
Definition consumed_at (st : label * system * system) : list cb_entry_t :=
  let '(l, s, _) := st in
  if consumes l s
  then match entries (cb (shm s)) !! Z.to_nat (rd (cb (shm s))) with
       | Some e => [e]
       | None => []
       end
  else [].

(** The entry that is in the slot at [wr] after a generator has run its
    loop body. *)
Definition published_at (st : label * system * system) : list cb_entry_t :=
  let '(l, s, s') := st in
  match l with
  | L_gen n _ =>
      match gens s !! n with
      | Some g =>
          if in_body g
          then match entries (cb (shm s')) !! Z.to_nat (wr (cb (shm s))) with
               | Some e => [e]
               | None => []
               end
          else []
      | None => []
      end
  | _ => []
  end.

Definition consumed_entries (ls : list label) (s : system) : list cb_entry_t :=
  flat_map consumed_at (steps ls s).

Definition published_entries (ls : list label) (s : system) : list cb_entry_t :=
  flat_map published_at (steps ls s).

(** The unread entries [q] are in the slots from [rd] on, [used_sem]
    counts them and [wr] is behind them. *)
Definition queue_in (s : system) (q : list cb_entry_t) : Prop :=
  List.length q = used_sem (shm s) /\
  wr (cb (shm s)) = (rd (cb (shm s)) + Z.of_nat (used_sem (shm s))) mod NUMBER_OF_ENTRIES /\
  forall i e, q !! i = Some e ->
    entries (cb (shm s)) !! Z.to_nat ((rd (cb (shm s)) + Z.of_nat i) mod NUMBER_OF_ENTRIES)
    = Some e.

(** What holds of a state and the steps that led to it. *)
Definition fifo_ok (s : system) (log : list (label * system * system)) : Prop :=
  world_ok (shm s) /\ permits_ok s /\
  exists q, flat_map published_at log = flat_map consumed_at log ++ q /\
            (past_loop (Supervisor.at_pc (sup s)) = false -> queue_in s q).

(** ** What the supervisor prints and remembers *)

(** The lengths of the solutions in a trace, in the order they were
    printed. *)
Definition solution_lengths (evs : list event) : list Z :=
  flat_map (fun ev => match ev with
                      | Ev_print (Msg_solution n _) => [n]
                      | _ => []
                      end) evs.

(** The supervisor stands before its cleanup or has ended with success. *)
Definition flag_pc (p : Supervisor.pc) : bool :=
  match p with
  | Supervisor.At_cleanup => true
  | Supervisor.Exited st => st =? EXIT_SUCCESS
  | _ => false
  end.

(** The supervisor is in its loop. *)
Definition listening (p : Supervisor.pc) : bool :=
  match p with
  | Supervisor.At_loop_top | Supervisor.At_wait_used => true
  | _ => false
  end.

(** What holds of [current_best] and the entries consumed so far. *)
Definition best_ok (s : system) (con : list cb_entry_t) : Prop :=
  (Supervisor.at_pc (sup s) = Supervisor.At_start -> con = []) /\
  (forall e, In e con -> length e <> 0 ->
             length (Supervisor.current_best (sup s)) <= length e) /\
  ((exists e, In e con /\ length e <> 0) -> In (Supervisor.current_best (sup s)) con) /\
  (listening (Supervisor.at_pc (sup s)) = true ->
   (forall e, In e con -> length e = 0) ->
   length (Supervisor.current_best (sup s)) = INT_MAX).

(** What holds of the solutions printed so far. *)
Definition solutions_ok (s : system) : Prop :=
  (Supervisor.at_pc (sup s) = Supervisor.At_start -> Supervisor.out (sup s) = []) /\
  StronglySorted Z.gt (solution_lengths (Supervisor.out (sup s))) /\
  Forall (fun n => 1 <= n <= Z.of_nat MAXIMUM_SOLUTION_LENGTH /\
                   length (Supervisor.current_best (sup s)) <= n)
    (solution_lengths (Supervisor.out (sup s))) /\
  List.last (solution_lengths (Supervisor.out (sup s)))
    (length (Supervisor.current_best (sup s)))
  = length (Supervisor.current_best (sup s)).
(** What a step that consumes nothing does to the supervisor. *)
Definition quiet_move (s s' : Supervisor.local) : Prop :=
  (Supervisor.at_pc s' = Supervisor.At_start -> s' = s) /\
  (Supervisor.at_pc s = Supervisor.At_start ->
   listening (Supervisor.at_pc s') = true ->
   length (Supervisor.current_best s') = INT_MAX) /\
  (Supervisor.at_pc s <> Supervisor.At_start ->
   Supervisor.at_pc s' <> Supervisor.At_start /\
   Supervisor.current_best s' = Supervisor.current_best s /\
   (listening (Supervisor.at_pc s') = true -> listening (Supervisor.at_pc s) = true)) /\
  exists evs, Supervisor.out s' = Supervisor.out s ++ evs /\
    solution_lengths evs = [] /\ ~ In (Ev_print Msg_3_colorable) evs.

(** The supervisor has announced a coloring exactly when it has consumed
    an entry of length 0. *)
Definition announce_ok (s : system) (con : list cb_entry_t) : Prop :=
  In (Ev_print Msg_3_colorable) (Supervisor.out (sup s)) <->
  exists e, In e con /\ length e = 0.

Definition supervisor_log_ok (s : system) (log : list (label * system * system)) : Prop :=
  world_ok (shm s) /\ best_ok s (flat_map consumed_at log) /\ solutions_ok s /\
  announce_ok s (flat_map consumed_at log).

(** ** Where an entry comes from *)

(** The coloring of attempt [j]: vertex [i] gets [rand()] number
    [j * |vertices| + i], modulo 3. *)
Definition attempt_coloring (r : nat -> Z) (gr : Graph.t) (j : nat) : list vertex_t :=
  randomize r (j * List.length (Graph.vertices gr)) (Graph.vertices gr).

(** [e] is what attempt [j] on [gr] leaves in the buffer: the conflicting
    edges under the attempt's coloring, cut off at MAXIMUM_SOLUTION_LENGTH,
    as key pairs. *)
Definition entry_of_attempt (r : nat -> Z) (gr : Graph.t) (j : nat) (e : cb_entry_t) : Prop :=
  let vs := attempt_coloring r gr j in
  let cs := conflict_set vs (Graph.edges gr) in
  length e = Z.of_nat (Nat.min MAXIMUM_SOLUTION_LENGTH (List.length cs)) /\
  map Some (entry_pairs e) = map (edge_keys vs) (take MAXIMUM_SOLUTION_LENGTH cs).

(** [e] is an entry of some attempt of one of the generators [gs]. *)
Definition entry_from (gs : list (list string * (nat -> Z))) (e : cb_entry_t) : Prop :=
  exists n a r gr j,
    gs !! n = Some (a, r) /\ Graph.parse_argv a = Some gr /\ entry_of_attempt r gr j e.

(** The generator was started with [a] and [r]; while it runs its graph
    is the one [parse_argv] built, colors apart, and it has called
    [rand()] once per vertex and attempt. *)
Definition origin (a : list string) (r : nat -> Z) (g : Generator.local) : Prop :=
  Generator.args g = a /\ Generator.rand g = r /\
  match Generator.at_pc g with
  | Generator.At_start => Generator.rand_calls g = 0%nat
  | Generator.Exited _ => True
  | _ => exists gr j,
           Graph.parse_argv a = Some gr /\
           map key (Graph.vertices (Generator.graph g)) = map key (Graph.vertices gr) /\
           Graph.edges (Generator.graph g) = Graph.edges gr /\
           Generator.rand_calls g = (j * List.length (Graph.vertices gr))%nat
  end.

Definition origins (gs : list (list string * (nat -> Z))) (s : system) : Prop :=
  forall n g, gens s !! n = Some g -> exists a r, gs !! n = Some (a, r) /\ origin a r g.

Definition published_ok (gs : list (list string * (nat -> Z)))
    (s : system) (log : list (label * system * system)) : Prop :=
  world_ok (shm s) /\ Forall generator_graph_ok (gens s) /\ origins gs s /\
  Forall (entry_from gs) (flat_map published_at log).

(** The vertices of [gr] can take the colors 0, 1 and 2 so that no edge
    joins two vertices of one color. *)
Definition three_colorable (gr : Graph.t) : Prop :=
  exists vs, map key vs = map key (Graph.vertices gr) /\
             Forall (fun v => 0 <= color v <= 2) vs /\
             valid_coloring vs (Graph.edges gr).

(** Every [rand()] returns a number that is not negative. *)
Definition rand_ok (gs : list (list string * (nat -> Z))) : Prop :=
  forall a r, In (a, r) gs -> forall n, 0 <= r n.

(** ** The solutions in the trace *)

(** Every solution the supervisor has printed is an entry it consumed. *)
Definition solutions_from (s : system) (con : list cb_entry_t) : Prop :=
  forall n ps, In (Ev_print (Msg_solution n ps)) (Supervisor.out (sup s)) ->
    exists e, In e con /\ n = length e /\ ps = entry_pairs e.

Definition printed_ok (s : system) (log : list (label * system * system)) : Prop :=
  world_ok (shm s) /\ solutions_from s (flat_map consumed_at log).

(** ** How far a process is from its end *)

(** The steps a supervisor that was told to stop has before it: the wait
    it is in, the test of the loop, the line behind the loop, the cleanup. *)
Definition supervisor_rest (p : Supervisor.pc) : nat :=
  match p with
  | Supervisor.At_start => 5
  | Supervisor.At_wait_used => 4
  | Supervisor.At_loop_top => 3
  | Supervisor.At_after_loop => 2
  | Supervisor.At_cleanup => 1
  | Supervisor.Exited _ => 0
  end.

(** The same for a generator: the two waits, the loop body, the test of
    the loop, the lines behind the loop. *)
Definition generator_rest (p : Generator.pc) : nat :=
  match p with
  | Generator.At_start => 6
  | Generator.At_wait_write => 5
  | Generator.At_wait_free => 4
  | Generator.At_body => 3
  | Generator.At_loop_top => 2
  | Generator.At_after_loop => 1
  | Generator.Exited _ => 0
  end.

(** The step [l] is a step of [main] of generator [n]. *)
Definition step_of (n : nat) (l : label) : bool :=
  match l with
  | L_gen m _ => (m =? n)%nat
  | _ => false
  end.

(** The generator got a signal, or the supervisor has set the flag. *)
Definition told_to_stop (g : Generator.local) (w : world) : Prop :=
  Generator.quit g = true \/ signal (cb w) = 1.

(** ** More concrete runs *)

Module Runs.
Import Scenario.

(** Supervisor and generator start, the generator publishes once and the
    supervisor consumes what it published. *)
Definition one_round : list label := attach ++ attempt ++ [L_sup go; L_sup go].

(** A triangle; with [rand()] returning 0 all three edges conflict. *)
Definition triangle : list string := ["0-1"; "1-2"; "2-0"]%string.

Definition triangle_system : system := system_init [] zero_entry [(triangle, all_zero)].

(** The supervisor of the star gets SIGINT in its [sem_wait(used_sem)]. *)
Definition supervisor_stopped : system := after [L_signal_sup] star9_pending.

(** The generator of the star gets SIGINT after it has published. *)
Definition generator_stopped : system := after [L_signal_gen 0] star9_published.

(** The generator of the path has taken [write_sem]. *)
Definition writer_inside : system := after (attach ++ [L_gen 0 go; L_gen 0 go]) path_system.

End Runs.

(** ** What the supervisor leaves behind *)

(** The ways [main] of the supervisor ends. *)
Definition supervisor_exit_tail (st : Z) (tail : list event) : Prop :=
  (st = EXIT_SUCCESS /\ tail = Supervisor.cleanup) \/
  (st = EXIT_FAILURE /\
   (tail = usage \/
    tail = print_errno_msg "shm_open failed" \/
    tail = print_errno_msg "ftruncate failed" \/
    tail = print_errno_msg "mmap failed" \/
    tail = close_all_sems ++ print_errno_msg "sem_open failed" \/
    tail = Supervisor.fatal_wait)).

(** While it runs the supervisor only prints; it ends in one of the ways
    above. *)
Definition supervisor_trace_ok (s : Supervisor.local) : Prop :=
  match Supervisor.at_pc s with
  | Supervisor.Exited st =>
      exists pre tail, Supervisor.out s = pre ++ tail /\
        Forall (fun e => is_print e = true) pre /\ supervisor_exit_tail st tail
  | _ => Forall (fun e => is_print e = true) (Supervisor.out s)
  end.

(** The supervisor of the star gets SIGINT in its [sem_wait(used_sem)]
    and runs to its end. *)
Definition supervisor_done : system :=
  Scenario.after [L_sup (Scenario.os_ok Eintr); L_sup Scenario.go; L_sup Scenario.go;
                  L_sup Scenario.go] Runs.supervisor_stopped.

(** ** An object that is already there *)

(** The state the supervisor starts in when [shm_open] finds the object
    [c] of an earlier run: O_CREAT without O_EXCL opens it as it is,
    [ftruncate] to the size it has keeps what it holds, and [main] writes
    nothing to [cb] before its loop. The semaphores are new in either
    case, because [sem_open] is called with O_EXCL. *)
Definition world_on (c : cb_t) : world :=
  {| cb := c;
     free_sem := Z.to_nat NUMBER_OF_ENTRIES;
     used_sem := 0;
     write_sem := 1 |}.

Definition system_on (c : cb_t) (sup_args : list string) (stack : cb_entry_t)
    (gs : list (list string * (nat -> Z))) : system :=
  {| shm := world_on c;
     sup := Supervisor.init sup_args stack;
     gens := List.map (fun '(a, r) => Generator.init a r) gs |}.

Module Stale.
Import Scenario.

(** What a run of the star leaves in the object when its generator has
    published once and its supervisor has consumed that: [rd] and [wr]
    are 1 and slot 0 holds eight edges. *)
Definition consumed_once : cb_t := cb (shm star9_consumed).

(** The next run of the star on that object. *)
Definition star9_again : system :=
  system_on consumed_once [] zero_entry [(star9, all_zero)].

(** And a run of the path and one of the triangle on it. *)
Definition path_again : system :=
  system_on consumed_once [] zero_entry [(["0-1"%string], counting)].

Definition triangle_again : system :=
  system_on consumed_once [] zero_entry [(Runs.triangle, all_zero)].

End Stale.

(** ** The text of an argument *)

(** Only ['-'] characters. *)
Definition dashes (d : list ascii) : Prop := Forall (fun c => Graph.is_dash c = true) d.

(** The number a run of decimal digits stands for. *)
Definition decimal_value (ds : list ascii) : Z :=
  fold_left (fun acc c => 10 * acc + (Z.of_nat (nat_of_ascii c) - 48)) ds 0.

(** A token that [strtol] reads to its end as the digits [ds]: white
    space, then an optional ['+'], then at least one digit. *)
Definition key_text (t ds : list ascii) : Prop :=
  exists sp sg,
    t = sp ++ sg ++ ds /\
    Forall (fun c => Graph.isspace c = true) sp /\
    (sg = [] \/ sg = ["+"%char]) /\
    ds <> [] /\ Forall is_digit ds.

(** An argument made of two such tokens: ['-'] characters, at least one,
    stand between them, and any number of them before and behind. *)
Definition edge_text (s ds1 ds2 : list ascii) : Prop :=
  exists d1 t1 d2 t2 d3,
    s = d1 ++ t1 ++ d2 ++ t2 ++ d3 /\
    dashes d1 /\ dashes d2 /\ d2 <> [] /\ dashes d3 /\
    key_text t1 ds1 /\ key_text t2 ds2.

(** ** Inside a consume *)

(** The states of the system with the consume of the supervisor taken
    apart. [fine_reachable s h] says that the system can be in [s], where
    [h] tells whether the supervisor has returned from
    [sem_wait(used_sem)] and has not yet called [sem_post(free_sem)].
    While it is there the generators go on and signals arrive. *)
Inductive fine_reachable : system -> bool -> Prop :=
| Fine_start c sup_args stack gs :
    fine_reachable (system_on c sup_args stack gs) false
| Fine_step s l s' :
    fine_reachable s false -> consumes l s = false -> sys_step l s = Ok s' ->
    fine_reachable s' false
| Fine_take s w :
    fine_reachable s false ->
    Supervisor.at_pc (sup s) = Supervisor.At_wait_used ->
    sem_wait Acquired (shm s) USED_SEM = Ok w ->
    fine_reachable {| shm := w; sup := sup s; gens := gens s |} true
| Fine_meanwhile s l s' :
    fine_reachable s true ->
    match l with L_sup _ => False | _ => True end ->
    sys_step l s = Ok s' ->
    fine_reachable s' true
| Fine_finish s sp w :
    fine_reachable s true ->
    Supervisor.body (sup s) (shm s) = Ok (sp, w) ->
    fine_reachable {| shm := w; sup := sp; gens := gens s |} false.

(** The permits and the processes that hold one add up to [total]. *)
Definition permits_at (total : nat) (s : system) : Prop :=
  (write_sem (shm s) + count_gens in_critical s <= 1)%nat /\
  (free_sem (shm s) + used_sem (shm s) + count_gens in_body s = total)%nat.

(** The step [l] is a step of [main] of the supervisor. *)
Definition step_of_supervisor (l : label) : bool :=
  match l with
  | L_sup _ => true
  | _ => false
  end.

(** The process is in its loop or behind it, and has not ended. *)
Definition supervisor_runs (p : Supervisor.pc) : bool :=
  match p with
  | Supervisor.At_start | Supervisor.Exited _ => false
  | _ => true
  end.

Definition generator_runs (p : Generator.pc) : bool :=
  match p with
  | Generator.At_start | Generator.Exited _ => false
  | _ => true
  end.

(** The supervisor stands in the wait of the star's entry, inside the
    consume. *)
Definition star9_taken : system :=
  {| shm := sem_set (shm Scenario.star9_pending) USED_SEM 0;
     sup := sup Scenario.star9_pending;
     gens := gens Scenario.star9_pending |}.

(** The permit the supervisor holds inside a consume. *)
Definition held (h : bool) : nat := if h then 1%nat else 0%nat.

(** ** A generator that does not get its semaphores *)

Module Failing.
Import Scenario.

(** The operating system grants everything but [sem_open]. *)
Definition no_sem_open : input :=
  {| in_wait := Acquired; in_shm_open := true; in_ftruncate := true;
     in_mmap := true; in_sem_open := false |}.

(** The generator of the path has mapped the shared memory and then fails
    to open the semaphores. *)
Definition generator_without_semaphores : system :=
  after [L_sup go; L_gen 0 no_sem_open] path_system.

End Failing.

(** * Properties *)

(** ** Graph construction *)

Module GraphFacts.
Import Graph GraphSpec.

Lemma to_int_idem z : to_int (to_int z) = to_int z.
Proof.
  unfold to_int.
  replace ((z + 2 ^ 31) mod 2 ^ 32 - 2 ^ 31 + 2 ^ 31) with ((z + 2 ^ 31) mod 2 ^ 32) by lia.
  by rewrite Z.mod_mod.
Qed.

Lemma find_vertex_from_Some vs : forall i k p,
  find_vertex_from i vs k = Some p ->
  (i <= p)%nat /\ exists v, vs !! (p - i)%nat = Some v /\ key v = k.
Proof.
  induction vs as [|v vs IH]; intros i k p; simpl; [done|].
  destruct (key v =? k) eqn:E.
  - intros [= <-]. split; [lia|]. exists v. rewrite Nat.sub_diag. split; [done|lia].
  - intros H. apply IH in H as [Hle (u & Hu & Hk)]. split; [lia|].
    exists u. split; [|done].
    replace (p - i)%nat with (S (p - S i)) by lia. done.
Qed.

Lemma find_vertex_from_None vs : forall i k,
  find_vertex_from i vs k = None -> forall v, In v vs -> key v <> k.
Proof.
  induction vs as [|v vs IH]; intros i k; simpl; [tauto|].
  destruct (key v =? k) eqn:E; [done|].
  intros H u [<-|Hu]; [lia|]. by eapply IH.
Qed.

Lemma find_vertex_by_key_Some vs k p :
  find_vertex_by_key vs k = Some p -> exists v, vs !! p = Some v /\ key v = k.
Proof.
  intros H. apply find_vertex_from_Some in H as [_ (v & Hv & Hk)].
  rewrite Nat.sub_0_r in Hv. eauto.
Qed.

Lemma find_edge_from_Some es : forall i p1 p2 n,
  find_edge_from i es p1 p2 = Some n ->
  exists e, In e es /\ edge_matches e p1 p2 = true.
Proof.
  induction es as [|e es IH]; intros i p1 p2 n; simpl; [done|].
  destruct (edge_matches e p1 p2) eqn:E.
  - intros _. exists e. auto.
  - intros H. apply IH in H as (e' & Hin & Hm). eauto.
Qed.

Lemma find_edge_from_None es : forall i p1 p2,
  find_edge_from i es p1 p2 = None ->
  forall e, In e es -> edge_matches e p1 p2 = false.
Proof.
  induction es as [|e es IH]; intros i p1 p2; simpl; [tauto|].
  destruct (edge_matches e p1 p2) eqn:E; [done|].
  intros H e' [<-|Hin]; [done|]. by eapply IH.
Qed.

Lemma find_edge_from_is_Some es : forall i p1 p2 e,
  In e es -> edge_matches e p1 p2 = true -> is_Some (find_edge_from i es p1 p2).
Proof.
  intros i p1 p2 e Hin Hm.
  destruct (find_edge_from i es p1 p2) eqn:E; [done|].
  eapply find_edge_from_None in E; [|done]. congruence.
Qed.

(** With distinct keys an address is determined by the key behind it. *)
Lemma distinct_keys_inj (vs : list vertex_t) p q a b :
  NoDup (map key vs) -> vs !! p = Some a -> vs !! q = Some b -> key a = key b -> p = q.
Proof.
  intros Hnd Ha Hb Hk.
  eapply (NoDup_lookup (map key vs)); [done| |].
  - change (map key vs) with (key <$> vs). by rewrite list_lookup_fmap, Ha.
  - change (map key vs) with (key <$> vs). rewrite list_lookup_fmap, Hb. simpl. by rewrite Hk.
Qed.

Lemma inv_empty : inv empty.
Proof. split; simpl; [constructor | intros ? [] | intros ? ? ? ? _ H; done]. Qed.

Lemma vertex_for_spec vs k vs' p :
  to_int k = k -> NoDup (map key vs) -> vertex_for vs k = (vs', p) ->
  NoDup (map key vs') /\ (exists more, vs' = vs ++ more) /\
  (exists v, vs' !! p = Some v /\ key v = k) /\
  (forall v, In v vs -> key v = k -> vs' = vs).
Proof.
  intros Hk Hnd. unfold vertex_for.
  destruct (find_vertex_by_key vs k) as [q|] eqn:E.
  - intros [= <- <-]. split; [done|]. split; [exists []; by rewrite app_nil_r|].
    split; [by apply find_vertex_by_key_Some|done].
  - unfold add_new_vertex. intros [= <- <-].
    pose proof (find_vertex_from_None _ _ _ E) as Hfresh.
    split; [|split; [eauto|split]].
    + rewrite map_app. simpl. apply NoDup_app. split; [done|]. split.
      * intros x Hx Hx'. apply list_elem_of_In, in_map_iff in Hx as (v & <- & Hv).
        apply list_elem_of_In in Hx'. destruct Hx' as [Hx'|[]].
        apply (Hfresh v Hv). simpl in Hx'. congruence.
      * apply NoDup_singleton.
    + eexists. split; [apply list_lookup_middle; done|]. simpl. done.
    + intros v Hv Hkv. by destruct (Hfresh v Hv).
Qed.

Lemma edge_matches_sym e p1 p2 :
  edge_matches {| v1 := p1; v2 := p2 |} (v1 e) (v2 e) = edge_matches e p1 p2.
Proof.
  unfold edge_matches. simpl.
  rewrite (Nat.eqb_sym p1), (Nat.eqb_sym p2), (Nat.eqb_sym p1 (v2 e)), (Nat.eqb_sym p2 (v1 e)).
  destruct (v1 e =? p1)%nat, (v2 e =? p2)%nat, (v1 e =? p2)%nat, (v2 e =? p1)%nat; done.
Qed.

Lemma edge_matches_swap e p1 p2 : edge_matches e p2 p1 = edge_matches e p1 p2.
Proof. unfold edge_matches. apply orb_comm. Qed.

Lemma insert_edge_unfold k1 k2 g :
  insert_edge k1 k2 g =
  let '(vs1, p1) := vertex_for (vertices g) k1 in
  let '(vs2, p2) := vertex_for vs1 k2 in
  match find_edge_by_vertices (edges g) p1 p2 with
  | Some _ => {| vertices := vs2; edges := edges g |}
  | None => {| vertices := vs2; edges := add_new_edge (edges g) p1 p2 |}
  end.
Proof. reflexivity. Qed.

Lemma wf_edges_app vs more es : wf_edges vs es -> wf_edges (vs ++ more) es.
Proof.
  intros H e He. destruct (H e He). rewrite length_app. lia.
Qed.

Lemma insert_edge_inv k1 k2 g :
  to_int k1 = k1 -> to_int k2 = k2 -> inv g -> inv (insert_edge k1 k2 g).
Proof.
  intros Hk1 Hk2 [Hnd Hwf Hed]. rewrite insert_edge_unfold.
  destruct (vertex_for (vertices g) k1) as [vs1 p1] eqn:E1.
  destruct (vertex_for vs1 k2) as [vs2 p2] eqn:E2.
  destruct (vertex_for_spec _ _ _ _ Hk1 Hnd E1) as (Hnd1 & [m1 ->] & (a & Ha & _) & _).
  destruct (vertex_for_spec _ _ _ _ Hk2 Hnd1 E2) as (Hnd2 & [m2 ->] & (b & Hb & _) & _).
  assert (Hwf2 : wf_edges ((vertices g ++ m1) ++ m2) (edges g))
    by (by do 2 apply wf_edges_app).
  destruct (find_edge_by_vertices (edges g) p1 p2) eqn:F; split; simpl; try done.
  - intros e He. unfold add_new_edge in He. apply in_app_iff in He as [He|[<-|[]]].
    + by apply Hwf2.
    + simpl. apply lookup_lt_Some in Hb.
      assert ((vertices g ++ m1) !! p1 = Some a) as Ha' by done.
      apply (lookup_app_l_Some _ m2) in Ha'. apply lookup_lt_Some in Ha'. done.
  - pose proof (find_edge_from_None _ _ _ _ F) as Hnone.
    unfold add_new_edge. intros i j ei ej Hij Hi Hj.
    apply lookup_app_Some in Hi as [Hi|[Hil Hi]];
      apply lookup_app_Some in Hj as [Hj|[Hjl Hj]].
    + by eapply Hed.
    + apply list_lookup_singleton_Some in Hj as [_ <-]. simpl.
      apply Hnone. eapply list_elem_of_lookup_2 in Hi. by apply list_elem_of_In.
    + apply list_lookup_singleton_Some in Hi as [_ <-].
      rewrite edge_matches_sym. apply Hnone.
      eapply list_elem_of_lookup_2 in Hj. by apply list_elem_of_In.
    + apply list_lookup_singleton_Some in Hi as [Hi _].
      apply list_lookup_singleton_Some in Hj as [Hj _]. lia.
Qed.

Lemma parse_keys_int arg k1 k2 :
  parse_keys arg = Some (k1, k2) -> to_int k1 = k1 /\ to_int k2 = k2.
Proof.
  unfold parse_keys.
  destruct (strtok_all [] (list_ascii_of_string arg)) as [|t1 [|t2 [|t3 ts]]]; try done.
  destruct (strtol t1) as [n1 r1], (strtol t2) as [n2 r2].
  destruct (_ || _); [done|].
  intros [= <- <-]. by rewrite !to_int_idem.
Qed.

Lemma parse_arg_inv arg g g' : parse_arg arg g = Some g' -> inv g -> inv g'.
Proof.
  unfold parse_arg. destruct (parse_keys arg) as [[k1 k2]|] eqn:E; [|done].
  intros [= <-] Hg. apply parse_keys_int in E as [? ?]. by apply insert_edge_inv.
Qed.

Lemma parse_from_inv args : forall g g', parse_from args g = Some g' -> inv g -> inv g'.
Proof.
  induction args as [|a args IH]; intros g g'; simpl.
  - by intros [= <-].
  - destruct (parse_arg a g) as [g1|] eqn:E; [|done].
    intros H Hg. eapply IH; [done|]. by eapply parse_arg_inv.
Qed.

Lemma parse_argv_inv args g : parse_argv args = Some g -> inv g.
Proof. intros H. eapply parse_from_inv; [done|apply inv_empty]. Qed.

Lemma vertex_for_present vs k :
  has_key vs k -> exists p v, vertex_for vs k = (vs, p) /\ vs !! p = Some v /\ key v = k.
Proof.
  intros (u & Hu & Hk). unfold vertex_for.
  destruct (find_vertex_by_key vs k) as [p|] eqn:E.
  - apply find_vertex_by_key_Some in E as (v & Hv & Hkv). eauto.
  - by destruct (find_vertex_from_None _ _ _ E u Hu).
Qed.

Lemma edge_keys_Some vs e k1 k2 :
  edge_keys vs e = Some (k1, k2) ->
  exists a b, vs !! v1 e = Some a /\ vs !! v2 e = Some b /\ key a = k1 /\ key b = k2.
Proof.
  unfold edge_keys. destruct (vs !! v1 e) as [a|]; [|done].
  destruct (vs !! v2 e) as [b|]; [|done]. intros [= <- <-]. eauto 10.
Qed.

Lemma edge_matches_self e : edge_matches e (v1 e) (v2 e) = true.
Proof. unfold edge_matches. by rewrite !Nat.eqb_refl. Qed.

Lemma inv_distinct_edges g : inv g -> distinct_edges (vertices g) (edges g).
Proof.
  intros [Hnd Hwf Hed] i j ei ej Hij Hi Hj.
  pose proof (Hed i j ei ej Hij Hi Hj) as Hm.
  destruct (Hwf ei) as [Hi1 Hi2];
    [eapply list_elem_of_In, list_elem_of_lookup_2; done|].
  destruct (Hwf ej) as [Hj1 Hj2];
    [eapply list_elem_of_In, list_elem_of_lookup_2; done|].
  apply lookup_lt_is_Some in Hi1 as [a1 Ha1]. apply lookup_lt_is_Some in Hi2 as [a2 Ha2].
  apply lookup_lt_is_Some in Hj1 as [b1 Hb1]. apply lookup_lt_is_Some in Hj2 as [b2 Hb2].
  exists (key a1, key a2), (key b1, key b2). unfold edge_keys.
  rewrite Ha1, Ha2, Hb1, Hb2. split; [done|]. split; [done|].
  intros [[= H1 H2]|[= H1 H2]].
  - assert (v1 ei = v1 ej) as E1 by (by eapply distinct_keys_inj).
    assert (v2 ei = v2 ej) as E2 by (by eapply distinct_keys_inj).
    rewrite <- E1, <- E2, edge_matches_self in Hm. done.
  - assert (v1 ei = v2 ej) as E1 by (by eapply distinct_keys_inj).
    assert (v2 ei = v1 ej) as E2 by (by eapply distinct_keys_inj).
    rewrite edge_matches_swap, <- E1, <- E2, edge_matches_self in Hm. done.
Qed.

Lemma insert_edge_same_vertices k1 k2 g :
  has_key (vertices g) k1 -> has_key (vertices g) k2 ->
  vertices (insert_edge k1 k2 g) = vertices g.
Proof.
  intros H1 H2. rewrite insert_edge_unfold.
  apply vertex_for_present in H1 as (p1 & a & -> & _).
  apply vertex_for_present in H2 as (p2 & b & -> & _).
  by destruct (find_edge_by_vertices _ _ _).
Qed.

Lemma insert_edge_joined k1 k2 g : inv g -> joins g k1 k2 -> insert_edge k1 k2 g = g.
Proof.
  intros [Hnd Hwf Hed] (e & He & Hk). rewrite insert_edge_unfold.
  assert (exists a b, vertices g !! v1 e = Some a /\ vertices g !! v2 e = Some b /\
            ((key a = k1 /\ key b = k2) \/ (key a = k2 /\ key b = k1)))
    as (a & b & Ha & Hb & Hab).
  { destruct Hk as [Hk|Hk]; apply edge_keys_Some in Hk as (a & b & ? & ? & ? & ?);
      exists a, b; auto. }
  assert (has_key (vertices g) k1) as H1.
  { destruct Hab as [[<- _]|[_ <-]]; eexists; split; try done;
      eapply list_elem_of_In, list_elem_of_lookup_2; done. }
  assert (has_key (vertices g) k2) as H2.
  { destruct Hab as [[_ <-]|[<- _]]; eexists; split; try done;
      eapply list_elem_of_In, list_elem_of_lookup_2; done. }
  apply vertex_for_present in H1 as (p1 & u1 & -> & Hu1 & Hku1).
  apply vertex_for_present in H2 as (p2 & u2 & -> & Hu2 & Hku2).
  assert (edge_matches e p1 p2 = true) as Hm.
  { destruct Hab as [[E1 E2]|[E1 E2]].
    - assert (v1 e = p1) as <- by (eapply distinct_keys_inj; [done..|congruence]).
      assert (v2 e = p2) as <- by (eapply distinct_keys_inj; [done..|congruence]).
      apply edge_matches_self.
    - assert (v1 e = p2) as <- by (eapply distinct_keys_inj; [done..|congruence]).
      assert (v2 e = p1) as <- by (eapply distinct_keys_inj; [done..|congruence]).
      rewrite edge_matches_swap. apply edge_matches_self. }
  destruct (find_edge_from_is_Some (edges g) 0 p1 p2 e He Hm) as [n Hn].
  unfold find_edge_by_vertices. rewrite Hn. by destruct g.
Qed.

Example parse_triangle :
  Graph.parse_argv ["0-1"; "1-2"; "2-0"; "1-0"]%string =
  Some {| Graph.vertices := [ {| key := 0; color := 0 |}; {| key := 1; color := 0 |};
                              {| key := 2; color := 0 |} ];
          Graph.edges := [ {| v1 := 0; v2 := 1 |}; {| v1 := 1; v2 := 2 |};
                           {| v1 := 2; v2 := 0 |} ] |}.
Proof. reflexivity. Qed.

End GraphFacts.

(** ** The search *)

Module SearchFacts.

Lemma same_color_lookup vs e a b :
  vs !! v1 e = Some a -> vs !! v2 e = Some b -> same_color vs e = (color a =? color b).
Proof. intros Ha Hb. unfold same_color. by rewrite Ha, Hb. Qed.

(** The count never passes the bound of the loop, whatever the arrays hold. *)
Lemma candidates_from_length vs es : forall rc rc',
  (List.length rc <= MAXIMUM_SOLUTION_LENGTH)%nat ->
  set_removal_candidates_from vs es rc = Some rc' ->
  (List.length rc' <= MAXIMUM_SOLUTION_LENGTH)%nat.
Proof.
  induction es as [|e es IH]; intros rc rc' Hrc; simpl.
  - by intros [= <-].
  - destruct (List.length rc <? MAXIMUM_SOLUTION_LENGTH)%nat eqn:Hlt.
    + apply Nat.ltb_lt in Hlt.
      destruct (vs !! v1 e) as [a|]; [|done]. destruct (vs !! v2 e) as [b|]; [|done].
      destruct (color a =? color b); apply IH; [|done].
      rewrite length_app. simpl. lia.
    + by intros [= <-].
Qed.

(** On a graph whose edges point into [vertices] the loop returns, and what
    it leaves in the array is the conflict set cut off at the bound. *)
Lemma candidates_from_spec vs es : forall rc,
  wf_edges vs es ->
  (List.length rc <= MAXIMUM_SOLUTION_LENGTH)%nat ->
  set_removal_candidates_from vs es rc =
  Some (take MAXIMUM_SOLUTION_LENGTH (rc ++ conflict_set vs es)).
Proof.
  induction es as [|e es IH]; intros rc Hwf Hrc; simpl.
  - rewrite app_nil_r, take_ge; [done|lia].
  - assert (wf_edges vs es) as Hwf' by (intros x Hx; apply Hwf; by right).
    destruct (Hwf e) as [H1 H2]; [by left|].
    apply lookup_lt_is_Some in H1 as [a Ha]. apply lookup_lt_is_Some in H2 as [b Hb].
    rewrite (same_color_lookup _ _ _ _ Ha Hb), Ha, Hb.
    destruct (List.length rc <? MAXIMUM_SOLUTION_LENGTH)%nat eqn:Hlt.
    + apply Nat.ltb_lt in Hlt. destruct (color a =? color b).
      * rewrite IH; [|done|rewrite length_app; simpl; lia].
        by rewrite <- app_assoc.
      * by apply IH.
    + apply Nat.ltb_ge in Hlt. by rewrite take_app_le, take_ge by lia.
Qed.

Lemma set_removal_candidates_spec vs es :
  wf_edges vs es ->
  set_removal_candidates vs es = Some (take MAXIMUM_SOLUTION_LENGTH (conflict_set vs es)).
Proof.
  intros Hwf. unfold set_removal_candidates. rewrite candidates_from_spec; [done..|].
  unfold MAXIMUM_SOLUTION_LENGTH. simpl. lia.
Qed.

Lemma set_removal_candidates_length vs es rc :
  set_removal_candidates vs es = Some rc ->
  (List.length rc <= MAXIMUM_SOLUTION_LENGTH)%nat.
Proof.
  apply candidates_from_length. unfold MAXIMUM_SOLUTION_LENGTH. simpl. lia.
Qed.

Lemma conflict_set_nil vs es : conflict_set vs es = [] <-> valid_coloring vs es.
Proof.
  unfold conflict_set, valid_coloring. induction es as [|e es IH]; simpl.
  - split; [intros _ ? []|done].
  - destruct (same_color vs e) eqn:E.
    + split; [done|]. intros H. specialize (H e (or_introl eq_refl)). congruence.
    + rewrite IH. split.
      * intros H x [<-|Hx]; auto.
      * intros H x Hx. apply H. by right.
Qed.

(** randomize keeps the keys and the number of vertices. *)
Lemma randomize_length r vs : forall n, List.length (randomize r n vs) = List.length vs.
Proof. induction vs as [|v vs IH]; intros n; simpl; [done|]. by rewrite IH. Qed.

Lemma randomize_keys r vs : forall n, map key (randomize r n vs) = map key vs.
Proof. induction vs as [|v vs IH]; intros n; simpl; [done|]. by rewrite IH. Qed.

Lemma wf_edges_randomize r n vs es : wf_edges vs es -> wf_edges (randomize r n vs) es.
Proof. intros H e He. rewrite randomize_length. by apply H. Qed.

(** The copy loop keeps the length field and returns when the candidates
    fit the two arrays and point into [vertices]. *)
Lemma write_pairs_length vs rc : forall i e e',
  write_pairs vs rc i e = Some e' -> length e' = length e.
Proof.
  induction rc as [|c rc IH]; intros i e e'; simpl.
  - by intros [= <-].
  - destruct (i <? MAXIMUM_SOLUTION_LENGTH)%nat; [|done].
    destruct (vs !! v1 c); [|done]. destruct (vs !! v2 c); [|done].
    intros H. by apply IH in H.
Qed.

Lemma write_pairs_is_Some vs rc : forall i e,
  wf_edges vs rc -> (i + List.length rc <= MAXIMUM_SOLUTION_LENGTH)%nat ->
  is_Some (write_pairs vs rc i e).
Proof.
  induction rc as [|c rc IH]; intros i e Hwf Hlen; simpl in *; [done|].
  destruct (i <? MAXIMUM_SOLUTION_LENGTH)%nat eqn:Hlt; [|apply Nat.ltb_ge in Hlt; lia].
  destruct (Hwf c) as [H1 H2]; [by left|].
  apply lookup_lt_is_Some in H1 as [a ->]. apply lookup_lt_is_Some in H2 as [b ->].
  apply IH; [|lia]. intros x Hx. apply Hwf. by right.
Qed.

Lemma write_pairs_arrays vs rc : forall i e e',
  write_pairs vs rc i e = Some e' ->
  List.length (from_vertices e') = List.length (from_vertices e) /\
  List.length (to_vertices e') = List.length (to_vertices e).
Proof.
  induction rc as [|c rc IH]; intros i e e'; simpl.
  - by intros [= <-].
  - destruct (i <? MAXIMUM_SOLUTION_LENGTH)%nat; [|done].
    destruct (vs !! v1 c); [|done]. destruct (vs !! v2 c); [|done].
    intros H. apply IH in H as [-> ->]. simpl. by rewrite !length_insert.
Qed.

Lemma write_entry_arrays vs rc old e :
  write_entry vs rc old = Some e ->
  List.length (from_vertices e) = List.length (from_vertices old) /\
  List.length (to_vertices e) = List.length (to_vertices old).
Proof. unfold write_entry. intros H. by apply write_pairs_arrays in H. Qed.

Lemma write_entry_length vs rc old e :
  write_entry vs rc old = Some e -> length e = Z.of_nat (List.length rc).
Proof. unfold write_entry. intros H. by apply write_pairs_length in H. Qed.

(** What the copy loop leaves in the two arrays. *)
Lemma write_pairs_lookup vs rc : forall i e e',
  write_pairs vs rc i e = Some e' ->
  (i + List.length rc <= List.length (from_vertices e))%nat ->
  (i + List.length rc <= List.length (to_vertices e))%nat ->
  (forall j, (j < i)%nat ->
     from_vertices e' !! j = from_vertices e !! j /\
     to_vertices e' !! j = to_vertices e !! j) /\
  (forall j c, rc !! j = Some c ->
     exists a b, vs !! v1 c = Some a /\ vs !! v2 c = Some b /\
       from_vertices e' !! (i + j)%nat = Some (key a) /\
       to_vertices e' !! (i + j)%nat = Some (key b)).
Proof.
  induction rc as [|c rc IH]; intros i e e'; simpl.
  - intros [= <-] _ _. split; [done|]. intros j c Hc. done.
  - destruct (i <? MAXIMUM_SOLUTION_LENGTH)%nat; [|done].
    destruct (vs !! v1 c) as [a|] eqn:Ha; [|done].
    destruct (vs !! v2 c) as [b|] eqn:Hb; [|done].
    intros H Hf Ht. apply IH in H as [Hlow Hnew]; simpl; rewrite ?length_insert; [|lia..].
    simpl in Hlow. split.
    + intros j Hj. destruct (Hlow j) as [-> ->]; [lia|].
      rewrite !list_lookup_insert_ne by lia. done.
    + intros [|j] c' Hc'.
      * injection Hc' as <-. exists a, b. rewrite Nat.add_0_r.
        destruct (Hlow i) as [-> ->]; [lia|].
        rewrite !list_lookup_insert_eq by lia. done.
      * simpl in Hc'. destruct (Hnew j c' Hc') as (a' & b' & ? & ? & ? & ?).
        exists a', b'. replace (i + S j)%nat with (S i + j)%nat by lia. done.
Qed.

(** The pairs of the entry are the key pairs of the candidates, in order. *)
Lemma write_entry_pairs vs rc old e :
  write_entry vs rc old = Some e ->
  (List.length rc <= List.length (from_vertices old))%nat ->
  (List.length rc <= List.length (to_vertices old))%nat ->
  map Some (entry_pairs e) = map (edge_keys vs) rc.
Proof.
  intros He Hf Ht.
  pose proof (write_entry_length _ _ _ _ He) as Hlen.
  destruct (write_entry_arrays _ _ _ _ He) as [Hfl Htl].
  unfold write_entry in He. apply write_pairs_lookup in He as [_ Hnew]; simpl; [|lia..].
  unfold entry_pairs. rewrite Hlen, Nat2Z.id.
  change (map Some) with (fmap (M:=list) (@Some (Z * Z))).
  change (map (edge_keys vs) rc) with (edge_keys vs <$> rc).
  apply list_eq. intros j. rewrite !list_lookup_fmap.
  destruct (rc !! j) as [c|] eqn:Hc.
  - destruct (Hnew j c Hc) as (a & b & Ha & Hb & Hfa & Htb). simpl in Hfa, Htb.
    rewrite lookup_take_lt by (by eapply lookup_lt_Some).
    assert (zip (from_vertices e) (to_vertices e) !! j = Some (key a, key b)) as ->
      by (by apply lookup_zip_Some).
    simpl.
    unfold edge_keys. by rewrite Ha, Hb.
  - apply lookup_ge_None in Hc. rewrite lookup_take_ge by done. done.
Qed.

(** One attempt on a graph whose edges point into [vertices]: the entry
    is the conflict set cut off at MAXIMUM_SOLUTION_LENGTH, by key, and its
    length is 0 exactly for a valid coloring. *)
Lemma attempt_entry vs es old :
  wf_edges vs es -> entry_ok old ->
  exists rc e,
    set_removal_candidates vs es = Some rc /\
    rc = take MAXIMUM_SOLUTION_LENGTH (conflict_set vs es) /\
    write_entry vs rc old = Some e /\
    length e = Z.of_nat (Nat.min MAXIMUM_SOLUTION_LENGTH (List.length (conflict_set vs es))) /\
    map Some (entry_pairs e) = map (edge_keys vs) rc /\
    (length e = 0 <-> valid_coloring vs es).
Proof.
  intros Hwf (_ & Hfrom & Hto).
  pose proof (set_removal_candidates_spec _ _ Hwf) as Hrc.
  set (rc := take MAXIMUM_SOLUTION_LENGTH (conflict_set vs es)) in *.
  assert (List.length rc = Nat.min MAXIMUM_SOLUTION_LENGTH (List.length (conflict_set vs es)))
    as Hlen by apply length_take.
  assert (wf_edges vs rc) as Hwrc.
  { intros x Hx. apply Hwf. apply list_elem_of_In in Hx.
    apply elem_of_take in Hx as (i & Hx & _).
    apply list_elem_of_lookup_2, list_elem_of_In in Hx.
    unfold conflict_set in Hx. by apply filter_In in Hx as [? _]. }
  destruct (write_pairs_is_Some vs rc 0
              {| length := Z.of_nat (List.length rc);
                 from_vertices := from_vertices old;
                 to_vertices := to_vertices old |} Hwrc) as [e He]; [lia|].
  exists rc, e. split; [done|]. split; [done|]. split; [done|].
  pose proof (write_entry_length _ _ _ _ He) as Hel.
  split; [by rewrite Hel, Hlen|].
  split; [apply (write_entry_pairs _ _ old); [done|lia..]|].
  rewrite Hel, <- conflict_set_nil.
  destruct (conflict_set vs es) as [|c cs] eqn:Hcs; [done|].
  rewrite Hlen. unfold MAXIMUM_SOLUTION_LENGTH. simpl. split; [lia|done].
Qed.

End SearchFacts.

(** ** The shared state along every run *)

Module SystemFacts.

Lemma run_invariant (P : system -> Prop) :
  (forall l s s', P s -> sys_step l s = Ok s' -> P s') ->
  forall ls s s', P s -> run ls s = Ok s' -> P s'.
Proof.
  intros Hstep. induction ls as [|l ls IH]; intros s s' Hs; simpl.
  - by intros [= <-].
  - destruct (sys_step l s) as [s1| |] eqn:E; [|done..].
    apply IH. by eapply Hstep.
Qed.

Lemma run_app ls1 : forall ls2 s s1,
  run ls1 s = Ok s1 -> run (ls1 ++ ls2) s = run ls2 s1.
Proof.
  induction ls1 as [|l ls1 IH]; intros ls2 s s1; simpl.
  - by intros [= <-].
  - destruct (sys_step l s); [|done..]. apply IH.
Qed.

Lemma to_int_small z : - 2 ^ 31 <= z < 2 ^ 31 -> to_int z = z.
Proof. intros H. unfold to_int. rewrite Z.mod_small; lia. Qed.

Lemma next_index_mod i : index_ok i -> next_index i = (i + 1) mod NUMBER_OF_ENTRIES.
Proof.
  unfold index_ok, next_index, NUMBER_OF_ENTRIES. intros H.
  rewrite to_int_small by lia. apply Z.rem_mod_nonneg; lia.
Qed.

Lemma next_index_ok i : index_ok i -> index_ok (next_index i).
Proof.
  intros H. rewrite next_index_mod by done. unfold index_ok, NUMBER_OF_ENTRIES in *.
  apply Z.mod_pos_bound. lia.
Qed.

Lemma slot_Some i k : slot i = Some k -> index_ok i /\ k = Z.to_nat i.
Proof.
  unfold slot, index_ok. destruct (0 <=? i) eqn:E1; [|done].
  destruct (i <? NUMBER_OF_ENTRIES) eqn:E2; [|done]. simpl. intros [= <-]. lia.
Qed.

Lemma slot_ok i : index_ok i -> slot i = Some (Z.to_nat i).
Proof.
  unfold slot, index_ok. intros [H1 H2].
  apply Z.leb_le in H1. apply Z.ltb_lt in H2. by rewrite H1, H2.
Qed.

Lemma world_ok_init : world_ok world_init.
Proof.
  unfold world_ok, world_init, index_ok. cbn [cb entries rd wr].
  split; [apply repeat_length|]. split; [|unfold NUMBER_OF_ENTRIES; lia].
  apply List.Forall_forall. intros e He. apply repeat_spec in He as ->.
  unfold entry_ok, zero_entry, MAXIMUM_SOLUTION_LENGTH.
  cbn [length from_vertices to_vertices]. rewrite repeat_length. lia.
Qed.

Lemma cb_sem_set w s n : cb (sem_set w s n) = cb w.
Proof. by destruct s. Qed.

Lemma cb_sem_post w s : cb (sem_post w s) = cb w.
Proof. apply cb_sem_set. Qed.

Lemma sem_wait_cb r w s w' : sem_wait r w s = Ok w' -> cb w' = cb w.
Proof.
  destruct r; simpl; [|by intros [= <-]..].
  destruct (sem_value w s); [done|]. intros [= <-]. apply cb_sem_set.
Qed.

Lemma world_ok_cb w w' : cb w' = cb w -> world_ok w -> world_ok w'.
Proof. unfold world_ok. by intros ->. Qed.

(** What a generator step does to the circular buffer. *)
Lemma generator_body_world g w g' w' :
  Generator.body g w = Ok (g', w') -> world_ok w -> world_ok w'.
Proof.
  unfold Generator.body.
  destruct (set_removal_candidates _ _) as [rc|] eqn:Hrc; [|done].
  destruct (_ <? _)%nat; [by intros [= _ <-]|].
  destruct (slot _) as [k|] eqn:Hk; [|done].
  destruct (_ !! k) as [old|] eqn:Hold; [|done].
  destruct (write_entry _ _ _) as [e|] eqn:He; [|done].
  intros [= _ <-] (Hlen & Hall & Hrd & Hwr).
  unfold world_ok. rewrite ?cb_sem_post. cbn [cb entries rd wr].
  rewrite length_insert. split; [done|]. split; [|split; [done|by apply next_index_ok]].
  apply Forall_insert; [done|].
  eapply Forall_lookup_1 in Hall; [|exact Hold]. destruct Hall as (_ & Hfrom & Hto).
  destruct (SearchFacts.write_entry_arrays _ _ _ _ He) as [Hfrom' Hto'].
  apply SearchFacts.write_entry_length in He.
  apply SearchFacts.set_removal_candidates_length in Hrc.
  unfold entry_ok. lia.
Qed.

Lemma generator_step_world i g w g' w' :
  Generator.main_step i g w = Ok (g', w') -> world_ok w -> world_ok w'.
Proof.
  unfold Generator.main_step. destruct (Generator.at_pc g).
  - destruct (Generator.args g); [by intros [= _ <-]|].
    destruct (Graph.parse_argv _); [|by intros [= _ <-]].
    repeat (destruct (negb _); [by intros [= _ <-]|]). by intros [= _ <-].
  - destruct (_ && _); by intros [= _ <-].
  - destruct (in_wait i); [|by intros [= _ <-]..].
    destruct (sem_wait _ _ _) as [w1| |] eqn:E; [|done..].
    intros [= _ <-]. apply world_ok_cb. by eapply sem_wait_cb.
  - destruct (in_wait i); [|by intros [= _ <-]..].
    destruct (sem_wait _ _ _) as [w1| |] eqn:E; [|done..].
    intros [= _ <-]. apply world_ok_cb. by eapply sem_wait_cb.
  - apply generator_body_world.
  - by intros [= _ <-].
  - done.
Qed.

Lemma supervisor_body_world s w s' w' :
  Supervisor.body s w = Ok (s', w') -> world_ok w -> world_ok w'.
Proof.
  unfold Supervisor.body.
  destruct (slot _) as [k0|]; [|done]. destruct (_ !! k0) as [e0|]; [|done].
  destruct (length e0 =? 0).
  - intros [= _ <-]. by apply world_ok_cb.
  - destruct (slot _) as [k|]; [|done]. destruct (_ !! k) as [e|]; [|done].
    destruct (_ >=? _); intros [= _ <-] (Hlen & Hall & Hrd & Hwr);
      unfold world_ok; rewrite ?cb_sem_post; cbn [cb entries rd wr];
      (split; [done|]; split; [done|]; split; [by apply next_index_ok|done]).
Qed.

Lemma supervisor_step_world i s w s' w' :
  Supervisor.main_step i s w = Ok (s', w') -> world_ok w -> world_ok w'.
Proof.
  unfold Supervisor.main_step. destruct (Supervisor.at_pc s).
  - destruct (Supervisor.args s); [|by intros [= _ <-]].
    repeat (destruct (negb _); [by intros [= _ <-]|]). by intros [= _ <-].
  - destruct (negb _); by intros [= _ <-].
  - destruct (in_wait i); [|by intros [= _ <-]..].
    destruct (sem_wait _ _ _) as [w1| |] eqn:E; [|done..].
    intros H Hw. eapply supervisor_body_world; [done|].
    eapply world_ok_cb; [|done]. by eapply sem_wait_cb.
  - by intros [= _ <-].
  - by intros [= _ <-].
  - done.
Qed.

Lemma sys_step_world l s s' : world_ok (shm s) -> sys_step l s = Ok s' -> world_ok (shm s').
Proof.
  intros Hw. destruct l as [i|n i| |n]; simpl.
  - destruct (Supervisor.main_step _ _ _) as [[s1 w1]| |] eqn:E; [|done..].
    intros [= <-]. simpl. by eapply supervisor_step_world.
  - destruct (gens s !! n) as [g|]; [|done].
    destruct (Generator.main_step _ _ _) as [[g1 w1]| |] eqn:E; [|done..].
    intros [= <-]. simpl. by eapply generator_step_world.
  - destruct (Supervisor.signal_step _); [|done..]. by intros [= <-].
  - destruct (gens s !! n) as [g|]; [|done].
    destruct (Generator.signal_step _); [|done..]. by intros [= <-].
Qed.

Lemma reachable_world_ok s : reachable s -> world_ok (shm s).
Proof.
  intros (a & st & gs & ls & Hrun).
  eapply (run_invariant (fun s => world_ok (shm s))); [| |exact Hrun].
  - intros l s0 s1 Hs Hstep. by eapply sys_step_world.
  - apply world_ok_init.
Qed.

End SystemFacts.

(** ** The supervisor's read position along every run *)

Module ReadFacts.
Import SystemFacts.

Lemma cyclic_from_S r n :
  cyclic_from r (S n) = r mod NUMBER_OF_ENTRIES :: cyclic_from (r + 1) n.
Proof.
  unfold cyclic_from. simpl. rewrite Z.add_0_r. f_equal.
  rewrite <- seq_shift, map_map. apply map_ext. intros k. f_equal. lia.
Qed.

Lemma cyclic_from_mod r n : cyclic_from (r mod NUMBER_OF_ENTRIES) n = cyclic_from r n.
Proof.
  unfold cyclic_from. apply map_ext. intros k.
  apply Zplus_mod_idemp_l.
Qed.

Lemma generator_step_rd i g w g' w' :
  Generator.main_step i g w = Ok (g', w') -> rd (cb w') = rd (cb w).
Proof.
  unfold Generator.main_step. destruct (Generator.at_pc g).
  - destruct (Generator.args g); [by intros [= _ <-]|].
    destruct (Graph.parse_argv _); [|by intros [= _ <-]].
    repeat (destruct (negb _); [by intros [= _ <-]|]). by intros [= _ <-].
  - destruct (_ && _); by intros [= _ <-].
  - destruct (in_wait i); [|by intros [= _ <-]..].
    destruct (sem_wait _ _ _) as [w1| |] eqn:E; [|done..].
    intros [= _ <-]. f_equal. by eapply sem_wait_cb.
  - destruct (in_wait i); [|by intros [= _ <-]..].
    destruct (sem_wait _ _ _) as [w1| |] eqn:E; [|done..].
    intros [= _ <-]. f_equal. by eapply sem_wait_cb.
  - unfold Generator.body.
    destruct (set_removal_candidates _ _) as [rc|]; [|done].
    destruct (_ <? _)%nat; [by intros [= _ <-]|].
    destruct (slot _) as [k|]; [|done]. destruct (_ !! k) as [old|]; [|done].
    destruct (write_entry _ _ _) as [e|]; [|done]. by intros [= _ <-].
  - by intros [= _ <-].
  - done.
Qed.

(** A supervisor step that is no consume leaves [rd] alone and does not
    lead back into the loop. *)
Lemma supervisor_idle_step i s w s' w' :
  Supervisor.main_step i s w = Ok (s', w') ->
  match Supervisor.at_pc s, in_wait i with
  | Supervisor.At_wait_used, Acquired => False
  | _, _ => True
  end ->
  rd (cb w') = rd (cb w) /\
  (past_loop (Supervisor.at_pc s) = true -> past_loop (Supervisor.at_pc s') = true).
Proof.
  unfold Supervisor.main_step. destruct (Supervisor.at_pc s).
  - destruct (Supervisor.args s); [|by intros [= <- <-]].
    repeat (destruct (negb _); [by intros [= <- <-]|]). by intros [= <- <-].
  - destruct (negb _); by intros [= <- <-].
  - destruct (in_wait i); [done|by intros [= <- <-]..].
  - by intros [= <- <-].
  - by intros [= <- <-].
  - done.
Qed.

(** What one consume does. *)
Lemma supervisor_consume i s w s' w' :
  Supervisor.at_pc s = Supervisor.At_wait_used -> in_wait i = Acquired ->
  world_ok w ->
  Supervisor.main_step i s w = Ok (s', w') ->
  exists e, entries (cb w) !! Z.to_nat (rd (cb w)) = Some e /\
    free_sem w' = S (free_sem w) /\ S (used_sem w') = used_sem w /\
    write_sem w' = write_sem w /\ entries (cb w') = entries (cb w) /\
    if length e =? 0
    then rd (cb w') = rd (cb w) /\
         s' = Supervisor.goto Supervisor.At_after_loop
                (Supervisor.emit [Ev_print Msg_3_colorable] s)
    else rd (cb w') = (rd (cb w) + 1) mod NUMBER_OF_ENTRIES /\
         Supervisor.at_pc s' = Supervisor.At_loop_top /\
         Supervisor.current_best s' =
           (if length e >=? length (Supervisor.current_best s)
            then Supervisor.current_best s else e).
Proof.
  intros Hpc Hin (Hlen & Hall & Hrd & Hwr). unfold Supervisor.main_step.
  rewrite Hpc, Hin. simpl. destruct (used_sem w) as [|u] eqn:Hu; [done|].
  unfold Supervisor.body. cbn [cb sem_set entries rd].
  assert (Z.rem (rd (cb w)) NUMBER_OF_ENTRIES = rd (cb w)) as ->.
  { unfold index_ok, NUMBER_OF_ENTRIES in *. rewrite Z.rem_mod_nonneg by lia.
    apply Z.mod_small. lia. }
  rewrite (slot_ok _ Hrd).
  destruct (entries (cb w) !! Z.to_nat (rd (cb w))) as [e|] eqn:He; [|done].
  exists e. split; [done|].
  rewrite <- (next_index_mod _ Hrd).
  match goal with H : _ = Ok _ |- _ => revert H end.
  destruct (length e =? 0).
  - intros [= <- <-]. done.
  - destruct (length e >=? length (Supervisor.current_best s)); intros [= <- <-]; done.
Qed.

Lemma sys_step_idle l s s' :
  consumes l s = false -> sys_step l s = Ok s' ->
  rd (cb (shm s')) = rd (cb (shm s)) /\
  (past_loop (Supervisor.at_pc (sup s)) = true ->
   past_loop (Supervisor.at_pc (sup s')) = true).
Proof.
  destruct l as [i|n i| |n]; simpl; intros Hc.
  - destruct (Supervisor.main_step _ _ _) as [[s1 w1]| |] eqn:E; [|done..].
    intros [= <-]. simpl. eapply supervisor_idle_step; [done|].
    destruct (Supervisor.at_pc (sup s)); try done. by destruct (in_wait i).
  - destruct (gens s !! n) as [g|]; [|done].
    destruct (Generator.main_step _ _ _) as [[g1 w1]| |] eqn:E; [|done..].
    intros [= <-]. simpl. split; [by eapply generator_step_rd|done].
  - unfold Supervisor.signal_step.
    destruct (Supervisor.at_pc (sup s)) eqn:Hpc; try done; intros [= <-]; simpl;
      by rewrite Hpc.
  - destruct (gens s !! n) as [g|]; [|done].
    destruct (Generator.signal_step _); [|done..]. by intros [= <-].
Qed.

Lemma consumes_inv l s :
  consumes l s = true ->
  exists i, l = L_sup i /\ Supervisor.at_pc (sup s) = Supervisor.At_wait_used /\
            in_wait i = Acquired.
Proof.
  destruct l as [i| | |]; try done. simpl.
  destruct (Supervisor.at_pc (sup s)) eqn:Hpc; try done.
  destruct (in_wait i) eqn:Hin; try done. eauto.
Qed.

Lemma sys_step_sup i s s' :
  sys_step (L_sup i) s = Ok s' ->
  Supervisor.main_step i (sup s) (shm s) = Ok (sup s', shm s') /\ gens s' = gens s.
Proof.
  simpl. destruct (Supervisor.main_step _ _ _) as [[s1 w1]| |]; [|done..].
  by intros [= <-].
Qed.

(** From any state with a sound buffer the reads go round the buffer, and
    once the supervisor is past its loop there are none. *)
Lemma read_indices_cyclic ls : forall s,
  world_ok (shm s) ->
  read_indices ls s = cyclic_from (rd (cb (shm s))) (List.length (read_indices ls s)) /\
  (past_loop (Supervisor.at_pc (sup s)) = true -> read_indices ls s = []).
Proof.
  induction ls as [|l ls IH]; intros s Hw; simpl; [done|].
  destruct (sys_step l s) as [s1| |] eqn:Hstep; [|done..].
  pose proof (sys_step_world _ _ _ Hw Hstep) as Hw1.
  destruct (IH s1 Hw1) as [IH1 IH2].
  destruct (consumes l s) eqn:Hc.
  - destruct (consumes_inv _ _ Hc) as (i & -> & Hpc & Hin).
    destruct (sys_step_sup _ _ _ Hstep) as [Hm _].
    destruct (supervisor_consume _ _ _ _ _ Hpc Hin Hw Hm)
      as (e & _ & _ & _ & _ & _ & Hcase).
    rewrite Hpc. split; [|done]. simpl.
    destruct Hw as (_ & _ & Hrd & _).
    destruct (length e =? 0).
    + destruct Hcase as [_ Hs1]. rewrite IH2 by (by rewrite Hs1). simpl.
      unfold cyclic_from. simpl. rewrite Z.add_0_r, Z.mod_small; done.
    + destruct Hcase as [Hrd1 _]. rewrite cyclic_from_S, Z.mod_small by done.
      f_equal. rewrite IH1 at 1. by rewrite Hrd1, cyclic_from_mod.
  - destruct (sys_step_idle _ _ _ Hc Hstep) as [Hrd Hpast]. simpl.
    rewrite <- Hrd. split; [done|]. intros Hp. auto.
Qed.

End ReadFacts.

(** ** The trace of a generator *)

Module TraceFacts.
Import SystemFacts.

Lemma trace_leave evs st g :
  Forall progress_event (Generator.out g) -> generator_exit_tail st evs ->
  generator_trace_ok (Generator.leave evs st g).
Proof. intros Hp Ht. unfold generator_trace_ok. simpl. eauto. Qed.

Lemma trace_running g :
  generator_trace_ok g ->
  match Generator.at_pc g with Generator.Exited _ => False | _ => True end ->
  Forall progress_event (Generator.out g).
Proof. unfold generator_trace_ok. by destruct (Generator.at_pc g). Qed.

Lemma progress_app evs evs' :
  Forall progress_event evs -> Forall progress_event evs' ->
  Forall progress_event (evs ++ evs').
Proof. intros. by apply Forall_app. Qed.

Lemma generator_step_trace i g w g' w' :
  Generator.main_step i g w = Ok (g', w') ->
  generator_trace_ok g -> generator_trace_ok g'.
Proof.
  unfold Generator.main_step. intros Hstep Hg.
  destruct (Generator.at_pc g) eqn:Hpc;
    try (assert (Forall progress_event (Generator.out g)) as Hout
           by (apply trace_running; [done|by rewrite Hpc])).
  - destruct (Generator.args g).
    { injection Hstep as <- _. apply trace_leave; [done|]. right. auto. }
    destruct (Graph.parse_argv _).
    2: { injection Hstep as <- _. apply trace_leave; [done|]. right. auto. }
    destruct (negb (in_shm_open i)).
    { injection Hstep as <- _. apply trace_leave; [done|]. right. auto. }
    destruct (negb (in_mmap i)).
    { injection Hstep as <- _. apply trace_leave; [done|]. right. auto 6. }
    destruct (negb (in_sem_open i)).
    { injection Hstep as <- _. apply trace_leave; [done|]. right. auto 10. }
    injection Hstep as <- _. unfold generator_trace_ok. simpl.
    apply progress_app; [done|]. repeat constructor.
  - destruct (_ && _); injection Hstep as <- _; done.
  - destruct (in_wait i).
    + destruct (sem_wait _ _ _); [|done..]. injection Hstep as <- _. done.
    + injection Hstep as <- _. done.
    + injection Hstep as <- _. apply trace_leave; [done|]. right. auto 10.
  - destruct (in_wait i).
    + destruct (sem_wait _ _ _); [|done..]. injection Hstep as <- _. done.
    + injection Hstep as <- _. done.
    + injection Hstep as <- _. apply trace_leave; [done|]. right. auto 10.
  - unfold Generator.body in Hstep.
    destruct (set_removal_candidates _ _) as [rc|]; [|done].
    destruct (_ <? _)%nat; [injection Hstep as <- _; done|].
    destruct (slot _) as [k|]; [|done]. destruct (_ !! k) as [old|]; [|done].
    destruct (write_entry _ _ _) as [e|]; [|done].
    injection Hstep as <- _. unfold generator_trace_ok. simpl.
    apply progress_app; [done|]. constructor; [|done]. right. right. eauto.
  - injection Hstep as <- _. apply trace_leave; [done|]. left. eauto.
  - done.
Qed.

Lemma generator_signal_trace g g' :
  Generator.signal_step g = Ok g' -> generator_trace_ok g -> generator_trace_ok g'.
Proof.
  unfold Generator.signal_step, generator_trace_ok.
  destruct (Generator.at_pc g) eqn:Hpc; try done; intros [= <-] Hg; simpl; rewrite Hpc;
    (apply progress_app; [done|]; constructor; [|done]; right; by left).
Qed.

Lemma sys_step_traces l s s' :
  Forall generator_trace_ok (gens s) -> sys_step l s = Ok s' ->
  Forall generator_trace_ok (gens s').
Proof.
  intros Hall. destruct l as [i|n i| |n]; simpl.
  - destruct (Supervisor.main_step _ _ _) as [[s1 w1]| |]; [|done..]. by intros [= <-].
  - destruct (gens s !! n) as [g|] eqn:Hg; [|done].
    destruct (Generator.main_step _ _ _) as [[g1 w1]| |] eqn:E; [|done..].
    intros [= <-]. simpl. apply Forall_insert; [done|].
    eapply generator_step_trace; [done|]. by eapply Forall_lookup_1.
  - destruct (Supervisor.signal_step _); [|done..]. by intros [= <-].
  - destruct (gens s !! n) as [g|] eqn:Hg; [|done].
    destruct (Generator.signal_step _) as [g1| |] eqn:E; [|done..].
    intros [= <-]. simpl. apply Forall_insert; [done|].
    eapply generator_signal_trace; [done|]. by eapply Forall_lookup_1.
Qed.

Lemma reachable_traces s : reachable s -> Forall generator_trace_ok (gens s).
Proof.
  intros (a & st & gs & ls & Hrun).
  eapply (run_invariant (fun s => Forall generator_trace_ok (gens s))); [| |exact Hrun].
  - intros l s0 s1 Hs Hstep. by eapply sys_step_traces.
  - simpl. apply List.Forall_forall. intros g Hg.
    apply in_map_iff in Hg as ([a0 r0] & <- & _). by constructor.
Qed.

(** No progress message is a call that touches a resource. *)
Lemma progress_not_resource pre e :
  Forall progress_event pre -> In e pre ->
  match e with Ev_print (Msg_started | Msg_signal | Msg_reported _) => True | _ => False end.
Proof.
  intros Hp He. rewrite List.Forall_forall in Hp.
  destruct (Hp e He) as [->|[->|[n ->]]]; done.
Qed.

Lemma in_trace pre tail e :
  Forall progress_event pre -> resource_event e = true ->
  In e (pre ++ tail) <-> In e tail.
Proof.
  intros Hpre He. rewrite in_app_iff. split; [|by right].
  intros [H|H]; [|done]. apply (progress_not_resource _ _ Hpre) in H.
  destruct e as [[]| | | | | |]; done.
Qed.

Ltac open_lists :=
  unfold Generator.cleanup, Generator.fatal_wait, usage, print_errno_msg,
    close_all_sems, close_sem in *; simpl in *.
Ltac is_in := open_lists; solve [repeat (first [left; reflexivity | right])].
Ltac not_in := open_lists; solve [intuition discriminate].

Lemma exited_trace g st :
  generator_trace_ok g -> Generator.at_pc g = Generator.Exited st ->
  (st = EXIT_SUCCESS \/ st = EXIT_FAILURE) /\
  ~ In Ev_shm_unlink (Generator.out g) /\
  (forall nm, In (Ev_sem_close nm) (Generator.out g) <->
              In (Ev_sem_unlink nm) (Generator.out g)) /\
  (st = EXIT_SUCCESS ->
   In Ev_munmap (Generator.out g) /\
   forall nm, In (Ev_sem_close nm) (Generator.out g) /\
              In (Ev_sem_unlink nm) (Generator.out g)) /\
  (In (Ev_print (Msg_errno "sem_wait failed")) (Generator.out g) \/
   In (Ev_print (Msg_errno "sem_open failed")) (Generator.out g) ->
   st = EXIT_FAILURE /\ ~ In Ev_munmap (Generator.out g) /\
   forall nm, In (Ev_sem_close nm) (Generator.out g) /\
              In (Ev_sem_unlink nm) (Generator.out g)).
Proof.
  unfold generator_trace_ok. intros Hg Hpc. rewrite Hpc in Hg.
  destruct Hg as (pre & tail & -> & Hpre & Htail).
  assert (forall nm, In (Ev_sem_close nm) close_all_sems /\
                     In (Ev_sem_unlink nm) close_all_sems) as Hall
    by (intros []; split; unfold close_all_sems, close_sem; simpl; tauto).
  destruct Htail as [[-> [w ->]]|[-> Hfail]].
  - split; [by left|]. unfold Generator.cleanup.
    split; [(rewrite in_trace by done); destruct (signal (cb w) =? 1); not_in|].
    split.
    { intros nm.
      rewrite (in_trace _ _ (Ev_sem_close nm)), (in_trace _ _ (Ev_sem_unlink nm)) by done.
      destruct (signal (cb w) =? 1), nm; split; intros _; is_in. }
    split.
    { intros _. split; [(rewrite in_trace by done); destruct (signal (cb w) =? 1); is_in|].
      intros nm.
      rewrite (in_trace _ _ (Ev_sem_close nm)), (in_trace _ _ (Ev_sem_unlink nm)) by done.
      destruct (signal (cb w) =? 1), nm; split; is_in. }
    intros [H|H]; (rewrite in_trace in H by done); exfalso; revert H;
      destruct (signal (cb w) =? 1); not_in.
  - split; [by right|].
    split.
    { rewrite in_trace by done. destruct Hfail as [-> | [-> | [-> | [-> | ->]]]]; not_in. }
    split.
    { intros nm.
      rewrite (in_trace _ _ (Ev_sem_close nm)), (in_trace _ _ (Ev_sem_unlink nm)) by done.
      destruct Hfail as [-> | [-> | [-> | [-> | ->]]]]; destruct nm; split;
        first [intros _; is_in | not_in]. }
    split; [done|].
    intros H. split; [done|]. split.
    { rewrite in_trace by done. destruct Hfail as [-> | [-> | [-> | [-> | ->]]]]; not_in. }
    intros nm.
    rewrite (in_trace _ _ (Ev_sem_close nm)), (in_trace _ _ (Ev_sem_unlink nm)) by done.
    assert (In (Ev_print (Msg_errno "sem_wait failed")) tail \/
            In (Ev_print (Msg_errno "sem_open failed")) tail) as H'
      by (destruct H as [H|H]; [left|right]; by apply in_trace in H).
    clear H.
    destruct Hfail as [-> | [-> | [-> | [-> | ->]]]];
      try (exfalso; revert H'; not_in);
      destruct nm; split; is_in.
Qed.

End TraceFacts.

(** ** One attempt *)

Module AttemptFacts.
Import SystemFacts.

Lemma overflow_false rc :
  (List.length rc <= MAXIMUM_SOLUTION_LENGTH)%nat -> overflow rc = false.
Proof. intros H. unfold overflow. apply Nat.ltb_ge. lia. Qed.

(** Every return of the loop body is a publish of what
    set_removal_candidates found. *)
Lemma body_publishes g w g' w' :
  Generator.body g w = Ok (g', w') ->
  exists rc e,
    set_removal_candidates
      (Graph.vertices (Generator.graph (Generator.recolor g)))
      (Graph.edges (Generator.graph (Generator.recolor g))) = Some rc /\
    (List.length rc <= MAXIMUM_SOLUTION_LENGTH)%nat /\
    published (List.length rc) e w w' /\
    g' = Generator.goto Generator.At_loop_top
           (Generator.emit [Ev_print (Msg_reported (List.length rc))]
              (Generator.recolor g)).
Proof.
  unfold Generator.body.
  destruct (set_removal_candidates _ _) as [rc|] eqn:Hrc; [|done].
  pose proof (SearchFacts.set_removal_candidates_length _ _ _ Hrc) as Hlen.
  fold (overflow rc). rewrite (overflow_false _ Hlen).
  destruct (slot _) as [k|] eqn:Hk; [|done].
  destruct (_ !! k) as [old|] eqn:Hold; [|done].
  destruct (write_entry _ _ _) as [e|] eqn:He; [|done].
  intros [= <- <-]. exists rc, e. split; [done|]. split; [done|]. split; [|done].
  exists k. split; [done|]. split; [by eapply SearchFacts.write_entry_length|]. done.
Qed.

(** With a graph from parse_argv and a sound buffer the body returns. *)
Lemma body_returns g w :
  wf_edges (Graph.vertices (Generator.graph g)) (Graph.edges (Generator.graph g)) ->
  world_ok w ->
  exists g' w', Generator.body g w = Ok (g', w').
Proof.
  intros Hwf (Hlen & Hall & Hrd & Hwr). unfold Generator.body.
  assert (wf_edges (Graph.vertices (Generator.graph (Generator.recolor g)))
            (Graph.edges (Generator.graph (Generator.recolor g)))) as Hwf'
    by (by apply SearchFacts.wf_edges_randomize).
  destruct (set_removal_candidates _ _) as [rc|] eqn:Hrc.
  2: { rewrite SearchFacts.set_removal_candidates_spec in Hrc; done. }
  pose proof (SearchFacts.set_removal_candidates_length _ _ _ Hrc) as Hrcl.
  fold (overflow rc). rewrite (overflow_false _ Hrcl).
  rewrite (slot_ok _ Hwr).
  destruct (lookup_lt_is_Some_2 (entries (cb w)) (Z.to_nat (wr (cb w)))) as [old ->].
  { rewrite Hlen. unfold index_ok, NUMBER_OF_ENTRIES in *. lia. }
  assert (wf_edges (Graph.vertices (Generator.graph (Generator.recolor g))) rc) as Hwrc.
  { rewrite SearchFacts.set_removal_candidates_spec in Hrc by done.
    injection Hrc as <-. intros x Hx. apply Hwf'.
    apply list_elem_of_In in Hx. apply elem_of_take in Hx as (i & Hx & _).
    apply list_elem_of_lookup_2, list_elem_of_In in Hx.
    unfold conflict_set in Hx. by apply filter_In in Hx as [? _]. }
  destruct (SearchFacts.write_pairs_is_Some _ rc 0
              {| length := Z.of_nat (List.length rc);
                 from_vertices := from_vertices old;
                 to_vertices := to_vertices old |} Hwrc) as [e He]; [simpl; lia|].
  unfold write_entry. rewrite He. eauto.
Qed.

End AttemptFacts.

(** ** The best length *)

Module BestFacts.
Import SystemFacts.

(** Outside a consume and behind the start the supervisor keeps
    [current_best]. *)
Lemma supervisor_idle_best i s w s' w' :
  Supervisor.main_step i s w = Ok (s', w') ->
  Supervisor.at_pc s <> Supervisor.At_start ->
  match Supervisor.at_pc s, in_wait i with
  | Supervisor.At_wait_used, Acquired => False
  | _, _ => True
  end ->
  Supervisor.current_best s' = Supervisor.current_best s.
Proof.
  unfold Supervisor.main_step. destruct (Supervisor.at_pc s); [done|..].
  - destruct (negb _); by intros [= <- <-].
  - destruct (in_wait i); [done|by intros [= <- <-]..].
  - by intros [= <- <-].
  - by intros [= <- <-].
  - done.
Qed.

Lemma supervisor_start_best i s w s' w' :
  Supervisor.main_step i s w = Ok (s', w') ->
  Supervisor.at_pc s = Supervisor.At_start ->
  Supervisor.at_pc s' = Supervisor.At_loop_top ->
  length (Supervisor.current_best s') = INT_MAX.
Proof.
  unfold Supervisor.main_step. intros Hstep Hpc. rewrite Hpc in Hstep. revert Hstep.
  destruct (Supervisor.args s); [|by intros [= <- <-]].
  repeat (destruct (negb _); [by intros [= <- <-]|]). by intros [= <- <-].
Qed.

Lemma supervisor_step_best i s w s' w' :
  world_ok w ->
  Supervisor.main_step i s w = Ok (s', w') ->
  Supervisor.at_pc s <> Supervisor.At_start ->
  length (Supervisor.current_best s') <= length (Supervisor.current_best s).
Proof.
  intros Hw Hstep Hpc.
  destruct (Supervisor.at_pc s) eqn:Hat; try done;
    try (erewrite supervisor_idle_best; [reflexivity|exact Hstep|congruence|by rewrite Hat]).
  destruct (in_wait i) eqn:Hin;
    try (erewrite supervisor_idle_best;
         [reflexivity|exact Hstep|congruence|by rewrite Hat, Hin]).
  destruct (ReadFacts.supervisor_consume _ _ _ _ _ Hat Hin Hw Hstep)
    as (e & _ & _ & _ & _ & _ & Hcase).
  destruct (length e =? 0).
  - destruct Hcase as [_ ->]. simpl. lia.
  - destruct Hcase as (_ & _ & ->).
    destruct (length e >=? length (Supervisor.current_best s)) eqn:Hge; [lia|].
    rewrite Z.geb_leb in Hge; apply Z.leb_gt in Hge. lia.
Qed.

Lemma reachable_step l s s' : reachable s -> sys_step l s = Ok s' -> reachable s'.
Proof.
  intros (a & st & gs & ls & Hrun) Hstep. exists a, st, gs, (ls ++ [l]).
  rewrite (run_app _ _ _ _ Hrun). simpl. by rewrite Hstep.
Qed.

Lemma supervisor_started_step l s s' :
  Supervisor.at_pc (sup s) <> Supervisor.At_start -> sys_step l s = Ok s' ->
  Supervisor.at_pc (sup s') <> Supervisor.At_start.
Proof.
  intros Hpc. destruct l as [i|n i| |n]; simpl.
  - unfold Supervisor.main_step.
    destruct (Supervisor.at_pc (sup s)) eqn:Hat; try done.
    + destruct (negb _); by intros [= <-].
    + destruct (in_wait i); [|by intros [= <-]..].
      destruct (sem_wait _ _ _) as [w1| |]; [|done..]. unfold Supervisor.body.
      destruct (slot _) as [k0|]; [|done]. destruct (_ !! k0) as [e0|]; [|done].
      destruct (length e0 =? 0); [by intros [= <-]|].
      destruct (slot _) as [k|]; [|done]. destruct (_ !! k) as [e|]; [|done].
      destruct (_ >=? _); by intros [= <-].
    + by intros [= <-].
    + by intros [= <-].
  - destruct (gens s !! n); [|done].
    destruct (Generator.main_step _ _ _) as [[g1 w1]| |]; [|done..]. by intros [= <-].
  - unfold Supervisor.signal_step.
    destruct (Supervisor.at_pc (sup s)) eqn:Hat; try done; intros [= <-]; simpl;
      by rewrite Hat.
  - destruct (gens s !! n); [|done].
    destruct (Generator.signal_step _); [|done..]. by intros [= <-].
Qed.

Lemma sys_step_best l s s' :
  world_ok (shm s) -> Supervisor.at_pc (sup s) <> Supervisor.At_start ->
  sys_step l s = Ok s' ->
  length (Supervisor.current_best (sup s')) <= length (Supervisor.current_best (sup s)).
Proof.
  intros Hw Hpc Hstep. destruct l as [i|n i| |n]; simpl in Hstep.
  - destruct (Supervisor.main_step _ _ _) as [[s1 w1]| |] eqn:E; [|done..].
    injection Hstep as <-. simpl. by eapply supervisor_step_best.
  - destruct (gens s !! n); [|done].
    destruct (Generator.main_step _ _ _) as [[g1 w1]| |]; [|done..].
    injection Hstep as <-. simpl. lia.
  - unfold Supervisor.signal_step in Hstep.
    destruct (Supervisor.at_pc (sup s)); try done; injection Hstep as <-; simpl; lia.
  - destruct (gens s !! n); [|done].
    destruct (Generator.signal_step _); [|done..].
    injection Hstep as <-. simpl. lia.
Qed.

Lemma run_best ls : forall s s',
  world_ok (shm s) -> Supervisor.at_pc (sup s) <> Supervisor.At_start ->
  run ls s = Ok s' ->
  length (Supervisor.current_best (sup s')) <= length (Supervisor.current_best (sup s)).
Proof.
  induction ls as [|l ls IH]; intros s s' Hw Hpc; simpl.
  - intros [= <-]. lia.
  - destruct (sys_step l s) as [s1| |] eqn:E; [|done..]. intros Hrun.
    pose proof (sys_step_best _ _ _ Hw Hpc E).
    pose proof (IH s1 s' (sys_step_world _ _ _ Hw E)
                  (supervisor_started_step _ _ _ Hpc E) Hrun). lia.
Qed.

End BestFacts.

(** ** The flag and the cleanup *)

Module FlagFacts.
Import SystemFacts.

Lemma prints_no_unlink evs :
  Forall (fun e => is_print e = true) evs -> ~ In Ev_shm_unlink evs.
Proof.
  intros Hall Hin. rewrite List.Forall_forall in Hall. by apply Hall in Hin.
Qed.

Lemma leave_failure_ok evs s w :
  Forall (fun e => is_print e = true) (Supervisor.out s) ->
  ~ In Ev_shm_unlink evs ->
  supervisor_ok (Supervisor.leave evs EXIT_FAILURE s) w.
Proof.
  intros Hout Hevs. unfold supervisor_ok. simpl. intros Hin.
  apply in_app_iff in Hin as [Hin|Hin]; [by apply prints_no_unlink in Hin|done].
Qed.

Lemma supervisor_step_ok i s w s' w' :
  Supervisor.main_step i s w = Ok (s', w') ->
  supervisor_ok s w -> supervisor_ok s' w'.
Proof.
  unfold Supervisor.main_step, supervisor_ok at 1.
  destruct (Supervisor.at_pc s) eqn:Hpc.
  - destruct (Supervisor.args s).
    2: { intros [= <- <-] H. apply leave_failure_ok; [done|]. simpl. intuition discriminate. }
    destruct (negb (in_shm_open i)).
    { intros [= <- <-] H. apply leave_failure_ok; [done|]. simpl. intuition discriminate. }
    destruct (negb (in_ftruncate i)).
    { intros [= <- <-] H. apply leave_failure_ok; [done|]. simpl. intuition discriminate. }
    destruct (negb (in_mmap i)).
    { intros [= <- <-] H. apply leave_failure_ok; [done|]. simpl. intuition discriminate. }
    destruct (negb (in_sem_open i)).
    { intros [= <- <-] H. apply leave_failure_ok; [done|]. simpl. intuition discriminate. }
    intros [= <- <-] H. unfold supervisor_ok. simpl. apply Forall_app. split; [done|].
    by repeat constructor.
  - destruct (negb _); intros [= <- <-] H; done.
  - destruct (in_wait i).
    + destruct (sem_wait _ _ _) as [w1| |] eqn:Hw1; [|done..].
      unfold Supervisor.body.
      destruct (slot _) as [k0|]; [|done]. destruct (_ !! k0) as [e0|]; [|done].
      destruct (length e0 =? 0).
      { intros [= <- <-] H. unfold supervisor_ok. simpl. apply Forall_app.
        split; [done|]. by repeat constructor. }
      destruct (slot _) as [k|]; [|done]. destruct (_ !! k) as [e|]; [|done].
      destruct (_ >=? _); intros [= <- <-] H; unfold supervisor_ok; simpl; [done|].
      apply Forall_app. split; [done|]. by repeat constructor.
    + intros [= <- <-] H. done.
    + intros [= <- <-] H. apply leave_failure_ok; [done|].
      unfold Supervisor.fatal_wait, close_all_sems, close_sem, print_errno_msg. simpl.
      intuition discriminate.
  - intros [= <- <-] H. unfold supervisor_ok. simpl. done.
  - intros [= <- <-] [H1 H2]. unfold supervisor_ok. simpl. done.
  - done.
Qed.

Lemma generator_step_signal i g w g' w' :
  Generator.main_step i g w = Ok (g', w') -> signal (cb w') = signal (cb w).
Proof.
  unfold Generator.main_step. destruct (Generator.at_pc g).
  - destruct (Generator.args g); [by intros [= _ <-]|].
    destruct (Graph.parse_argv _); [|by intros [= _ <-]].
    repeat (destruct (negb _); [by intros [= _ <-]|]). by intros [= _ <-].
  - destruct (_ && _); by intros [= _ <-].
  - destruct (in_wait i); [|by intros [= _ <-]..].
    destruct (sem_wait _ _ _) as [w1| |] eqn:E; [|done..].
    intros [= _ <-]. f_equal. by eapply sem_wait_cb.
  - destruct (in_wait i); [|by intros [= _ <-]..].
    destruct (sem_wait _ _ _) as [w1| |] eqn:E; [|done..].
    intros [= _ <-]. f_equal. by eapply sem_wait_cb.
  - intros H. apply AttemptFacts.body_publishes in H as (rc & e & _ & _ & Hpub & _).
    destruct Hpub as (k & _ & _ & _ & _ & _ & Hsig & _). done.
  - by intros [= _ <-].
  - done.
Qed.

Lemma supervisor_ok_signal s w w' :
  signal (cb w') = signal (cb w) -> supervisor_ok s w -> supervisor_ok s w'.
Proof. unfold supervisor_ok. by intros ->. Qed.

Lemma sys_step_ok l s s' :
  supervisor_ok (sup s) (shm s) -> sys_step l s = Ok s' ->
  supervisor_ok (sup s') (shm s').
Proof.
  intros Hok. destruct l as [i|n i| |n]; simpl.
  - destruct (Supervisor.main_step _ _ _) as [[s1 w1]| |] eqn:E; [|done..].
    intros [= <-]. simpl. by eapply supervisor_step_ok.
  - destruct (gens s !! n) as [g|]; [|done].
    destruct (Generator.main_step _ _ _) as [[g1 w1]| |] eqn:E; [|done..].
    intros [= <-]. simpl. eapply supervisor_ok_signal; [|done].
    by eapply generator_step_signal.
  - unfold Supervisor.signal_step. unfold supervisor_ok in *.
    destruct (Supervisor.at_pc (sup s)) eqn:Hpc; try done; intros [= <-]; simpl;
      rewrite Hpc; try (apply Forall_app; split; [done|by repeat constructor]).
    destruct Hok as [H1 H2]. split; [|done].
    apply Forall_app; split; [done|by repeat constructor].
  - destruct (gens s !! n) as [g|]; [|done].
    destruct (Generator.signal_step _); [|done..]. by intros [= <-].
Qed.

Lemma reachable_ok s : reachable s -> supervisor_ok (sup s) (shm s).
Proof.
  intros (a & st & gs & ls & Hrun).
  eapply (run_invariant (fun s => supervisor_ok (sup s) (shm s))); [| |exact Hrun].
  - intros l s0 s1 Hs Hstep. by eapply sys_step_ok.
  - unfold supervisor_ok. simpl. constructor.
Qed.

End FlagFacts.

(** ** No step goes outside an array *)

Module SafetyFacts.
Import SystemFacts.

Lemma generator_step_graph i g w g' w' :
  Generator.main_step i g w = Ok (g', w') ->
  generator_graph_ok g -> generator_graph_ok g'.
Proof.
  unfold Generator.main_step, generator_graph_ok. destruct (Generator.at_pc g).
  - destruct (Generator.args g); [by intros [= <- _]|].
    destruct (Graph.parse_argv _) as [gr|] eqn:Hgr; [|by intros [= <- _]].
    repeat (destruct (negb _); [by intros [= <- _]|]). intros [= <- _] _. simpl.
    by apply GraphFacts.parse_argv_inv in Hgr as [_ ? _].
  - destruct (_ && _); by intros [= <- _].
  - destruct (in_wait i); [|by intros [= <- _]..].
    destruct (sem_wait _ _ _); [|done..]. by intros [= <- _].
  - destruct (in_wait i); [|by intros [= <- _]..].
    destruct (sem_wait _ _ _); [|done..]. by intros [= <- _].
  - intros H Hg. apply AttemptFacts.body_publishes in H as (rc & e & _ & _ & _ & ->).
    simpl. by apply SearchFacts.wf_edges_randomize.
  - by intros [= <- _].
  - done.
Qed.

Lemma sys_step_graphs l s s' :
  Forall generator_graph_ok (gens s) -> sys_step l s = Ok s' ->
  Forall generator_graph_ok (gens s').
Proof.
  intros Hall. destruct l as [i|n i| |n]; simpl.
  - destruct (Supervisor.main_step _ _ _) as [[s1 w1]| |]; [|done..]. by intros [= <-].
  - destruct (gens s !! n) as [g|] eqn:Hg; [|done].
    destruct (Generator.main_step _ _ _) as [[g1 w1]| |] eqn:E; [|done..].
    intros [= <-]. simpl. apply Forall_insert; [done|].
    eapply generator_step_graph; [done|]. by eapply Forall_lookup_1.
  - destruct (Supervisor.signal_step _); [|done..]. by intros [= <-].
  - destruct (gens s !! n) as [g|] eqn:Hg; [|done].
    unfold Generator.signal_step.
    pose proof (Forall_lookup_1 _ _ _ _ Hall Hg) as Hok.
    destruct (Generator.at_pc g); try done; intros [= <-]; simpl;
      by apply Forall_insert.
Qed.

Lemma reachable_graphs s : reachable s -> Forall generator_graph_ok (gens s).
Proof.
  intros (a & st & gs & ls & Hrun).
  eapply (run_invariant (fun s => Forall generator_graph_ok (gens s))); [| |exact Hrun].
  - intros l s0 s1 Hs Hstep. by eapply sys_step_graphs.
  - simpl. apply List.Forall_forall. intros g Hg.
    apply in_map_iff in Hg as ([a0 r0] & <- & _). intros e [].
Qed.

Lemma supervisor_body_returns s w :
  world_ok w -> exists s' w', Supervisor.body s w = Ok (s', w').
Proof.
  intros (Hlen & Hall & Hrd & Hwr). unfold Supervisor.body.
  assert (Z.rem (rd (cb w)) NUMBER_OF_ENTRIES = rd (cb w)) as ->.
  { unfold index_ok, NUMBER_OF_ENTRIES in *. rewrite Z.rem_mod_nonneg by lia.
    apply Z.mod_small. lia. }
  rewrite (slot_ok _ Hrd).
  destruct (lookup_lt_is_Some_2 (entries (cb w)) (Z.to_nat (rd (cb w)))) as [e ->].
  { rewrite Hlen. unfold index_ok, NUMBER_OF_ENTRIES in *. lia. }
  destruct (length e =? 0); [eauto|]. destruct (_ >=? _); eauto.
Qed.

(** No step of a reachable state is an access outside an array. *)
Lemma step_defined l s : reachable s -> sys_step l s <> Undefined.
Proof.
  intros Hreach.
  pose proof (reachable_world_ok _ Hreach) as Hw.
  pose proof (reachable_graphs _ Hreach) as Hg.
  destruct l as [i|n i| |n]; simpl.
  - unfold Supervisor.main_step. destruct (Supervisor.at_pc (sup s)); try done.
    + destruct (Supervisor.args (sup s)); [|done].
      repeat (destruct (negb _); [done|]). done.
    + by destruct (negb _).
    + destruct (in_wait i); try done.
      destruct (sem_wait Acquired (shm s) USED_SEM) as [w1| |] eqn:E; try done.
      * destruct (supervisor_body_returns (sup s) w1) as (s' & w' & ->); [|done].
        eapply world_ok_cb; [|exact Hw]. by eapply sem_wait_cb.
      * simpl in E. by destruct (used_sem (shm s)).
  - destruct (gens s !! n) as [g|] eqn:Hgn; [|done].
    pose proof (Forall_lookup_1 _ _ _ _ Hg Hgn) as Hgraph.
    unfold Generator.main_step. destruct (Generator.at_pc g); try done.
    + destruct (Generator.args g); [done|]. destruct (Graph.parse_argv _); [|done].
      repeat (destruct (negb _); [done|]). done.
    + by destruct (_ && _).
    + destruct (in_wait i); try done. simpl. by destruct (write_sem (shm s)).
    + destruct (in_wait i); try done. simpl. by destruct (free_sem (shm s)).
    + destruct (AttemptFacts.body_returns g (shm s) Hgraph Hw) as (g' & w' & ->). done.
  - unfold Supervisor.signal_step. by destruct (Supervisor.at_pc (sup s)).
  - destruct (gens s !! n) as [g|]; [|done]. unfold Generator.signal_step.
    by destruct (Generator.at_pc g).
Qed.

End SafetyFacts.

(** ** More on the graph *)

Module GraphMore.
Import Graph GraphSpec GraphFacts.

Lemma find_vertex_from_first vs : forall i k p,
  find_vertex_from i vs k = Some p ->
  forall q u, (q < p - i)%nat -> vs !! q = Some u -> key u <> k.
Proof.
  induction vs as [|v vs IH]; intros i k p; simpl; [done|].
  destruct (key v =? k) eqn:E.
  - intros [= <-] q u Hq. lia.
  - intros H [|q] u Hq Hu.
    + injection Hu as <-. lia.
    + apply find_vertex_from_Some in H as Hle. destruct Hle as [Hle _].
      eapply (IH _ _ _ H q); [lia|done].
Qed.

Lemma find_vertex_from_present vs : forall i k v,
  In v vs -> key v = k -> is_Some (find_vertex_from i vs k).
Proof.
  intros i k v Hv Hk. destruct (find_vertex_from i vs k) eqn:E; [done|].
  by destruct (find_vertex_from_None _ _ _ E v Hv).
Qed.

Lemma find_vertex_from_app vs more : forall i k p,
  find_vertex_from i vs k = Some p -> find_vertex_from i (vs ++ more) k = Some p.
Proof.
  induction vs as [|v vs IH]; intros i k p; simpl; [done|].
  destruct (key v =? k); [done|]. apply IH.
Qed.

Lemma find_vertex_from_new vs : forall i k c,
  find_vertex_from i vs k = None ->
  find_vertex_from i (vs ++ [{| key := k; color := c |}]) k = Some (i + List.length vs)%nat.
Proof.
  induction vs as [|v vs IH]; intros i k c; simpl.
  - intros _. rewrite Z.eqb_refl. f_equal. lia.
  - destruct (key v =? k); [done|]. intros H. rewrite (IH _ _ _ H). f_equal. lia.
Qed.

Lemma find_edge_from_swap es : forall i p1 p2,
  find_edge_from i es p1 p2 = find_edge_from i es p2 p1.
Proof.
  induction es as [|e es IH]; intros i p1 p2; simpl; [done|].
  rewrite (edge_matches_swap e p1 p2). destruct (edge_matches e p1 p2); [done|]. apply IH.
Qed.

Lemma find_edge_from_first es : forall i p1 p2 n,
  find_edge_from i es p1 p2 = Some n ->
  (i <= n)%nat /\
  (exists e, es !! (n - i)%nat = Some e /\ edge_matches e p1 p2 = true) /\
  forall q e, (q < n - i)%nat -> es !! q = Some e -> edge_matches e p1 p2 = false.
Proof.
  induction es as [|e es IH]; intros i p1 p2 n; simpl; [done|].
  destruct (edge_matches e p1 p2) eqn:E.
  - intros [= <-]. split; [lia|]. rewrite Nat.sub_diag. split; [eauto|]. intros q e' Hq. lia.
  - intros H. apply IH in H as (Hle & (e' & He' & Hm) & Hfirst).
    split; [lia|]. split.
    + exists e'. replace (n - i)%nat with (S (n - S i)) by lia. done.
    + intros [|q] e'' Hq Hq'.
      * by injection Hq' as <-.
      * eapply (Hfirst q); [lia|done].
Qed.

Lemma find_edge_from_new es : forall i p1 p2,
  find_edge_from i es p1 p2 = None ->
  find_edge_from i (add_new_edge es p1 p2) p1 p2 = Some (i + List.length es)%nat.
Proof.
  unfold add_new_edge.
  induction es as [|e es IH]; intros i p1 p2; simpl.
  - intros _. unfold edge_matches. simpl. rewrite !Nat.eqb_refl. simpl. f_equal. lia.
  - destruct (edge_matches e p1 p2); [done|]. intros H. rewrite (IH _ _ _ H). f_equal. lia.
Qed.

(** What one round of parse_argv adds: at most two vertices and one edge,
    behind what was there. *)
Lemma vertex_for_grows vs k vs' p :
  to_int k = k -> vertex_for vs k = (vs', p) ->
  exists more, vs' = vs ++ more /\ (List.length more <= 1)%nat /\
    Forall (fun v => color v = 0 /\ key v = k) more /\
    exists v, vs' !! p = Some v /\ key v = k.
Proof.
  intros Hk. unfold vertex_for. destruct (find_vertex_by_key vs k) as [q|] eqn:E.
  - intros [= <- <-]. exists []. rewrite app_nil_r. split; [done|]. split; [simpl; lia|].
    split; [constructor|]. by apply find_vertex_by_key_Some in E.
  - unfold add_new_vertex. intros [= <- <-]. eexists. split; [done|]. split; [simpl; lia|].
    split; [by repeat constructor|].
    eexists. split; [apply list_lookup_middle; done|done].
Qed.

Lemma edge_keys_app vs more e p :
  edge_keys vs e = Some p -> edge_keys (vs ++ more) e = Some p.
Proof.
  unfold edge_keys. destruct (vs !! v1 e) as [a|] eqn:Ha; [|done].
  destruct (vs !! v2 e) as [b|] eqn:Hb; [|done].
  by rewrite (lookup_app_l_Some _ _ _ _ Ha), (lookup_app_l_Some _ _ _ _ Hb).
Qed.

Lemma insert_edge_grows k1 k2 g :
  to_int k1 = k1 -> to_int k2 = k2 ->
  exists mv me,
    vertices (insert_edge k1 k2 g) = vertices g ++ mv /\
    edges (insert_edge k1 k2 g) = edges g ++ me /\
    (List.length mv <= 2)%nat /\ (List.length me <= 1)%nat /\
    Forall (fun v => color v = 0 /\ (key v = k1 \/ key v = k2)) mv /\
    Forall (fun e => edge_keys (vertices (insert_edge k1 k2 g)) e = Some (k1, k2)) me /\
    joins (insert_edge k1 k2 g) k1 k2.
Proof.
  intros Hk1 Hk2. rewrite insert_edge_unfold.
  destruct (vertex_for (vertices g) k1) as [vs1 p1] eqn:E1.
  destruct (vertex_for vs1 k2) as [vs2 p2] eqn:E2.
  destruct (vertex_for_grows _ _ _ _ Hk1 E1) as (m1 & -> & Hl1 & Hm1 & a & Ha & Hka).
  destruct (vertex_for_grows _ _ _ _ Hk2 E2) as (m2 & -> & Hl2 & Hm2 & b & Hb & Hkb).
  assert (((vertices g ++ m1) ++ m2) !! p1 = Some a) as Ha' by (by apply lookup_app_l_Some).
  assert (Forall (fun v => color v = 0 /\ (key v = k1 \/ key v = k2)) (m1 ++ m2)) as Hm.
  { apply Forall_app. split; (eapply Forall_impl; [done|]); simpl; intros v [? ?]; auto. }
  destruct (find_edge_by_vertices (edges g) p1 p2) as [n|] eqn:F.
  - exists (m1 ++ m2), []. simpl. rewrite app_nil_r.
    split; [by rewrite app_assoc|]. split; [done|]. split; [rewrite length_app; lia|]. split; [lia|].
    split; [done|]. split; [constructor|].
    apply find_edge_from_Some in F as (e & He & Hmatch).
    exists e. split; [done|]. simpl. unfold edge_keys. unfold edge_matches in Hmatch.
    apply orb_true_iff in Hmatch as [Hmm|Hmm]; apply andb_true_iff in Hmm as [H1 H2];
      apply Nat.eqb_eq in H1, H2; rewrite H1, H2.
    + left. by rewrite Ha', Hb, Hka, Hkb.
    + right. by rewrite Ha', Hb, Hka, Hkb.
  - exists (m1 ++ m2), [{| v1 := p1; v2 := p2 |}]. simpl.
    split; [by rewrite app_assoc|]. split; [done|]. split; [rewrite length_app; lia|]. split; [lia|].
    split; [done|].
    assert (edge_keys ((vertices g ++ m1) ++ m2) {| v1 := p1; v2 := p2 |} = Some (k1, k2)) as Hek.
    { unfold edge_keys. simpl. by rewrite Ha', Hb, Hka, Hkb. }
    split; [by repeat constructor|].
    exists {| v1 := p1; v2 := p2 |}. simpl. split; [|by left].
    unfold add_new_edge. apply in_app_iff. right. by left.
Qed.

Lemma joins_grows g g' mv me k1 k2 :
  vertices g' = vertices g ++ mv -> edges g' = edges g ++ me ->
  joins g k1 k2 -> joins g' k1 k2.
Proof.
  intros Hv He (e & Hin & Hk). exists e. rewrite Hv, He.
  split; [apply in_app_iff; by left|].
  destruct Hk as [Hk|Hk]; [left|right]; by apply edge_keys_app.
Qed.

(** The graph after the rounds for [args], from [g] on. *)
Lemma parse_from_grows args : forall g g',
  parse_from args g = Some g' ->
  exists mv me,
    vertices g' = vertices g ++ mv /\ edges g' = edges g ++ me /\
    (List.length mv <= 2 * List.length args)%nat /\
    (List.length me <= List.length args)%nat /\
    Forall (fun v => color v = 0 /\ to_int (key v) = key v /\
              exists arg k1 k2, In arg args /\ parse_keys arg = Some (k1, k2) /\
                                (key v = k1 \/ key v = k2)) mv /\
    Forall (fun e => exists arg k1 k2, In arg args /\ parse_keys arg = Some (k1, k2) /\
                       edge_keys (vertices g') e = Some (k1, k2)) me /\
    forall arg, In arg args ->
      exists k1 k2, parse_keys arg = Some (k1, k2) /\ joins g' k1 k2.
Proof.
  induction args as [|a args IH]; intros g g'; simpl.
  - intros [= <-]. exists [], []. rewrite !app_nil_r.
    repeat split; try done; try lia; try constructor.
  - unfold parse_arg. destruct (parse_keys a) as [[k1 k2]|] eqn:Ha; [|done].
    intros H. destruct (parse_keys_int _ _ _ Ha) as [Hk1 Hk2].
    destruct (insert_edge_grows k1 k2 g Hk1 Hk2)
      as (mv1 & me1 & Hv1 & He1 & Hlv1 & Hle1 & Hc1 & Hek1 & Hj1).
    destruct (IH _ _ H) as (mv & me & Hv & He & Hlv & Hle & Hc & Hek & Hall).
    exists (mv1 ++ mv), (me1 ++ me).
    split; [by rewrite Hv, Hv1, app_assoc|]. split; [by rewrite He, He1, app_assoc|].
    rewrite !length_app.
    split; [lia|]. split; [lia|]. split; [|split].
    + apply Forall_app. split.
      * eapply Forall_impl; [exact Hc1|]. simpl. intros v [Hcol Hkey].
        split; [done|]. split; [destruct Hkey as [-> | ->]; done|].
        exists a, k1, k2. auto.
      * eapply Forall_impl; [exact Hc|]. simpl.
        intros v (Hcol & Hint & arg & x1 & x2 & Hin & Hp & Hk). eauto 10.
    + apply Forall_app. split.
      * eapply Forall_impl; [exact Hek1|]. simpl. intros e Hk.
        exists a, k1, k2. split; [by left|]. split; [done|].
        rewrite Hv. by apply edge_keys_app.
      * eapply Forall_impl; [exact Hek|]. simpl.
        intros e (arg & x1 & x2 & Hin & Hp & Hk). eauto 10.
    + intros arg [<-|Hin].
      * exists k1, k2. split; [done|]. by eapply joins_grows.
      * by apply Hall.
Qed.

Lemma parse_from_None args : forall g,
  parse_from args g = None <-> exists arg, In arg args /\ parse_keys arg = None.
Proof.
  induction args as [|a args IH]; intros g; simpl.
  - split; [done|]. by intros (arg & [] & _).
  - unfold parse_arg. destruct (parse_keys a) as [[k1 k2]|] eqn:Ha.
    + rewrite IH. split.
      * intros (arg & Hin & Hp). eauto.
      * intros (arg & [<-|Hin] & Hp); [congruence|eauto].
    + split; [eauto|done].
Qed.

(** *** Tokens *)

Lemma strtok_all_tokens s : forall cur,
  Forall no_dash cur ->
  Forall (fun t => t <> [] /\ Forall no_dash t) (strtok_all cur s).
Proof.
  induction s as [|c s IH]; intros cur Hcur; simpl.
  - destruct cur as [|x cur]; [constructor|]. constructor; [|constructor].
    split; [|by apply Forall_rev].
    intros H. apply (f_equal (@List.length ascii)) in H. rewrite length_rev in H. done.
  - destruct (is_dash c) eqn:Hc.
    + destruct cur as [|x cur]; [by apply IH|]. constructor; [|by apply IH].
      split; [|by apply Forall_rev].
      intros H. apply (f_equal (@List.length ascii)) in H. rewrite length_rev in H. done.
    + apply IH. by constructor.
Qed.

Lemma skip_spaces_no_dash t : Forall no_dash t -> Forall no_dash (skip_spaces t).
Proof.
  induction t as [|c t IH]; intros H; simpl; [done|].
  destruct (isspace c); [|done]. apply IH. by inversion H.
Qed.

(** Decimal digits read back. *)
Lemma read_digits_uint d : forall acc n rest,
  match rest with [] => True | c :: _ => digit_of c = None end ->
  read_digits (Z.of_nat acc) n (list_ascii_of_string (NilEmpty.string_of_uint d) ++ rest) =
  (Z.of_nat (Nat.of_uint_acc d acc), (n + Decimal.nb_digits d)%nat, rest).
Proof.
  induction d; intros acc n rest Hrest; simpl;
    try (match goal with
         | |- read_digits ?a _ _ = (Z.of_nat (Nat.of_uint_acc d ?b), _, _) =>
             replace a with (Z.of_nat b)
               by (rewrite ?Nat2Z.inj_succ, Nat.tail_mul_spec, Nat2Z.inj_mul;
                   vm_compute (nat_of_ascii _); lia)
         end;
         rewrite IHd by done; do 2 f_equal; lia).
  destruct rest as [|c r]; simpl; [by rewrite Nat.add_0_r|].
  rewrite Hrest. by rewrite Nat.add_0_r.
Qed.

Lemma to_uint_nonnil n : Nat.to_uint n <> Decimal.Nil.
Proof.
  intros H. pose proof (DecimalNat.Unsigned.of_to n) as Hn. rewrite H in Hn.
  simpl in Hn. subst n. discriminate.
Qed.

Lemma show_key_chars n :
  list_ascii_of_string (show_key n) =
  list_ascii_of_string (NilEmpty.string_of_uint (Nat.to_uint n)).
Proof.
  unfold show_key, NilZero.string_of_uint.
  pose proof (to_uint_nonnil n). by destruct (Nat.to_uint n).
Qed.

Lemma uint_chars_digits d :
  Forall is_digit (list_ascii_of_string (NilEmpty.string_of_uint d)).
Proof. induction d; simpl; constructor; try done; by eexists. Qed.

Lemma uint_chars_length d :
  List.length (list_ascii_of_string (NilEmpty.string_of_uint d)) = Decimal.nb_digits d.
Proof. induction d; simpl; congruence. Qed.

Lemma digit_plain c :
  is_digit c -> is_dash c = false /\ isspace c = false /\ Ascii.eqb c "+" = false.
Proof.
  intros [z Hz]. unfold digit_of in Hz.
  destruct (_ && _)%nat eqn:E; [|done].
  apply andb_true_iff in E as [E1 E2]. apply Nat.leb_le in E1, E2.
  split; [|split].
  - unfold is_dash. destruct (Ascii.eqb_spec c "-") as [->|]; [|done].
    vm_compute in E1. lia.
  - unfold isspace. apply orb_false_iff. split; [apply Nat.eqb_neq; lia|].
    apply andb_false_iff. right. apply Nat.leb_gt. lia.
  - destruct (Ascii.eqb_spec c "+") as [->|]; [|done]. vm_compute in E1. lia.
Qed.

Lemma strtok_all_run t : forall cur rest,
  Forall no_dash t -> strtok_all cur (t ++ rest) = strtok_all (rev t ++ cur) rest.
Proof.
  induction t as [|c t IH]; intros cur rest Ht; simpl; [done|].
  inversion Ht as [|? ? Hc Ht']. subst. unfold no_dash in Hc. rewrite Hc.
  rewrite IH by done. by rewrite <- app_assoc.
Qed.

Lemma strtok_all_two t1 t2 :
  t1 <> [] -> t2 <> [] -> Forall no_dash t1 -> Forall no_dash t2 ->
  strtok_all [] (t1 ++ "-"%char :: t2) = [t1; t2].
Proof.
  intros H1 H2 Hd1 Hd2. rewrite strtok_all_run by done. rewrite app_nil_r. simpl.
  assert (rev t1 <> []) as Hr1
    by (intros H; apply (f_equal (@rev ascii)) in H; rewrite rev_involutive in H; done).
  destruct (rev t1) as [|x r1] eqn:E1; [done|]. rewrite <- E1, rev_involutive.
  f_equal. rewrite <- (app_nil_r t2), strtok_all_run, app_nil_r by done. simpl.
  assert (rev t2 <> []) as Hr2
    by (intros H; apply (f_equal (@rev ascii)) in H; rewrite rev_involutive in H; done).
  destruct (rev t2) as [|y r2] eqn:E2; [done|]. by rewrite <- E2, rev_involutive, app_nil_r.
Qed.

(** [strtol] on the decimal form of [n]. *)
Lemma strtol_show_key n :
  strtol (list_ascii_of_string (show_key n)) = (clamp_long (Z.of_nat n), []).
Proof.
  rewrite show_key_chars. set (d := Nat.to_uint n).
  pose proof (uint_chars_digits d) as Hdig. pose proof (uint_chars_length d) as Hlen.
  assert (Decimal.nb_digits d <> 0%nat) as Hnz.
  { intros H. apply DecimalFacts.nb_digits_0 in H. by apply (to_uint_nonnil n). }
  pose proof (read_digits_uint d 0 0 [] I) as Hread. rewrite app_nil_r in Hread.
  change (Z.of_nat 0) with 0 in Hread.
  change (Nat.of_uint_acc d 0) with (Nat.of_uint d) in Hread.
  unfold d in Hread at 2. rewrite DecimalNat.Unsigned.of_to in Hread.
  unfold strtol.
  destruct (list_ascii_of_string (NilEmpty.string_of_uint d)) as [|c t] eqn:E;
    [simpl in Hlen; lia|].
  inversion Hdig as [|? ? Hc _]. subst.
  destruct (digit_plain c Hc) as (Hdash & Hspace & Hplus).
  simpl. rewrite Hspace. unfold is_dash in Hdash. rewrite Hdash, Hplus, Hread.
  simpl. destruct (Decimal.nb_digits d); done.
Qed.

Lemma list_ascii_of_string_app s1 s2 :
  list_ascii_of_string (s1 ++ s2) = list_ascii_of_string s1 ++ list_ascii_of_string s2.
Proof. induction s1 as [|c s1 IH]; simpl; [done|]. by rewrite IH. Qed.

Lemma show_key_token n :
  list_ascii_of_string (show_key n) <> [] /\
  Forall no_dash (list_ascii_of_string (show_key n)).
Proof.
  rewrite show_key_chars. split.
  - intros H. apply (f_equal (@List.length ascii)) in H. rewrite uint_chars_length in H.
    apply DecimalFacts.nb_digits_0 in H. by apply (to_uint_nonnil n).
  - eapply Forall_impl; [apply uint_chars_digits|]. intros c Hc. by apply digit_plain.
Qed.

Lemma parse_keys_edge_token a b :
  parse_keys (edge_token a b) =
  Some (to_int (clamp_long (Z.of_nat a)), to_int (clamp_long (Z.of_nat b))).
Proof.
  unfold parse_keys, edge_token. rewrite list_ascii_of_string_app. simpl.
  destruct (show_key_token a) as [Ha1 Ha2]. destruct (show_key_token b) as [Hb1 Hb2].
  rewrite strtok_all_two by done. rewrite !strtol_show_key.
  unfold same_position. simpl.
  destruct (list_ascii_of_string (show_key a)); [done|].
  destruct (list_ascii_of_string (show_key b)); done.
Qed.

End GraphMore.

(** ** Permits *)

Module PermitFacts.
Import SystemFacts.

Lemma count_insert (P : Generator.local -> bool) gs : forall n g g',
  gs !! n = Some g ->
  (List.length (List.filter P (<[n := g']> gs)) + (if P g then 1 else 0) =
   List.length (List.filter P gs) + (if P g' then 1 else 0))%nat.
Proof.
  induction gs as [|x gs IH]; intros n g g' Hn; [done|].
  destruct n as [|n]; simpl in *.
  - injection Hn as ->. destruct (P g), (P g'); simpl; lia.
  - specialize (IH n g g' Hn). destruct (P x); simpl; lia.
Qed.

Lemma in_critical_at g p :
  Generator.at_pc g = p ->
  in_critical g = match p with
                  | Generator.At_wait_free | Generator.At_body => true
                  | _ => false
                  end.
Proof. intros <-. reflexivity. Qed.

Lemma in_body_at g p :
  Generator.at_pc g = p ->
  in_body g = match p with Generator.At_body => true | _ => false end.
Proof. intros <-. reflexivity. Qed.

Lemma generator_step_move i g w g' w' :
  Generator.main_step i g w = Ok (g', w') -> generator_move g w g' w'.
Proof.
  unfold Generator.main_step. destruct (Generator.at_pc g) eqn:Hpc.
  - destruct (Generator.args g); [intros [= <- <-]; by apply Move_other; rewrite ?Hpc|].
    destruct (Graph.parse_argv _); [|intros [= <- <-]; by apply Move_other; rewrite ?Hpc].
    repeat (destruct (negb _); [intros [= <- <-]; by apply Move_other; rewrite ?Hpc|]).
    intros [= <- <-]. by apply Move_other; rewrite ?Hpc.
  - destruct (_ && _); intros [= <- <-]; by apply Move_other; rewrite ?Hpc.
  - destruct (in_wait i); [|intros [= <- <-]; by apply Move_other; rewrite ?Hpc..].
    simpl. destruct (write_sem w) as [|n] eqn:Hw; [done|].
    intros [= <- <-]. by apply Move_take_write.
  - destruct (in_wait i); [|intros [= <- <-]; by apply Move_other; rewrite ?Hpc..].
    simpl. destruct (free_sem w) as [|n] eqn:Hw; [done|].
    intros [= <- <-]. by apply Move_take_free.
  - intros H. apply AttemptFacts.body_publishes in H as (rc & e & _ & Hlen & Hpub & ->).
    by eapply Move_publish.
  - intros [= <- <-]. by apply Move_other; rewrite ?Hpc.
  - done.
Qed.

(** What a step of the supervisor does to the shared state. *)
Lemma supervisor_idle_world i s w s' w' :
  Supervisor.main_step i s w = Ok (s', w') ->
  match Supervisor.at_pc s, in_wait i with
  | Supervisor.At_wait_used, Acquired => False
  | _, _ => True
  end ->
  free_sem w' = free_sem w /\ used_sem w' = used_sem w /\ write_sem w' = write_sem w /\
  entries (cb w') = entries (cb w) /\ rd (cb w') = rd (cb w) /\ wr (cb w') = wr (cb w).
Proof.
  unfold Supervisor.main_step. destruct (Supervisor.at_pc s).
  - destruct (Supervisor.args s); [|by intros [= <- <-]].
    repeat (destruct (negb _); [by intros [= <- <-]|]). by intros [= <- <-].
  - destruct (negb _); by intros [= <- <-].
  - destruct (in_wait i); [done|by intros [= <- <-]..].
  - by intros [= <- <-].
  - by intros [= <- <-].
  - done.
Qed.

Lemma supervisor_step_wr i s w s' w' :
  Supervisor.main_step i s w = Ok (s', w') ->
  wr (cb w') = wr (cb w) /\ entries (cb w') = entries (cb w) /\
  write_sem w' = write_sem w.
Proof.
  intros H. unfold Supervisor.main_step in H.
  destruct (Supervisor.at_pc s) eqn:Hpc;
    try (revert H; (destruct (Supervisor.args s) || destruct (negb _) || idtac);
         repeat (destruct (negb _); [by intros [= <- <-]|]); by intros [= <- <-]).
  - destruct (in_wait i); [|by injection H as <- <-..].
    simpl in H. destruct (used_sem w); [done|]. revert H. unfold Supervisor.body.
    destruct (slot _) as [k0|]; [|done]. destruct (_ !! k0) as [e0|]; [|done].
    destruct (length e0 =? 0); [by intros [= <- <-]|].
    destruct (slot _) as [k|]; [|done]. destruct (_ !! k) as [e|]; [|done].
    destruct (_ >=? _); by intros [= <- <-].
Qed.

Lemma permits_ok_init a st gs : permits_ok (system_init a st gs).
Proof.
  unfold permits_ok, count_gens. cbn [shm gens system_init].
  assert (forall P : Generator.local -> bool,
            (forall ar, P (Generator.init (fst ar) (snd ar)) = false) ->
            List.filter P (map (fun '(a0, r) => Generator.init a0 r) gs) = []) as Hnone.
  { intros P HP. induction gs as [|[a0 r] gs IH]; simpl; [done|].
    specialize (HP (a0, r)). simpl in HP. by rewrite HP. }
  rewrite !Hnone by done. unfold world_init, NUMBER_OF_ENTRIES.
  cbn [free_sem used_sem write_sem List.length]. split; lia.
Qed.

Lemma sys_step_permits l s s' :
  world_ok (shm s) -> permits_ok s -> sys_step l s = Ok s' -> permits_ok s'.
Proof.
  intros Hw [Hmutex Hsum]. unfold permits_ok, count_gens in *.
  destruct l as [i|n i| |n]; simpl.
  - destruct (Supervisor.main_step _ _ _) as [[s1 w1]| |] eqn:E; [|done..].
    intros [= <-]. simpl.
    destruct (Supervisor.at_pc (sup s)) eqn:Hpc;
      try (destruct (supervisor_idle_world _ _ _ _ _ E) as (-> & -> & -> & _);
           [by rewrite Hpc|done]).
    destruct (in_wait i) eqn:Hin;
      try (destruct (supervisor_idle_world _ _ _ _ _ E) as (-> & -> & -> & _);
           [by rewrite Hpc, Hin|done]).
    destruct (ReadFacts.supervisor_consume _ _ _ _ _ Hpc Hin Hw E)
      as (e & _ & Hfree & Hused & Hwrite & _). rewrite Hwrite, Hfree. lia.
  - destruct (gens s !! n) as [g|] eqn:Hg; [|done].
    destruct (Generator.main_step _ _ _) as [[g1 w1]| |] eqn:E; [|done..].
    intros [= <-]. simpl.
    pose proof (count_insert in_critical _ _ _ g1 Hg) as Hc.
    pose proof (count_insert in_body _ _ _ g1 Hg) as Hb.
    apply generator_step_move in E.
    destruct E as [Hp Hp' Hcb Hws Hfs Hus|Hp Hp' Hcb Hfs Hws Hus|m e Hp Hp' Hm Hpub|Hp Hcr ->].
    + rewrite (in_critical_at _ _ Hp), (in_critical_at _ _ Hp') in Hc.
      rewrite (in_body_at _ _ Hp), (in_body_at _ _ Hp') in Hb. rewrite Hfs, Hus. lia.
    + rewrite (in_critical_at _ _ Hp), (in_critical_at _ _ Hp') in Hc.
      rewrite (in_body_at _ _ Hp), (in_body_at _ _ Hp') in Hb. rewrite Hws, Hus. lia.
    + rewrite (in_critical_at _ _ Hp), (in_critical_at _ _ Hp') in Hc.
      rewrite (in_body_at _ _ Hp), (in_body_at _ _ Hp') in Hb.
      destruct Hpub as (k & _ & _ & _ & _ & _ & _ & Hus & Hws & Hfs).
      rewrite Hus, Hws, Hfs. lia.
    + rewrite Hcr in Hc.
      assert (in_body g = false) as Hbg
        by (unfold in_body; by destruct (Generator.at_pc g)).
      assert (in_body g1 = false) as Hbg1.
      { unfold in_critical in Hcr. unfold in_body. by destruct (Generator.at_pc g1). }
      rewrite Hbg, Hbg1 in Hb. destruct (in_critical g); lia.
  - unfold Supervisor.signal_step.
    destruct (Supervisor.at_pc (sup s)); try done; by intros [= <-].
  - destruct (gens s !! n) as [g|] eqn:Hg; [|done].
    unfold Generator.signal_step.
    pose proof (count_insert in_critical _ _ _ (Generator.handle_signal g) Hg) as Hc.
    pose proof (count_insert in_body _ _ _ (Generator.handle_signal g) Hg) as Hb.
    assert (in_critical (Generator.handle_signal g) = in_critical g) as Hcs by reflexivity.
    assert (in_body (Generator.handle_signal g) = in_body g) as Hbs by reflexivity.
    rewrite Hcs in Hc. rewrite Hbs in Hb.
    destruct (Generator.at_pc g) eqn:Eg; try done; intros [= <-]; simpl; lia.
Qed.

Lemma reachable_permits s : reachable s -> permits_ok s.
Proof.
  intros (a & st & gs & ls & Hrun).
  assert (world_ok (shm s) /\ permits_ok s) as [_ H]; [|done].
  eapply (run_invariant (fun s => world_ok (shm s) /\ permits_ok s)); [| |exact Hrun].
  - intros l s0 s1 [Hw Hp] Hstep. split; [by eapply sys_step_world|by eapply sys_step_permits].
  - split; [apply world_ok_init|apply permits_ok_init].
Qed.

End PermitFacts.

(** ** First in, first out *)

Module FifoFacts.
Import SystemFacts PermitFacts.

Lemma run_snoc ls : forall l s s2,
  run (ls ++ [l]) s = Ok s2 -> exists s1, run ls s = Ok s1 /\ sys_step l s1 = Ok s2.
Proof.
  induction ls as [|x ls IH]; intros l s s2; simpl.
  - destruct (sys_step l s) as [s1| |] eqn:E; [|done..]. intros [= <-]. eauto.
  - destruct (sys_step x s) as [s1| |]; [|done..]. apply IH.
Qed.

Lemma steps_snoc ls : forall l s s1 s2,
  run ls s = Ok s1 -> sys_step l s1 = Ok s2 ->
  steps (ls ++ [l]) s = steps ls s ++ [(l, s1, s2)].
Proof.
  induction ls as [|x ls IH]; intros l s s1 s2; simpl.
  - intros [= <-] ->. done.
  - destruct (sys_step x s) as [s'| |]; [|done..]. intros H1 H2. simpl.
    f_equal. by eapply IH.
Qed.

(** An invariant of states together with the steps taken so far. *)
Lemma run_log_invariant (P : system -> list (label * system * system) -> Prop) init :
  P init [] ->
  (forall l s s' log, P s log -> sys_step l s = Ok s' -> P s' (log ++ [(l, s, s')])) ->
  forall ls s, run ls init = Ok s -> P s (steps ls init).
Proof.
  intros Hinit Hstep ls. induction ls as [|l ls IH] using rev_ind; intros s Hrun.
  - simpl in Hrun. injection Hrun as <-. done.
  - apply run_snoc in Hrun as (s1 & Hrun & Hl).
    rewrite (steps_snoc _ _ _ _ _ Hrun Hl). eapply Hstep; [by apply IH|done].
Qed.

Lemma mod_shift r i :
  ((r + 1) mod NUMBER_OF_ENTRIES + i) mod NUMBER_OF_ENTRIES =
  (r + (i + 1)) mod NUMBER_OF_ENTRIES.
Proof. rewrite Zplus_mod_idemp_l. f_equal. lia. Qed.

Lemma mod_apart r i u :
  0 <= i < u -> u < NUMBER_OF_ENTRIES ->
  (r + i) mod NUMBER_OF_ENTRIES <> (r + u) mod NUMBER_OF_ENTRIES.
Proof.
  unfold NUMBER_OF_ENTRIES. intros Hi Hu Heq.
  assert (((r + u) - (r + i)) mod 200 = 0) as H0
    by (rewrite Zminus_mod, Heq, Z.sub_diag; done).
  replace (r + u - (r + i)) with (u - i) in H0 by lia.
  rewrite Z.mod_small in H0; lia.
Qed.

Lemma count_ge_1 (P : Generator.local -> bool) gs n g :
  gs !! n = Some g -> P g = true -> (1 <= List.length (List.filter P gs))%nat.
Proof.
  intros Hg HP. apply list_elem_of_lookup_2, list_elem_of_In in Hg.
  assert (In g (List.filter P gs)) as Hin by (by apply filter_In).
  destruct (List.filter P gs); [done|simpl; lia].
Qed.

Lemma queue_in_frame s s' q :
  entries (cb (shm s')) = entries (cb (shm s)) ->
  rd (cb (shm s')) = rd (cb (shm s)) -> wr (cb (shm s')) = wr (cb (shm s)) ->
  used_sem (shm s') = used_sem (shm s) ->
  queue_in s q -> queue_in s' q.
Proof. unfold queue_in. by intros -> -> -> ->. Qed.

Lemma past_loop_step l s s' :
  sys_step l s = Ok s' -> past_loop (Supervisor.at_pc (sup s)) = true ->
  past_loop (Supervisor.at_pc (sup s')) = true.
Proof.
  intros Hstep Hp. destruct (consumes l s) eqn:Hc.
  - apply ReadFacts.consumes_inv in Hc as (i & _ & Hpc & _). by rewrite Hpc in Hp.
  - by destruct (ReadFacts.sys_step_idle _ _ _ Hc Hstep) as [_ H]; apply H.
Qed.

Lemma fifo_ok_step l s s' log :
  fifo_ok s log -> sys_step l s = Ok s' -> fifo_ok s' (log ++ [(l, s, s')]).
Proof.
  intros (Hw & Hp & q & Hq & Hqueue) Hstep.
  pose proof (sys_step_world _ _ _ Hw Hstep) as Hw'.
  pose proof (sys_step_permits _ _ _ Hw Hp Hstep) as Hp'.
  split; [done|]. split; [done|]. rewrite !flat_map_app. simpl. rewrite !app_nil_r.
  destruct (consumes l s) eqn:Hc.
  - (* a consume *)
    destruct (ReadFacts.consumes_inv _ _ Hc) as (i & -> & Hpc & Hin).
    destruct (ReadFacts.sys_step_sup _ _ _ Hstep) as [Hm Hgens].
    destruct (ReadFacts.supervisor_consume _ _ _ _ _ Hpc Hin Hw Hm)
      as (e & He & Hfree & Hused & Hwrite & Hentries & Hcase).
    rewrite He. destruct Hqueue as (Hlen & Hwr & Hslots); [by rewrite Hpc|].
    destruct q as [|e0 q]; [simpl in Hlen; lia|].
    pose proof (Hslots 0%nat e0 eq_refl) as H0. simpl in H0.
    destruct Hw as (_ & _ & Hrd & _).
    rewrite Z.add_0_r, Z.mod_small in H0 by done. rewrite He in H0. injection H0 as <-.
    exists q. split; [by rewrite app_nil_r, Hq, <- app_assoc|]. intros Hnot.
    destruct (length e =? 0).
    { destruct Hcase as [_ Hs]. rewrite Hs in Hnot. done. }
    destruct Hcase as (Hrd' & _). simpl in Hlen.
    split; [lia|]. split.
    + rewrite (proj1 (supervisor_step_wr _ _ _ _ _ Hm)), Hwr, Hrd'.
      rewrite mod_shift. f_equal. lia.
    + intros j x Hj. rewrite Hentries, Hrd', mod_shift.
      replace (Z.of_nat j + 1) with (Z.of_nat (S j)) by lia. by apply Hslots.
  - (* no consume *)
    destruct l as [i|n i| |n]; simpl in Hstep |- *.
    + destruct (Supervisor.main_step _ _ _) as [[s1 w1]| |] eqn:E; [|done..].
      injection Hstep as <-. exists q. rewrite !app_nil_r. split; [done|]. simpl. intros Hnot.
      destruct (supervisor_idle_world _ _ _ _ _ E) as (_ & Hu & _ & He & Hr & Hwr).
      { simpl in Hc. destruct (Supervisor.at_pc (sup s)); try done. by destruct (in_wait i). }
      eapply (queue_in_frame s); simpl; try done. apply Hqueue.
      destruct (past_loop (Supervisor.at_pc (sup s))) eqn:Hpast; [|done].
      eapply (past_loop_step (L_sup i)) in Hpast; [|simpl; by rewrite E]. simpl in Hpast.
      congruence.
    + destruct (gens s !! n) as [g|] eqn:Hg; [|done].
      destruct (Generator.main_step _ _ _) as [[g1 w1]| |] eqn:E; [|done..].
      injection Hstep as <-. simpl.
      apply generator_step_move in E.
      destruct E as [Hpc Hpc' Hcb Hws Hfs Hus|Hpc Hpc' Hcb Hfs Hws Hus
                    |m e Hpc Hpc' Hm Hpub|Hpc Hcr ->].
      * rewrite (in_body_at _ _ Hpc). exists q. rewrite !app_nil_r. split; [done|].
        intros Hnot. eapply (queue_in_frame s); simpl; rewrite ?Hcb; try done. by apply Hqueue.
      * rewrite (in_body_at _ _ Hpc). exists q. rewrite !app_nil_r. split; [done|].
        intros Hnot. eapply (queue_in_frame s); simpl; rewrite ?Hcb; try done. by apply Hqueue.
      * rewrite (in_body_at _ _ Hpc).
        destruct Hpub as (k & Hk & Hlen & Hent & Hwr' & Hrd' & Hsig & Hus & Hws & Hfs).
        apply slot_Some in Hk as [Hwr_ok ->].
        destruct Hw as (Hlen200 & _ & Hrd & _).
        assert (Z.to_nat (wr (cb (shm s))) < List.length (entries (cb (shm s))))%nat as Hin.
        { rewrite Hlen200. unfold index_ok, NUMBER_OF_ENTRIES in *. lia. }
        rewrite Hent, list_lookup_insert_eq by done.
        exists (q ++ [e]). split; [by rewrite app_nil_r, Hq, app_assoc|]. intros Hnot.
        destruct (Hqueue Hnot) as (Hql & Hwr & Hslots).
        destruct Hp as [_ Hsum]. unfold count_gens in Hsum.
        pose proof (count_ge_1 in_body _ _ _ Hg (in_body_at _ _ Hpc)) as Hone.
        assert (Z.of_nat (used_sem (shm s)) < NUMBER_OF_ENTRIES) as Hbound
          by (unfold NUMBER_OF_ENTRIES in *; lia).
        unfold queue_in. cbn [shm].
        split; [rewrite length_app; simpl; lia|]. split.
        -- rewrite Hwr', Hrd', Hus, (next_index_mod _ Hwr_ok), Hwr.
           rewrite Zplus_mod_idemp_l. f_equal. lia.
        -- intros j x Hj. rewrite Hent, Hrd'.
           apply lookup_app_Some in Hj as [Hj|[Hjl Hj]].
           ++ rewrite list_lookup_insert_ne; [by apply Hslots|].
              apply lookup_lt_Some in Hj. rewrite Hwr. intros Heq.
              apply Z2Nat.inj in Heq;
                [|apply Z.mod_pos_bound; unfold NUMBER_OF_ENTRIES; lia..].
              symmetry in Heq. revert Heq. apply mod_apart; lia.
           ++ apply list_lookup_singleton_Some in Hj as [Hj0 <-].
              replace (Z.of_nat j) with (Z.of_nat (used_sem (shm s))) by lia.
              rewrite <- Hwr. by apply list_lookup_insert_eq.
      * assert (in_body g = false) as ->
          by (unfold in_body; by destruct (Generator.at_pc g)).
        exists q. rewrite !app_nil_r. split; [done|].
        intros Hnot. eapply (queue_in_frame s); simpl; try done. by apply Hqueue.
    + unfold Supervisor.signal_step in Hstep.
      exists q. rewrite !app_nil_r. split; [done|]. intros Hnot.
      assert (queue_in s q) as Hqs.
      { apply Hqueue.
        destruct (Supervisor.at_pc (sup s)) eqn:Hpc; try done; injection Hstep as <-;
          simpl in Hnot; congruence. }
      destruct (Supervisor.at_pc (sup s)); try done; injection Hstep as <-;
        by eapply (queue_in_frame s).
    + destruct (gens s !! n) as [g|] eqn:Hg; [|done].
      destruct (Generator.signal_step g) as [g1| |] eqn:E; [|done..].
      injection Hstep as <-. exists q. rewrite !app_nil_r. split; [done|]. simpl.
      intros Hnot. eapply (queue_in_frame s); simpl; try done. by apply Hqueue.
Qed.

End FifoFacts.

(** ** What the supervisor prints and remembers *)

Module SupervisorFacts.
Import SystemFacts ReadFacts PermitFacts FifoFacts.

(** What a step of the supervisor adds to its trace. *)
Lemma supervisor_idle_out i s w s' w' :
  Supervisor.main_step i s w = Ok (s', w') ->
  match Supervisor.at_pc s, in_wait i with
  | Supervisor.At_wait_used, Acquired => False
  | _, _ => True
  end ->
  exists evs, Supervisor.out s' = Supervisor.out s ++ evs /\
    solution_lengths evs = [] /\ ~ In (Ev_print Msg_3_colorable) evs.
Proof.
  assert (forall evs : list event,
            solution_lengths evs = [] -> ~ In (Ev_print Msg_3_colorable) evs ->
            exists evs', Supervisor.out s ++ evs = Supervisor.out s ++ evs' /\
              solution_lengths evs' = [] /\ ~ In (Ev_print Msg_3_colorable) evs') as Hq.
  { intros evs H1 H2. by exists evs. }
  assert (exists evs', Supervisor.out s = Supervisor.out s ++ evs' /\
              solution_lengths evs' = [] /\ ~ In (Ev_print Msg_3_colorable) evs') as Hn.
  { exists []. rewrite app_nil_r. simpl. auto. }
  unfold Supervisor.main_step. destruct (Supervisor.at_pc s).
  - destruct (Supervisor.args s).
    + repeat (destruct (negb _);
        [intros [= <- <-] _; apply Hq; [reflexivity|];
         unfold print_errno_msg, close_all_sems, close_sem; simpl; intuition discriminate|]).
      intros [= <- <-] _. apply Hq; [reflexivity|]. simpl. intuition discriminate.
    + intros [= <- <-] _. apply Hq; [reflexivity|].
      unfold usage; simpl; intuition discriminate.
  - destruct (negb _); intros [= <- <-] _; exact Hn.
  - destruct (in_wait i); [done|..]; intros [= <- <-] _.
    + exact Hn.
    + apply Hq; [reflexivity|].
      unfold Supervisor.fatal_wait, print_errno_msg, close_all_sems, close_sem; simpl;
        intuition discriminate.
  - intros [= <- <-] _. exact Hn.
  - intros [= <- <-] _. apply Hq; [reflexivity|].
    unfold Supervisor.cleanup, close_all_sems, close_sem; simpl; intuition discriminate.
  - done.
Qed.

Lemma supervisor_consume_out i s w s' w' e :
  Supervisor.at_pc s = Supervisor.At_wait_used -> in_wait i = Acquired ->
  world_ok w ->
  Supervisor.main_step i s w = Ok (s', w') ->
  entries (cb w) !! Z.to_nat (rd (cb w)) = Some e ->
  Supervisor.out s' = Supervisor.out s ++
    (if length e =? 0 then [Ev_print Msg_3_colorable]
     else if length e >=? length (Supervisor.current_best s) then []
          else [Ev_print (Msg_solution (length e) (entry_pairs e))]) /\
  Supervisor.current_best s' =
    (if length e =? 0 then Supervisor.current_best s
     else if length e >=? length (Supervisor.current_best s)
          then Supervisor.current_best s else e) /\
  Supervisor.at_pc s' =
    (if length e =? 0 then Supervisor.At_after_loop else Supervisor.At_loop_top).
Proof.
  intros Hpc Hin (Hlen & Hall & Hrd & Hwr) Hstep He. revert Hstep.
  unfold Supervisor.main_step. rewrite Hpc, Hin. simpl.
  destruct (used_sem w) as [|u]; [done|].
  unfold Supervisor.body. cbn [cb sem_set entries rd].
  assert (Z.rem (rd (cb w)) NUMBER_OF_ENTRIES = rd (cb w)) as ->.
  { unfold index_ok, NUMBER_OF_ENTRIES in *. rewrite Z.rem_mod_nonneg by lia.
    apply Z.mod_small. lia. }
  rewrite (slot_ok _ Hrd), He.
  destruct (length e =? 0); [by intros [= <- <-]|].
  destruct (length e >=? length (Supervisor.current_best s)); intros [= <- <-]; simpl;
    by rewrite ?app_nil_r.
Qed.

Lemma solution_lengths_app evs evs' :
  solution_lengths (evs ++ evs') = solution_lengths evs ++ solution_lengths evs'.
Proof. apply flat_map_app. Qed.

Lemma sorted_snoc (l : list Z) x :
  StronglySorted Z.gt l -> Forall (fun n => n > x) l -> StronglySorted Z.gt (l ++ [x]).
Proof.
  induction 1 as [|a l Hs IH Ha]; intros Hall; simpl.
  - repeat constructor.
  - inversion Hall as [|? ? Hax Hl]. subst. constructor; [by apply IH|].
    apply Forall_app. split; [done|]. by constructor.
Qed.


Lemma quiet_move_refl s : quiet_move s s.
Proof.
  unfold quiet_move. split; [done|]. split; [by intros ->|]. split; [done|].
  exists []. rewrite app_nil_r. simpl. auto.
Qed.

Lemma supervisor_idle_move i s w s' w' :
  Supervisor.main_step i s w = Ok (s', w') ->
  match Supervisor.at_pc s, in_wait i with
  | Supervisor.At_wait_used, Acquired => False
  | _, _ => True
  end ->
  quiet_move s s'.
Proof.
  intros Hstep Hidle. unfold quiet_move.
  split; [|split; [|split; [|by eapply supervisor_idle_out]]]; revert Hstep Hidle;
    unfold Supervisor.main_step; destruct (Supervisor.at_pc s) eqn:Hpc; try done.
  - destruct (Supervisor.args s); [|by intros [= <- <-]].
    repeat (destruct (negb _); [by intros [= <- <-]|]). by intros [= <- <-].
  - destruct (negb _); by intros [= <- <-].
  - destruct (in_wait i); [done|by intros [= <- <-]..].
  - by intros [= <- <-].
  - by intros [= <- <-].
  - destruct (Supervisor.args s); [|by intros [= <- <-]].
    repeat (destruct (negb _); [by intros [= <- <-]|]). by intros [= <- <-].
  - destruct (negb _); by intros [= <- <-].
  - destruct (in_wait i); [done|by intros [= <- <-]..].
  - by intros [= <- <-].
  - by intros [= <- <-].
Qed.

Lemma supervisor_signal_move s s' :
  Supervisor.signal_step s = Ok s' -> quiet_move s s'.
Proof.
  unfold Supervisor.signal_step, quiet_move.
  destruct (Supervisor.at_pc s) eqn:Hpc; try done; intros [= <-]; simpl; rewrite Hpc;
    (repeat split; try done; eexists; split; [reflexivity|]; simpl; intuition discriminate).
Qed.

Lemma sys_step_quiet l s s' :
  consumes l s = false -> sys_step l s = Ok s' ->
  quiet_move (sup s) (sup s') /\ consumed_at (l, s, s') = [].
Proof.
  intros Hc Hstep. split; [|by unfold consumed_at; rewrite Hc].
  destruct l as [i|n i| |n]; simpl in *.
  - destruct (Supervisor.main_step _ _ _) as [[s1 w1]| |] eqn:E; [|done..].
    injection Hstep as <-. simpl. eapply supervisor_idle_move; [done|].
    destruct (Supervisor.at_pc (sup s)); try done. by destruct (in_wait i).
  - destruct (gens s !! n) as [g|]; [|done].
    destruct (Generator.main_step _ _ _) as [[g1 w1]| |] eqn:E; [|done..].
    injection Hstep as <-. apply quiet_move_refl.
  - destruct (Supervisor.signal_step _) as [s1| |] eqn:E; [|done..].
    injection Hstep as <-. by apply supervisor_signal_move.
  - destruct (gens s !! n) as [g|]; [|done].
    destruct (Generator.signal_step _); [|done..]. injection Hstep as <-.
    apply quiet_move_refl.
Qed.

Lemma sys_step_consume l s s' :
  consumes l s = true -> world_ok (shm s) -> sys_step l s = Ok s' ->
  exists e, entries (cb (shm s)) !! Z.to_nat (rd (cb (shm s))) = Some e /\
    entry_ok e /\
    consumed_at (l, s, s') = [e] /\
    Supervisor.out (sup s') = Supervisor.out (sup s) ++
      (if length e =? 0 then [Ev_print Msg_3_colorable]
       else if length e >=? length (Supervisor.current_best (sup s)) then []
            else [Ev_print (Msg_solution (length e) (entry_pairs e))]) /\
    Supervisor.current_best (sup s') =
      (if length e =? 0 then Supervisor.current_best (sup s)
       else if length e >=? length (Supervisor.current_best (sup s))
            then Supervisor.current_best (sup s) else e) /\
    Supervisor.at_pc (sup s') =
      (if length e =? 0 then Supervisor.At_after_loop else Supervisor.At_loop_top).
Proof.
  intros Hc Hw Hstep. destruct (consumes_inv _ _ Hc) as (i & -> & Hpc & Hin).
  apply ReadFacts.sys_step_sup in Hstep as [Hstep _].
  destruct (ReadFacts.supervisor_consume _ _ _ _ _ Hpc Hin Hw Hstep) as (e & He & _).
  exists e. split; [done|]. split.
  { destruct Hw as (_ & Hall & _). rewrite List.Forall_forall in Hall. apply Hall.
    eapply list_elem_of_In, list_elem_of_lookup_2. exact He. }
  split; [by unfold consumed_at; rewrite Hc, He|].
  by eapply supervisor_consume_out.
Qed.

Lemma zero_or_not (con : list cb_entry_t) :
  (exists e, In e con /\ length e <> 0) \/ (forall e, In e con -> length e = 0).
Proof.
  induction con as [|a con [(e & He & Hn)|IH]].
  - right. by intros e [].
  - left. exists e. split; [by right|done].
  - destruct (Z.eq_dec (length a) 0) as [Ha|Ha].
    + right. intros e [<-|He]; [done|by apply IH].
    + left. exists a. split; [by left|done].
Qed.

Lemma pc_start_dec (p : Supervisor.pc) :
  p = Supervisor.At_start \/ p <> Supervisor.At_start.
Proof. destruct p; auto. Qed.

Lemma best_ok_step l s s' con :
  world_ok (shm s) -> best_ok s con -> sys_step l s = Ok s' ->
  best_ok s' (con ++ consumed_at (l, s, s')).
Proof.
  intros Hw (Hb0 & Hb1 & Hb2 & Hb3) Hstep. destruct (consumes l s) eqn:Hc.
  - destruct (sys_step_consume _ _ _ Hc Hw Hstep)
      as (e & He & (Hlen & _) & -> & _ & Hbest & Hpc').
    destruct (consumes_inv _ _ Hc) as (i & -> & Hpc & Hin).
    rewrite Hpc in Hb3. specialize (Hb3 eq_refl).
    unfold best_ok. rewrite Hbest, Hpc'. clear Hbest Hpc'.
    destruct (length e =? 0) eqn:Hz; [apply Z.eqb_eq in Hz|apply Z.eqb_neq in Hz].
    + split; [done|]. split; [|split; [|done]].
      * intros e' [He'|[<-|[]]]%in_app_iff Hn; [by apply Hb1|done].
      * intros (e' & [He'|[<-|[]]]%in_app_iff & Hn); [|done].
        apply in_app_iff. left. apply Hb2. by exists e'.
    + assert (In e (con ++ [e])) as Hin_e by (apply in_app_iff; right; by left).
      destruct (length e >=? length (Supervisor.current_best (sup s))) eqn:Hge.
      * split; [done|]. split; [|split].
        -- intros e' [He'|[<-|[]]]%in_app_iff Hn; [by apply Hb1|lia].
        -- intros _. apply in_app_iff. left.
           destruct (zero_or_not con) as [Hex|Hzero]; [by apply Hb2|].
           specialize (Hb3 Hzero). unfold INT_MAX, MAXIMUM_SOLUTION_LENGTH in *. lia.
        -- intros _ Hzero. by specialize (Hzero e Hin_e).
      * split; [done|]. split; [|split].
        -- intros e' [He'|[<-|[]]]%in_app_iff Hn; [|lia].
           specialize (Hb1 e' He' Hn). lia.
        -- done.
        -- intros _ Hzero. by specialize (Hzero e Hin_e).
  - destruct (sys_step_quiet _ _ _ Hc Hstep) as ((Q1 & Q2 & Q3 & _) & ->).
    rewrite app_nil_r. unfold best_ok.
    destruct (pc_start_dec (Supervisor.at_pc (sup s))) as [Hpc|Hpc].
    + rewrite (Hb0 Hpc). split; [done|]. split; [by intros e []|].
      split; [by intros (e & [] & _)|]. intros Hl _. by apply Q2.
    + destruct (Q3 Hpc) as (Hpc' & -> & Hl). split; [done|]. split; [done|].
      split; [done|]. intros Hl'. apply Hb3. by apply Hl.
Qed.

Lemma last_snoc (l : list Z) x d : List.last (l ++ [x]) d = x.
Proof. apply last_last. Qed.

Lemma solutions_ok_step l s s' :
  world_ok (shm s) -> solutions_ok s -> sys_step l s = Ok s' -> solutions_ok s'.
Proof.
  intros Hw (S0 & S1 & S2 & S3) Hstep. destruct (consumes l s) eqn:Hc.
  - destruct (sys_step_consume _ _ _ Hc Hw Hstep)
      as (e & He & (Hlen & _) & _ & Hout & Hbest & Hpc').
    unfold solutions_ok. rewrite Hout, Hbest, Hpc', solution_lengths_app.
    clear Hout Hbest Hpc'.
    destruct (length e =? 0) eqn:Hz;
      [simpl; rewrite app_nil_r; by repeat split|apply Z.eqb_neq in Hz].
    split; [done|].
    destruct (length e >=? length (Supervisor.current_best (sup s))) eqn:Hge;
      [simpl; rewrite app_nil_r; by repeat split|].
    simpl solution_lengths. split; [|split].
    + apply sorted_snoc; [done|]. eapply Forall_impl; [exact S2|].
      intros n [_ Hn]. simpl in Hn. lia.
    + apply Forall_app. split.
      * eapply Forall_impl; [exact S2|]. intros n [Hn1 Hn]. simpl in *. lia.
      * constructor; [|done]. lia.
    + apply last_snoc.
  - destruct (sys_step_quiet _ _ _ Hc Hstep)
      as ((Q1 & Q2 & Q3 & evs & Hout & Hevs & _) & _).
    unfold solutions_ok. rewrite Hout, solution_lengths_app, Hevs, app_nil_r.
    split.
    { intros Hpc'. rewrite <- Hout, (Q1 Hpc'). apply S0. by rewrite <- (Q1 Hpc'). }
    destruct (pc_start_dec (Supervisor.at_pc (sup s))) as [Hpc|Hpc].
    + rewrite (S0 Hpc). simpl. repeat split; constructor.
    + destruct (Q3 Hpc) as (_ & -> & _). by repeat split.
Qed.

Lemma announce_ok_step l s s' con :
  world_ok (shm s) -> announce_ok s con -> sys_step l s = Ok s' ->
  announce_ok s' (con ++ consumed_at (l, s, s')).
Proof.
  unfold announce_ok. intros Hw Ha Hstep. destruct (consumes l s) eqn:Hc.
  - destruct (sys_step_consume _ _ _ Hc Hw Hstep) as (e & _ & _ & -> & -> & _).
    destruct (length e =? 0) eqn:Hz; [apply Z.eqb_eq in Hz|apply Z.eqb_neq in Hz].
    + split; intros _.
      * exists e. split; [|done]. apply in_app_iff. right. by left.
      * apply in_app_iff. right. by left.
    + assert ((exists e0, In e0 (con ++ [e]) /\ length e0 = 0) <->
              (exists e0, In e0 con /\ length e0 = 0)) as ->.
      { split.
        - intros (e0 & [H|[<-|[]]]%in_app_iff & Hn); [by exists e0|done].
        - intros (e0 & H & Hn). exists e0. split; [|done]. apply in_app_iff. by left. }
      rewrite <- Ha. rewrite in_app_iff.
      destruct (_ >=? _); simpl; intuition discriminate.
  - destruct (sys_step_quiet _ _ _ Hc Hstep) as ((_ & _ & _ & evs & -> & _ & Hno) & ->).
    rewrite app_nil_r, <- Ha, in_app_iff. tauto.
Qed.

Lemma supervisor_log_init a st gs : supervisor_log_ok (system_init a st gs) [].
Proof.
  split; [apply world_ok_init|]. split; [|split].
  - split; [done|]. split; [by intros e []|]. split; [by intros (e & [] & _)|]. done.
  - split; [done|]. simpl. repeat split; constructor.
  - split; [done|]. by intros (e & [] & _).
Qed.

Lemma run_supervisor_log a st gs ls s :
  run ls (system_init a st gs) = Ok s ->
  supervisor_log_ok s (steps ls (system_init a st gs)).
Proof.
  apply (run_log_invariant supervisor_log_ok); [apply supervisor_log_init|].
  intros l s0 s1 log (Hw & Hb & Hs & Ha) Hstep. unfold supervisor_log_ok.
  rewrite flat_map_app. simpl flat_map. rewrite app_nil_r.
  split; [by eapply sys_step_world|]. split; [by apply best_ok_step|].
  split; [by eapply solutions_ok_step|by apply announce_ok_step].
Qed.

(** The flag in the shared memory follows the supervisor. *)
Lemma sys_step_flag l s s' :
  signal (cb (shm s)) = (if flag_pc (Supervisor.at_pc (sup s)) then 1 else 0) ->
  sys_step l s = Ok s' ->
  signal (cb (shm s')) = (if flag_pc (Supervisor.at_pc (sup s')) then 1 else 0).
Proof.
  intros Hf. destruct l as [i|n i| |n]; simpl.
  - unfold Supervisor.main_step. destruct (Supervisor.at_pc (sup s)) eqn:Hpc.
    + destruct (Supervisor.args (sup s)); [|by intros [= <-]].
      repeat (destruct (negb _); [by intros [= <-]|]). by intros [= <-].
    + destruct (negb _); by intros [= <-].
    + destruct (in_wait i); [|by intros [= <-]..].
      destruct (sem_wait _ _ _) as [w1| |] eqn:Hw1; [|done..].
      apply sem_wait_cb in Hw1. unfold Supervisor.body. rewrite Hw1.
      destruct (slot _) as [k0|]; [|done]. destruct (_ !! k0) as [e0|]; [|done].
      destruct (length e0 =? 0); [intros [= <-]; simpl; by rewrite Hw1|].
      destruct (slot _) as [k|]; [|done]. destruct (_ !! k) as [e|]; [|done].
      destruct (_ >=? _); intros [= <-]; simpl; by rewrite Hw1.
    + by intros [= <-].
    + by intros [= <-].
    + done.
  - destruct (gens s !! n) as [g|]; [|done].
    destruct (Generator.main_step _ _ _) as [[g1 w1]| |] eqn:E; [|done..].
    intros [= <-]. simpl. by rewrite (FlagFacts.generator_step_signal _ _ _ _ _ E).
  - unfold Supervisor.signal_step.
    destruct (Supervisor.at_pc (sup s)) eqn:Hpc; try done; intros [= <-]; simpl;
      by rewrite Hf, Hpc.
  - destruct (gens s !! n) as [g|]; [|done].
    destruct (Generator.signal_step _); [|done..]. by intros [= <-].
Qed.

Lemma reachable_flag s :
  reachable s ->
  signal (cb (shm s)) = (if flag_pc (Supervisor.at_pc (sup s)) then 1 else 0).
Proof.
  intros (a & st & gs & ls & Hrun).
  eapply (run_invariant
            (fun s => signal (cb (shm s)) =
                      (if flag_pc (Supervisor.at_pc (sup s)) then 1 else 0)));
    [| |exact Hrun].
  - intros l s0 s1 H Hstep. by eapply sys_step_flag.
  - done.
Qed.

End SupervisorFacts.

(** ** Where an entry comes from *)

Module OriginFacts.
Import SystemFacts ReadFacts PermitFacts FifoFacts SupervisorFacts.

Lemma randomize_ext r vs : forall vs' n,
  map key vs = map key vs' -> randomize r n vs = randomize r n vs'.
Proof.
  induction vs as [|v vs IH]; intros [|v' vs'] n; simpl; try done.
  intros [= Hk Hvs]. by rewrite Hk, (IH vs' (S n) Hvs).
Qed.

Lemma randomize_colors r vs : forall n,
  (forall k, 0 <= r k) -> Forall (fun v => 0 <= color v <= 2) (randomize r n vs).
Proof.
  induction vs as [|v vs IH]; intros n Hr; simpl; constructor; [|by apply IH].
  simpl. specialize (Hr n). rewrite Z.rem_mod_nonneg by lia.
  pose proof (Z.mod_pos_bound (r n) 3). lia.
Qed.

(** The entry the loop body leaves in the slot at [wr]. *)
Lemma body_entry g w g' w' :
  generator_graph_ok g -> world_ok w ->
  Generator.body g w = Ok (g', w') ->
  let vs := randomize (Generator.rand g) (Generator.rand_calls g)
              (Graph.vertices (Generator.graph g)) in
  let cs := conflict_set vs (Graph.edges (Generator.graph g)) in
  exists e, entries (cb w') !! Z.to_nat (wr (cb w)) = Some e /\
    length e = Z.of_nat (Nat.min MAXIMUM_SOLUTION_LENGTH (List.length cs)) /\
    map Some (entry_pairs e) = map (edge_keys vs) (take MAXIMUM_SOLUTION_LENGTH cs).
Proof.
  intros Hwf (Hlen & Hall & Hrd & Hwr). unfold Generator.body. cbn zeta.
  cbn [Generator.recolor Generator.graph Graph.vertices Graph.edges].
  set (vs := randomize _ _ _). set (es := Graph.edges (Generator.graph g)).
  assert (wf_edges vs es) as Hwf' by (by apply SearchFacts.wf_edges_randomize).
  rewrite (slot_ok _ Hwr).
  destruct (lookup_lt_is_Some_2 (entries (cb w)) (Z.to_nat (wr (cb w)))) as [old Hold].
  { rewrite Hlen. unfold index_ok, NUMBER_OF_ENTRIES in *. lia. }
  assert (entry_ok old) as Hok.
  { rewrite List.Forall_forall in Hall. apply Hall.
    eapply list_elem_of_In, list_elem_of_lookup_2. exact Hold. }
  destruct (SearchFacts.attempt_entry vs es old Hwf' Hok)
    as (rc & e & Hrc & Hrc' & He & Hel & Hpairs & _).
  rewrite Hrc. fold (overflow rc).
  rewrite (AttemptFacts.overflow_false rc)
    by (by eapply SearchFacts.set_removal_candidates_length).
  rewrite Hold, He. intros [= <- <-]. exists e. cbn [cb sem_post sem_set set_cb entries].
  split; [|split; [done|by rewrite Hpairs, Hrc']].
  rewrite ?cb_sem_post. cbn [cb set_cb entries].
  apply list_lookup_insert_eq. by eapply lookup_lt_Some.
Qed.

Lemma generator_step_origin a r i g w g' w' :
  Generator.main_step i g w = Ok (g', w') -> origin a r g -> origin a r g'.
Proof.
  unfold origin. intros Hstep (<- & <- & Hpc). revert Hstep Hpc.
  unfold Generator.main_step. destruct (Generator.at_pc g) eqn:Hat.
  - destruct (Generator.args g) eqn:Hargs;
      [intros [= <- <-] _; simpl; repeat split; congruence|]. rewrite <- Hargs.
    destruct (Graph.parse_argv _) as [gr|] eqn:Hgr;
      [|intros [= <- <-] _; simpl; repeat split; congruence].
    repeat (destruct (negb _); [intros [= <- <-] _; simpl; repeat split; congruence|]).
    intros [= <- <-] Hcalls. simpl. split; [done|]. split; [done|].
    by exists gr, 0%nat.
  - destruct (_ && _); by intros [= <- <-].
  - destruct (in_wait i); [|by intros [= <- <-]..].
    destruct (sem_wait _ _ _); [|done..]. by intros [= <- <-].
  - destruct (in_wait i); [|by intros [= <- <-]..].
    destruct (sem_wait _ _ _); [|done..]. by intros [= <- <-].
  - intros H (gr & j & Hgr & Hkeys & Hedges & Hcalls).
    apply AttemptFacts.body_publishes in H as (rc & e & _ & _ & _ & ->).
    simpl. split; [done|]. split; [done|]. exists gr, (S j).
    split; [done|]. split; [by rewrite SearchFacts.randomize_keys|]. split; [done|].
    rewrite Hcalls. apply (f_equal (@List.length Z)) in Hkeys.
    rewrite !length_map in Hkeys. rewrite Hkeys. lia.
  - by intros [= <- <-].
  - done.
Qed.

Lemma generator_signal_origin a r g g' :
  Generator.signal_step g = Ok g' -> origin a r g -> origin a r g'.
Proof.
  unfold origin, Generator.signal_step. intros Hstep (Ha & Hr & Hpc).
  destruct (Generator.at_pc g) eqn:Hat; try done; injection Hstep as <-; simpl;
    by rewrite Hat.
Qed.

Lemma origins_insert gs s n g g' w sp :
  origins gs s -> gens s !! n = Some g ->
  (forall a r, origin a r g -> origin a r g') ->
  origins gs {| shm := w; sup := sp; gens := <[n := g']> (gens s) |}.
Proof.
  intros Ho Hg Hstep m g0. simpl. intros Hm.
  destruct (decide (n = m)) as [<-|Hne].
  - rewrite list_lookup_insert_eq in Hm by (by eapply lookup_lt_Some).
    injection Hm as <-. destruct (Ho n g Hg) as (a & r & Hgs & Hor).
    exists a, r. split; [done|]. by apply Hstep.
  - rewrite list_lookup_insert_ne in Hm by done. by apply Ho.
Qed.

Lemma published_ok_step gs l s s' log :
  published_ok gs s log -> sys_step l s = Ok s' ->
  published_ok gs s' (log ++ [(l, s, s')]).
Proof.
  intros (Hw & Hwf & Ho & Hall) Hstep. unfold published_ok.
  rewrite flat_map_app. simpl flat_map. rewrite app_nil_r.
  split; [by eapply sys_step_world|].
  split; [by eapply SafetyFacts.sys_step_graphs|].
  destruct l as [i|n i| |n]; simpl in Hstep.
  - destruct (Supervisor.main_step _ _ _) as [[s1 w1]| |]; [|done..].
    injection Hstep as <-. split; [done|]. simpl. by rewrite app_nil_r.
  - simpl. destruct (gens s !! n) as [g|] eqn:Hg; [|done].
    destruct (Generator.main_step _ _ _) as [[g1 w1]| |] eqn:E; [|done..].
    injection Hstep as <-. split.
    { eapply origins_insert; [done..|]. intros a r. by eapply generator_step_origin. }
    apply Forall_app. split; [done|].
    destruct (in_body g) eqn:Hb; [|constructor].
    unfold in_body in Hb. unfold Generator.main_step in E.
    destruct (Ho n g Hg) as (a & r & Hgs & Ha & Hr & Hpc).
    destruct (Generator.at_pc g) eqn:Hat; try done.
    destruct Hpc as (gr & j & Hgr & Hkeys & Hedges & Hcalls).
    pose proof (Forall_lookup_1 _ _ _ _ Hwf Hg) as Hgok.
    destruct (body_entry _ _ _ _ Hgok Hw E) as (e & He & Hlen & Hpairs).
    cbn [shm]. rewrite He. constructor; [|constructor].
    exists n, a, r, gr, j. split; [done|]. split; [done|].
    unfold entry_of_attempt, attempt_coloring. cbn zeta.
    rewrite <- Hcalls, <- Hedges, <- Hr, <- (randomize_ext _ _ _ _ Hkeys). done.
  - destruct (Supervisor.signal_step _); [|done..]. injection Hstep as <-.
    split; [done|]. simpl. by rewrite app_nil_r.
  - simpl. destruct (gens s !! n) as [g|] eqn:Hg; [|done].
    destruct (Generator.signal_step _) as [g1| |] eqn:E; [|done..].
    injection Hstep as <-. split; [|by rewrite app_nil_r].
    eapply origins_insert; [done..|]. intros a r. by eapply generator_signal_origin.
Qed.

Lemma published_ok_init a st gs : published_ok gs (system_init a st gs) [].
Proof.
  split; [apply world_ok_init|]. split; [|split; [|constructor]].
  - simpl. apply List.Forall_forall. intros g Hg.
    apply in_map_iff in Hg as ([a0 r0] & <- & _). intros e [].
  - intros n g. simpl. rewrite list_lookup_fmap.
    destruct (gs !! n) as [[a0 r0]|]; [|done]. intros [= <-]. by exists a0, r0.
Qed.

Lemma run_published a st gs ls s :
  run ls (system_init a st gs) = Ok s ->
  published_ok gs s (steps ls (system_init a st gs)).
Proof.
  apply (run_log_invariant (published_ok gs)); [apply published_ok_init|].
  intros l s0 s1 log H Hstep. by apply published_ok_step.
Qed.

End OriginFacts.

(** ** More on runs *)

Module RunFacts.
Import SystemFacts ReadFacts PermitFacts FifoFacts SupervisorFacts OriginFacts.

Lemma count_two (P : Generator.local -> bool) gs : forall n m g g',
  gs !! n = Some g -> gs !! m = Some g' -> n <> m -> P g = true -> P g' = true ->
  (2 <= List.length (List.filter P gs))%nat.
Proof.
  induction gs as [|x gs IH]; intros [|n] [|m] g g' Hn Hm Hne Hg Hg'; simpl in *;
    try done.
  - injection Hn as ->. rewrite Hg. simpl.
    pose proof (count_ge_1 P gs m g' Hm Hg'). lia.
  - injection Hm as ->. rewrite Hg'. simpl.
    pose proof (count_ge_1 P gs n g Hn Hg). lia.
  - assert (n <> m) as Hne' by congruence.
    specialize (IH n m g g' Hn Hm Hne' Hg Hg'). destruct (P x); simpl; lia.
Qed.

Lemma solution_in_lengths n ps evs :
  In (Ev_print (Msg_solution n ps)) evs -> In n (solution_lengths evs).
Proof.
  intros H. unfold solution_lengths. apply in_flat_map.
  exists (Ev_print (Msg_solution n ps)). split; [done|]. by left.
Qed.

Lemma printed_ok_step l s s' log :
  printed_ok s log -> sys_step l s = Ok s' -> printed_ok s' (log ++ [(l, s, s')]).
Proof.
  intros (Hw & Hs) Hstep. split; [by eapply sys_step_world|].
  rewrite flat_map_app.
  change (flat_map consumed_at [(l, s, s')]) with (consumed_at (l, s, s') ++ []).
  rewrite app_nil_r.
  intros n ps. destruct (consumes l s) eqn:Hc.
  - destruct (sys_step_consume _ _ _ Hc Hw Hstep) as (e & _ & _ & -> & -> & _).
    intros [Hin|Hin]%in_app_iff.
    + destruct (Hs n ps Hin) as (e0 & He0 & Hn). exists e0.
      split; [|done]. apply in_app_iff. by left.
    + destruct (length e =? 0); [by destruct Hin as [|[]]|].
      destruct (_ >=? _); [done|]. destruct Hin as [[= <- <-]|[]].
      exists e. split; [|done]. apply in_app_iff. right. by left.
  - destruct (sys_step_quiet _ _ _ Hc Hstep) as ((_ & _ & _ & evs & -> & Hevs & _) & ->).
    rewrite app_nil_r. intros [Hin|Hin]%in_app_iff; [by apply Hs|].
    apply solution_in_lengths in Hin. rewrite Hevs in Hin. done.
Qed.

Lemma randomize_lookup r vs : forall n i v,
  randomize r n vs !! i = Some v -> color v = Z.rem (r (n + i)%nat) 3.
Proof.
  induction vs as [|u vs IH]; intros n [|i] v; simpl; try done.
  - intros [= <-]. simpl. by rewrite Nat.add_0_r.
  - intros H. rewrite (IH (S n) i v H). f_equal. f_equal. lia.
Qed.

(** An entry of an attempt that is not full lists every conflict. *)
Lemma entry_of_attempt_whole r gr j e :
  entry_of_attempt r gr j e -> length e < Z.of_nat MAXIMUM_SOLUTION_LENGTH ->
  length e = Z.of_nat (List.length (conflict_set (attempt_coloring r gr j) (Graph.edges gr))) /\
  map Some (entry_pairs e) =
    map (edge_keys (attempt_coloring r gr j))
        (conflict_set (attempt_coloring r gr j) (Graph.edges gr)).
Proof.
  intros [Hlen Hpairs] Hlt. cbn zeta in *.
  assert (List.length (conflict_set (attempt_coloring r gr j) (Graph.edges gr))
          < MAXIMUM_SOLUTION_LENGTH)%nat as Hc by lia.
  split; [lia|]. rewrite Hpairs. f_equal. apply take_ge. lia.
Qed.

Lemma supervisor_step_flag_stays i s w s' w' :
  Supervisor.main_step i s w = Ok (s', w') -> signal (cb w) = 1 -> signal (cb w') = 1.
Proof.
  unfold Supervisor.main_step. destruct (Supervisor.at_pc s).
  - destruct (Supervisor.args s); [|by intros [= <- <-]].
    repeat (destruct (negb _); [by intros [= <- <-]|]). by intros [= <- <-].
  - destruct (negb _); by intros [= <- <-].
  - destruct (in_wait i); [|by intros [= <- <-]..].
    destruct (sem_wait _ _ _) as [w1| |] eqn:Hw1; [|done..].
    apply sem_wait_cb in Hw1. unfold Supervisor.body. rewrite Hw1.
    destruct (slot _) as [k0|]; [|done]. destruct (_ !! k0) as [e0|]; [|done].
    destruct (length e0 =? 0); [intros [= <- <-]; simpl; by rewrite Hw1|].
    destruct (slot _) as [k|]; [|done]. destruct (_ !! k) as [e|]; [|done].
    destruct (_ >=? _); intros [= <- <-]; simpl; by rewrite Hw1.
  - by intros [= <- <-].
  - by intros [= <- <-].
  - done.
Qed.

Lemma generator_step_rest i g w g' w' :
  Generator.main_step i g w = Ok (g', w') -> told_to_stop g w ->
  Generator.quit g' = Generator.quit g /\
  (generator_rest (Generator.at_pc g') < generator_rest (Generator.at_pc g))%nat.
Proof.
  unfold told_to_stop, Generator.main_step. intros Hstep Hstop. revert Hstep.
  destruct (Generator.at_pc g) eqn:Hpc.
  - destruct (Generator.args g); [intros [= <- <-]; simpl; split; [done|lia]|].
    destruct (Graph.parse_argv _); [|intros [= <- <-]; simpl; split; [done|lia]].
    repeat (destruct (negb (_ i)); [intros [= <- <-]; simpl; split; [done|lia]|]).
    intros [= <- <-]. simpl. split; [done|lia].
  - assert (negb (Generator.quit g) && (signal (cb w) =? 0) = false) as ->.
    { destruct Hstop as [-> | ->]; [done|]. by rewrite andb_false_r. }
    intros [= <- <-]. simpl. split; [done|lia].
  - destruct (in_wait i); [|intros [= <- <-]; simpl; split; [done|lia]..].
    destruct (sem_wait _ _ _); [|done..]. intros [= <- <-]. simpl. split; [done|lia].
  - destruct (in_wait i); [|intros [= <- <-]; simpl; split; [done|lia]..].
    destruct (sem_wait _ _ _); [|done..]. intros [= <- <-]. simpl. split; [done|lia].
  - intros H. apply AttemptFacts.body_publishes in H as (rc & e & _ & _ & _ & ->).
    simpl. split; [done|lia].
  - intros [= <- <-]. simpl. split; [done|lia].
  - done.
Qed.

End RunFacts.

(** ** What the supervisor leaves behind *)

Module ExitFacts.
Import SystemFacts.

Lemma supervisor_trace_leave evs st s :
  Forall (fun e => is_print e = true) (Supervisor.out s) -> supervisor_exit_tail st evs ->
  supervisor_trace_ok (Supervisor.leave evs st s).
Proof. intros Hp Ht. unfold supervisor_trace_ok. simpl. eauto. Qed.

Lemma supervisor_step_trace i s w s' w' :
  Supervisor.main_step i s w = Ok (s', w') ->
  supervisor_trace_ok s -> supervisor_trace_ok s'.
Proof.
  unfold Supervisor.main_step. intros Hstep Hs.
  destruct (Supervisor.at_pc s) eqn:Hpc;
    try (assert (Forall (fun e => is_print e = true) (Supervisor.out s)) as Hout
           by (unfold supervisor_trace_ok in Hs; by rewrite Hpc in Hs)).
  - destruct (Supervisor.args s).
    2: { injection Hstep as <- _. apply supervisor_trace_leave; [done|]. right. auto. }
    destruct (negb (in_shm_open i)).
    { injection Hstep as <- _. apply supervisor_trace_leave; [done|]. right. auto. }
    destruct (negb (in_ftruncate i)).
    { injection Hstep as <- _. apply supervisor_trace_leave; [done|]. right. auto 6. }
    destruct (negb (in_mmap i)).
    { injection Hstep as <- _. apply supervisor_trace_leave; [done|]. right. auto 8. }
    destruct (negb (in_sem_open i)).
    { injection Hstep as <- _. apply supervisor_trace_leave; [done|]. right. auto 10. }
    injection Hstep as <- _. unfold supervisor_trace_ok. simpl.
    apply Forall_app. split; [done|]. by repeat constructor.
  - destruct (negb _); injection Hstep as <- _; done.
  - destruct (in_wait i).
    + destruct (sem_wait _ _ _) as [w1| |]; [|done..]. revert Hstep.
      unfold Supervisor.body.
      destruct (slot _) as [k0|]; [|done]. destruct (_ !! k0) as [e0|]; [|done].
      destruct (length e0 =? 0).
      { intros [= <- _]. unfold supervisor_trace_ok. simpl.
        apply Forall_app. split; [done|]. by repeat constructor. }
      destruct (slot _) as [k|]; [|done]. destruct (_ !! k) as [e|]; [|done].
      destruct (_ >=? _); intros [= <- _]; unfold supervisor_trace_ok; simpl; [done|].
      apply Forall_app. split; [done|]. by repeat constructor.
    + injection Hstep as <- _. done.
    + injection Hstep as <- _. apply supervisor_trace_leave; [done|]. right. auto 12.
  - injection Hstep as <- _. done.
  - injection Hstep as <- _. apply supervisor_trace_leave; [done|]. by left.
  - done.
Qed.

Lemma supervisor_signal_trace s s' :
  Supervisor.signal_step s = Ok s' -> supervisor_trace_ok s -> supervisor_trace_ok s'.
Proof.
  unfold Supervisor.signal_step, supervisor_trace_ok.
  destruct (Supervisor.at_pc s) eqn:Hpc; try done; intros [= <-] Hs; simpl; rewrite Hpc;
    (apply Forall_app; split; [done|]; by repeat constructor).
Qed.

Lemma reachable_supervisor_trace s : reachable s -> supervisor_trace_ok (sup s).
Proof.
  intros (a & st & gs & ls & Hrun).
  eapply (run_invariant (fun s => supervisor_trace_ok (sup s))); [| |exact Hrun].
  - intros l s0 s1 Hs. destruct l as [i|n i| |n]; simpl.
    + destruct (Supervisor.main_step _ _ _) as [[s2 w2]| |] eqn:E; [|done..].
      intros [= <-]. simpl. by eapply supervisor_step_trace.
    + destruct (gens s0 !! n) as [g|]; [|done].
      destruct (Generator.main_step _ _ _) as [[g1 w1]| |]; [|done..]. by intros [= <-].
    + destruct (Supervisor.signal_step _) as [s2| |] eqn:E; [|done..].
      intros [= <-]. simpl. by eapply supervisor_signal_trace.
    + destruct (gens s0 !! n) as [g|]; [|done].
      destruct (Generator.signal_step _); [|done..]. by intros [= <-].
  - by constructor.
Qed.

Lemma prints_only pre e :
  Forall (fun e => is_print e = true) pre -> is_print e = false -> ~ In e pre.
Proof.
  intros Hp He Hin. rewrite List.Forall_forall in Hp. specialize (Hp e Hin). congruence.
Qed.

End ExitFacts.

(** ** Runs on an object that is already there *)

Module StartFacts.
Import SystemFacts ReadFacts PermitFacts FifoFacts SupervisorFacts OriginFacts RunFacts.

Lemma system_on_init a st gs : system_init a st gs = system_on (cb world_init) a st gs.
Proof. reflexivity. Qed.

Lemma run_world_on c a st gs ls s :
  world_ok (world_on c) -> run ls (system_on c a st gs) = Ok s -> world_ok (shm s).
Proof.
  intros Hc Hrun.
  refine (run_invariant (fun s => world_ok (shm s)) _ ls (system_on c a st gs) s Hc Hrun).
  intros l s0 s1 Hs Hstep. by eapply sys_step_world.
Qed.

Lemma permits_ok_on c a st gs : permits_ok (system_on c a st gs).
Proof. exact (permits_ok_init a st gs). Qed.

Lemma fifo_ok_on c a st gs :
  world_ok (world_on c) -> rd c = wr c -> fifo_ok (system_on c a st gs) [].
Proof.
  intros Hc Heq. split; [exact Hc|]. split; [apply permits_ok_on|].
  exists []. split; [done|]. intros _. unfold queue_in. simpl.
  split; [done|]. split; [|by intros i e Hi].
  destruct Hc as (_ & _ & Hrd & _). simpl in Hrd. unfold index_ok in Hrd.
  rewrite Z.add_0_r, Z.mod_small by done. done.
Qed.

Lemma run_fifo_on c a st gs ls s :
  world_ok (world_on c) -> rd c = wr c ->
  run ls (system_on c a st gs) = Ok s -> fifo_ok s (steps ls (system_on c a st gs)).
Proof.
  intros Hc Heq. apply (run_log_invariant fifo_ok); [by apply fifo_ok_on|].
  intros l s0 s1 log H Hstep. by apply fifo_ok_step.
Qed.

Lemma run_supervisor_log_on c a st gs ls s :
  world_ok (world_on c) ->
  run ls (system_on c a st gs) = Ok s ->
  supervisor_log_ok s (steps ls (system_on c a st gs)).
Proof.
  intros Hc. apply (run_log_invariant supervisor_log_ok).
  - split; [exact Hc|]. split; [|split].
    + split; [done|]. split; [by intros e []|]. split; [by intros (e & [] & _)|]. done.
    + split; [done|]. simpl. repeat split; constructor.
    + split; [done|]. by intros (e & [] & _).
  - intros l s0 s1 log (Hw & Hb & Hs & Ha) Hstep. unfold supervisor_log_ok.
    rewrite flat_map_app.
    change (flat_map consumed_at [(l, s0, s1)]) with (consumed_at (l, s0, s1) ++ []).
    rewrite app_nil_r.
    split; [by eapply sys_step_world|]. split; [by apply best_ok_step|].
    split; [by eapply solutions_ok_step|by apply announce_ok_step].
Qed.

Lemma run_published_on c a st gs ls s :
  world_ok (world_on c) ->
  run ls (system_on c a st gs) = Ok s ->
  published_ok gs s (steps ls (system_on c a st gs)).
Proof.
  intros Hc. apply (run_log_invariant (published_ok gs)).
  - split; [exact Hc|]. destruct (published_ok_init a st gs) as (_ & H1 & H2 & H3).
    split; [exact H1|]. split; [exact H2|exact H3].
  - intros l s0 s1 log H Hstep. by apply published_ok_step.
Qed.

Lemma run_printed_on c a st gs ls s :
  world_ok (world_on c) ->
  run ls (system_on c a st gs) = Ok s -> printed_ok s (steps ls (system_on c a st gs)).
Proof.
  intros Hc. apply (run_log_invariant printed_ok).
  - split; [exact Hc|]. by intros n ps [].
  - intros l s0 s1 log H Hstep. by apply printed_ok_step.
Qed.

(** What a run leaves is an object a run can start on. *)
Lemma left_behind_ok s : reachable s -> world_ok (world_on (cb (shm s))).
Proof.
  intros H. eapply world_ok_cb; [|by apply reachable_world_ok]. done.
Qed.

End StartFacts.

(** ** The text parse_argv accepts *)

Module TextFacts.
Import Graph GraphFacts GraphMore.

Lemma skip_spaces_split s :
  exists sp, s = sp ++ skip_spaces s /\ Forall (fun c => isspace c = true) sp /\
    match skip_spaces s with c :: _ => isspace c = false | [] => True end.
Proof.
  induction s as [|c s (sp & Hs & Hsp & Hhd)]; simpl.
  - exists []. by repeat split.
  - destruct (isspace c) eqn:Hc.
    + exists (c :: sp). split; [by rewrite Hs at 1|]. split; [by constructor|done].
    + exists []. by repeat split.
Qed.

Lemma skip_spaces_app sp x :
  Forall (fun c => isspace c = true) sp ->
  match x with c :: _ => isspace c = false | [] => True end ->
  skip_spaces (sp ++ x) = x.
Proof.
  intros Hsp Hx. induction Hsp as [|c sp Hc _ IH]; simpl.
  - destruct x as [|c x]; [done|]. simpl. by rewrite Hx.
  - by rewrite Hc.
Qed.

Lemma digit_of_value c d : digit_of c = Some d -> d = Z.of_nat (nat_of_ascii c) - 48.
Proof. unfold digit_of. destruct (_ && _)%nat; [|done]. by intros [= <-]. Qed.

Lemma read_digits_split s : forall acc n,
  exists ds rest, s = ds ++ rest /\ Forall is_digit ds /\
    match rest with c :: _ => digit_of c = None | [] => True end /\
    read_digits acc n s =
      (fold_left (fun a c => 10 * a + (Z.of_nat (nat_of_ascii c) - 48)) ds acc,
       (n + List.length ds)%nat, rest).
Proof.
  induction s as [|c s IH]; intros acc n; simpl.
  - exists [], []. rewrite Nat.add_0_r. by repeat split.
  - destruct (digit_of c) as [d|] eqn:Hd.
    + destruct (IH (10 * acc + d) (S n)) as (ds & rest & Hs & Hds & Hrest & Hread).
      exists (c :: ds), rest. split; [by rewrite Hs at 1|].
      split; [constructor; [by exists d|done]|]. split; [done|].
      rewrite Hread, (digit_of_value _ _ Hd). cbn [fold_left List.length].
      by rewrite Nat.add_succ_comm.
    + exists [], (c :: s). rewrite Nat.add_0_r. by repeat split.
Qed.

Lemma read_digits_app ds : forall acc n rest,
  Forall is_digit ds ->
  match rest with c :: _ => digit_of c = None | [] => True end ->
  read_digits acc n (ds ++ rest) =
    (fold_left (fun a c => 10 * a + (Z.of_nat (nat_of_ascii c) - 48)) ds acc,
     (n + List.length ds)%nat, rest).
Proof.
  induction ds as [|c ds IH]; intros acc n rest Hds Hrest; simpl.
  - rewrite Nat.add_0_r. destruct rest as [|c rest]; [done|]. simpl. by rewrite Hrest.
  - inversion Hds as [|? ? [d Hd] Hds']. subst. rewrite Hd.
    rewrite IH by done. rewrite (digit_of_value _ _ Hd). cbn [fold_left List.length].
    by rewrite Nat.add_succ_comm.
Qed.

Lemma same_position_nil next : same_position next [] = true -> next = [].
Proof. unfold same_position. destruct next; [done|]. simpl. done. Qed.

(** [strtol] on a token of [strtok]: when it has moved and has come to the
    end, the token is white space, an optional ['+'] and digits, and the
    result is the value of the digits. *)
Lemma strtol_reads_all t n next :
  Forall no_dash t -> strtol t = (n, next) ->
  same_position next t = false -> same_position next [] = true ->
  exists ds, key_text t ds /\ n = clamp_long (decimal_value ds).
Proof.
  intros Ht Hs Hmoved Hend. apply same_position_nil in Hend. subst next.
  destruct (skip_spaces_split t) as (sp & Hsp & Hspace & Hhd).
  assert (Forall no_dash (skip_spaces t)) as Hbody by (by apply skip_spaces_no_dash).
  unfold strtol in Hs. 
  assert (forall sg body',
            skip_spaces t = sg ++ body' -> (sg = [] \/ sg = ["+"%char]) ->
            (let '(n0, count, rest) := read_digits 0 0 body' in
             match count with
             | O => (0, t)
             | S _ => (clamp_long n0, rest)
             end) = (n, []) ->
            exists ds, key_text t ds /\ n = clamp_long (decimal_value ds)) as Hcase.
  { intros sg body' Hb Hsg Hr.
    destruct (read_digits_split body' 0 0) as (ds & rest & Hbody' & Hds & _ & Hread).
    rewrite Hread in Hr. simpl in Hr.
    destruct ds as [|c ds].
    - simpl in Hr. injection Hr as _ Ht0. rewrite Ht0 in Hmoved. 
      unfold same_position in Hmoved. simpl in Hmoved. done.
    - simpl List.length in Hr. injection Hr as Hn Hrest. subst rest.
      exists (c :: ds). split; [|done].
      exists sp, sg. rewrite app_nil_r in Hbody'. subst body'.
      split; [by rewrite Hsp at 1; rewrite Hb|]. by repeat split. }
  destruct (skip_spaces t) as [|c r] eqn:Hb.
  - apply (Hcase [] []); [done|by left|exact Hs].
  - destruct (Ascii.eqb c "-") eqn:Hc.
    { inversion Hbody as [|? ? Hd _]. unfold no_dash, is_dash in Hd. congruence. }
    destruct (Ascii.eqb_spec c "+") as [->|Hplus].
    + apply (Hcase ["+"%char] r); [done|by right|exact Hs].
    + apply (Hcase [] (c :: r)); [done|by left|exact Hs].
Qed.

Lemma key_text_plain t ds :
  key_text t ds -> t <> [] /\ Forall no_dash t.
Proof.
  intros (sp & sg & -> & Hsp & Hsg & Hne & Hds). split.
  - destruct sp; [|done]. destruct Hsg as [-> | ->]; [|done]. by destruct ds.
  - apply Forall_app. split.
    { eapply Forall_impl; [exact Hsp|]. intros c Hc. unfold no_dash, is_dash.
      destruct (Ascii.eqb_spec c "-") as [->|]; [|done]. vm_compute in Hc. done. }
    apply Forall_app. split.
    { destruct Hsg as [-> | ->]; [constructor|]. by repeat constructor. }
    eapply Forall_impl; [exact Hds|]. intros c Hc. by apply digit_plain.
Qed.

Lemma strtol_key_text t ds :
  key_text t ds -> strtol t = (clamp_long (decimal_value ds), []).
Proof.
  intros (sp & sg & -> & Hsp & Hsg & Hne & Hds). unfold strtol.
  destruct ds as [|c ds]; [done|].
  inversion Hds as [|? ? Hc Hds']. subst.
  destruct (digit_plain c Hc) as (Hdash & Hspace & Hplus).
  assert (read_digits 0 0 (c :: ds) =
            (decimal_value (c :: ds), S (List.length ds), [])) as Hread.
  { pose proof (read_digits_app (c :: ds) 0 0 [] Hds I) as H.
    rewrite app_nil_r in H. exact H. }
  destruct Hsg as [-> | ->].
  - rewrite skip_spaces_app by done. cbn [app].
    unfold is_dash in Hdash. rewrite Hdash, Hplus, Hread. done.
  - rewrite skip_spaces_app by done. cbn [app].
    change (Ascii.eqb "+" "-") with false. change (Ascii.eqb "+" "+") with true.
    cbv iota. rewrite Hread. done.
Qed.

Lemma is_dash_eq c : is_dash c = true -> c = "-"%char.
Proof. unfold is_dash. by intros H%Ascii.eqb_eq. Qed.

Lemma rev_nonnil (l : list ascii) : l <> [] -> rev l <> [].
Proof.
  intros Hl H. apply (f_equal (@rev ascii)) in H. rewrite rev_involutive in H. done.
Qed.

(** [strtok] in the middle of a token: it ends at the next ['-'] or at the
    end of the string. *)
Lemma strtok_all_token s : forall cur,
  cur <> [] ->
  exists u r, s = u ++ r /\ Forall no_dash u /\
    ((r = [] /\ strtok_all cur s = [rev cur ++ u]) \/
     (exists r', r = "-"%char :: r' /\
                 strtok_all cur s = (rev cur ++ u) :: strtok_all [] r')).
Proof.
  induction s as [|c s IH]; intros cur Hcur; simpl.
  - exists [], []. split; [done|]. split; [constructor|]. left.
    rewrite app_nil_r. by destruct cur.
  - destruct (is_dash c) eqn:Hc.
    + apply is_dash_eq in Hc as ->. exists [], ("-"%char :: s).
      split; [done|]. split; [constructor|]. right. exists s.
      rewrite app_nil_r. by destruct cur.
    + destruct (IH (c :: cur)) as (u & r & -> & Hu & Hcase); [done|].
      exists (c :: u), r. split; [done|]. split; [by constructor|].
      simpl in Hcase. rewrite <- !app_assoc in Hcase. done.
Qed.

(** [strtok] at the start of a string: it skips ['-'] characters and then
    reads a token, if one is left. *)
Lemma strtok_all_start s :
  (dashes s /\ strtok_all [] s = []) \/
  (exists d t r, s = d ++ t ++ r /\ dashes d /\ t <> [] /\ Forall no_dash t /\
     ((r = [] /\ strtok_all [] s = [t]) \/
      (exists r', r = "-"%char :: r' /\ strtok_all [] s = t :: strtok_all [] r'))).
Proof.
  induction s as [|c s IH]; simpl.
  - left. split; [constructor|done].
  - destruct (is_dash c) eqn:Hc.
    + destruct IH as [[Hd Hs]|(d & t & r & -> & Hd & Ht & Hdt & Hcase)].
      * left. split; [by constructor|done].
      * right. exists (c :: d), t, r. split; [done|]. split; [by constructor|]. done.
    + right. destruct (strtok_all_token s [c]) as (u & r & -> & Hu & Hcase); [done|].
      exists [], (c :: u), r. split; [done|]. split; [constructor|].
      split; [done|]. split; [by constructor|]. done.
Qed.

Lemma strtok_all_dashes d x : dashes d -> strtok_all [] (d ++ x) = strtok_all [] x.
Proof.
  intros Hd. induction Hd as [|c d Hc _ IH]; simpl; [done|]. by rewrite Hc.
Qed.

Lemma strtok_all_then t d x :
  t <> [] -> Forall no_dash t -> dashes d -> d <> [] ->
  strtok_all [] (t ++ d ++ x) = t :: strtok_all [] x.
Proof.
  intros Ht Hnt Hd Hne. rewrite strtok_all_run, app_nil_r by done.
  destruct Hd as [|c d Hc Hd]; [done|]. simpl. rewrite Hc.
  pose proof (rev_nonnil t Ht) as Hr. destruct (rev t) as [|y r] eqn:E; [done|].
  rewrite <- E, rev_involutive. f_equal. by apply strtok_all_dashes.
Qed.

Lemma strtok_all_last t d :
  t <> [] -> Forall no_dash t -> dashes d -> strtok_all [] (t ++ d) = [t].
Proof.
  intros Ht Hnt Hd. destruct d as [|c d].
  - rewrite <- (app_nil_r t) at 1. rewrite <- app_assoc, strtok_all_run by done.
    simpl. rewrite app_nil_r.
    pose proof (rev_nonnil t Ht) as Hr. destruct (rev t) as [|y r] eqn:E; [done|].
    by rewrite <- E, rev_involutive.
  - rewrite <- (app_nil_r (c :: d)), strtok_all_then by done. done.
Qed.

(** The two tokens of an argument and the text around them. *)
Lemma strtok_all_pair s t1 t2 :
  strtok_all [] s = [t1; t2] <->
  exists d1 d2 d3, s = d1 ++ t1 ++ d2 ++ t2 ++ d3 /\
    dashes d1 /\ dashes d2 /\ d2 <> [] /\ dashes d3 /\
    t1 <> [] /\ Forall no_dash t1 /\ t2 <> [] /\ Forall no_dash t2.
Proof.
  split.
  - intros Hs.
    destruct (strtok_all_start s) as [[_ H]|(d1 & u1 & r1 & -> & Hd1 & Hu1 & Hn1 & Hc1)];
      [congruence|].
    destruct Hc1 as [[_ H]|(r1' & -> & H)]; [congruence|].
    rewrite H in Hs. injection Hs as -> Hs.
    destruct (strtok_all_start r1')
      as [[_ H']|(d2 & u2 & r2 & -> & Hd2 & Hu2 & Hn2 & Hc2)]; [congruence|].
    assert (dashes ("-"%char :: d2)) as Hd2' by (by constructor).
    destruct Hc2 as [[-> H']|(r2' & -> & H')].
    + rewrite H' in Hs. injection Hs as ->.
      exists d1, ("-"%char :: d2), []. rewrite app_nil_r.
      split; [done|]. repeat split; try done. constructor.
    + rewrite H' in Hs. injection Hs as -> Hs.
      destruct (strtok_all_start r2') as [[Hd3 _]|(d3 & u3 & r3 & _ & _ & _ & _ & Hc3)].
      * exists d1, ("-"%char :: d2), ("-"%char :: r2').
        split; [done|]. repeat split; try done. by constructor.
      * destruct Hc3 as [[_ H3]|(r3' & _ & H3)]; congruence.
  - intros (d1 & d2 & d3 & -> & Hd1 & Hd2 & Hne & Hd3 & Ht1 & Hn1 & Ht2 & Hn2).
    rewrite strtok_all_dashes, strtok_all_then by done.
    by rewrite strtok_all_last.
Qed.

(** What parse_argv takes for an edge, and the keys it reads from it. *)
Lemma parse_keys_text arg k1 k2 :
  parse_keys arg = Some (k1, k2) <->
  exists ds1 ds2, edge_text (list_ascii_of_string arg) ds1 ds2 /\
    k1 = to_int (clamp_long (decimal_value ds1)) /\
    k2 = to_int (clamp_long (decimal_value ds2)).
Proof.
  unfold parse_keys. split.
  - destruct (strtok_all [] (list_ascii_of_string arg)) as [|t1 [|t2 [|t3 ts]]] eqn:Htok;
      try done.
    apply strtok_all_pair in Htok
      as (d1 & d2 & d3 & Hs & Hd1 & Hd2 & Hne & Hd3 & Ht1 & Hn1 & Ht2 & Hn2).
    destruct (strtol t1) as [n1 next1] eqn:E1. destruct (strtol t2) as [n2 next2] eqn:E2.
    destruct (same_position next1 t1) eqn:H1; [done|].
    destruct (same_position next1 []) eqn:H2; [|done].
    destruct (same_position next2 t2) eqn:H3; [done|].
    destruct (same_position next2 []) eqn:H4; [|done].
    simpl. intros [= <- <-].
    destruct (strtol_reads_all _ _ _ Hn1 E1 H1 H2) as (ds1 & Hk1 & ->).
    destruct (strtol_reads_all _ _ _ Hn2 E2 H3 H4) as (ds2 & Hk2 & ->).
    exists ds1, ds2. split; [|done]. by exists d1, t1, d2, t2, d3.
  - intros (ds1 & ds2 & (d1 & t1 & d2 & t2 & d3 & Hs & Hd1 & Hd2 & Hne & Hd3 & Hk1 & Hk2)
            & -> & ->).
    destruct (key_text_plain _ _ Hk1) as [Ht1 Hn1].
    destruct (key_text_plain _ _ Hk2) as [Ht2 Hn2].
    assert (strtok_all [] (list_ascii_of_string arg) = [t1; t2]) as ->.
    { apply strtok_all_pair. by exists d1, d2, d3. }
    rewrite (strtol_key_text _ _ Hk1), (strtol_key_text _ _ Hk2).
    unfold same_position. destruct t1; [done|]. destruct t2; [done|]. done.
Qed.

Lemma digits_value_nonneg ds : forall acc,
  0 <= acc -> Forall is_digit ds ->
  0 <= fold_left (fun a c => 10 * a + (Z.of_nat (nat_of_ascii c) - 48)) ds acc.
Proof.
  induction ds as [|c ds IH]; intros acc Hacc Hds; simpl; [done|].
  inversion Hds as [|? ? [d Hd] Hds']. subst. apply IH; [|done].
  rewrite <- (digit_of_value _ _ Hd). unfold digit_of in Hd.
  destruct (_ && _)%nat eqn:E; [|done]. injection Hd as <-.
  apply andb_true_iff in E as [E _]. apply Nat.leb_le in E. lia.
Qed.

Lemma decimal_value_nonneg ds : Forall is_digit ds -> 0 <= decimal_value ds.
Proof. intros Hds. by apply digits_value_nonneg. Qed.

End TextFacts.

(** ** Inside a consume *)

Module FineFacts.
Import SystemFacts PermitFacts.

(** Steps other than a consume keep the permits and their holders. *)
Lemma sys_step_permits_at k l s s' :
  consumes l s = false -> permits_at k s -> sys_step l s = Ok s' -> permits_at k s'.
Proof.
  intros Hidle [Hmutex Hsum]. unfold permits_at, count_gens in *.
  destruct l as [i|n i| |n]; simpl.
  - destruct (Supervisor.main_step _ _ _) as [[s1 w1]| |] eqn:E; [|done..].
    intros [= <-]. simpl.
    destruct (supervisor_idle_world _ _ _ _ _ E) as (-> & -> & -> & _); [|done].
    simpl in Hidle. destruct (Supervisor.at_pc (sup s)); try done.
    by destruct (in_wait i).
  - destruct (gens s !! n) as [g|] eqn:Hg; [|done].
    destruct (Generator.main_step _ _ _) as [[g1 w1]| |] eqn:E; [|done..].
    intros [= <-]. simpl.
    pose proof (count_insert in_critical _ _ _ g1 Hg) as Hc.
    pose proof (count_insert in_body _ _ _ g1 Hg) as Hb.
    apply generator_step_move in E.
    destruct E as [Hp Hp' Hcb Hws Hfs Hus|Hp Hp' Hcb Hfs Hws Hus|m e Hp Hp' Hm Hpub|Hp Hcr ->].
    + rewrite (in_critical_at _ _ Hp), (in_critical_at _ _ Hp') in Hc.
      rewrite (in_body_at _ _ Hp), (in_body_at _ _ Hp') in Hb. rewrite Hfs, Hus. lia.
    + rewrite (in_critical_at _ _ Hp), (in_critical_at _ _ Hp') in Hc.
      rewrite (in_body_at _ _ Hp), (in_body_at _ _ Hp') in Hb. rewrite Hws, Hus. lia.
    + rewrite (in_critical_at _ _ Hp), (in_critical_at _ _ Hp') in Hc.
      rewrite (in_body_at _ _ Hp), (in_body_at _ _ Hp') in Hb.
      destruct Hpub as (k0 & _ & _ & _ & _ & _ & _ & Hus & Hws & Hfs).
      rewrite Hus, Hws, Hfs. lia.
    + rewrite Hcr in Hc.
      assert (in_body g = false) as Hbg
        by (unfold in_body; by destruct (Generator.at_pc g)).
      assert (in_body g1 = false) as Hbg1.
      { unfold in_critical in Hcr. unfold in_body. by destruct (Generator.at_pc g1). }
      rewrite Hbg, Hbg1 in Hb. destruct (in_critical g); lia.
  - unfold Supervisor.signal_step.
    destruct (Supervisor.at_pc (sup s)); try done; by intros [= <-].
  - destruct (gens s !! n) as [g|] eqn:Hg; [|done].
    unfold Generator.signal_step.
    pose proof (count_insert in_critical _ _ _ (Generator.handle_signal g) Hg) as Hc.
    pose proof (count_insert in_body _ _ _ (Generator.handle_signal g) Hg) as Hb.
    assert (in_critical (Generator.handle_signal g) = in_critical g) as Hcs by reflexivity.
    assert (in_body (Generator.handle_signal g) = in_body g) as Hbs by reflexivity.
    rewrite Hcs in Hc. rewrite Hbs in Hb.
    destruct (Generator.at_pc g) eqn:Eg; try done; intros [= <-]; simpl; lia.
Qed.

(** The lines of a consume behind the wait give one permit to [free_sem]. *)
Lemma supervisor_body_permits s w s' w' :
  Supervisor.body s w = Ok (s', w') ->
  free_sem w' = S (free_sem w) /\ used_sem w' = used_sem w /\ write_sem w' = write_sem w.
Proof.
  unfold Supervisor.body.
  destruct (slot _) as [k0|]; [|done]. destruct (_ !! k0) as [e0|]; [|done].
  destruct (length e0 =? 0); [by intros [= <- <-]|].
  destruct (slot _) as [k|]; [|done]. destruct (_ !! k) as [e|]; [|done].
  destruct (_ >=? _); by intros [= <- <-].
Qed.

Lemma fine_permits s h :
  fine_reachable s h ->
  (write_sem (shm s) + count_gens in_critical s <= 1)%nat /\
  (free_sem (shm s) + used_sem (shm s) + count_gens in_body s + held h
   = Z.to_nat NUMBER_OF_ENTRIES)%nat.
Proof.
  assert (forall l s s',
            consumes l s = false -> sys_step l s = Ok s' ->
            (write_sem (shm s) + count_gens in_critical s <= 1)%nat ->
            (write_sem (shm s') + count_gens in_critical s' <= 1)%nat /\
            (free_sem (shm s') + used_sem (shm s') + count_gens in_body s' =
             free_sem (shm s) + used_sem (shm s) + count_gens in_body s)%nat) as Hkeep.
  { intros l s0 s1 Hidle Hstep Hmutex.
    by apply (sys_step_permits_at _ l s0 s1 Hidle). }
  induction 1 as [c a st gs|s l s' _ IH Hidle Hstep|s w _ IH Hpc Hwait
                  |s l s' _ IH Hl Hstep|s sp w _ IH Hbody].
  - destruct (StartFacts.permits_ok_on c a st gs) as [H1 H2]. split; [exact H1|].
    simpl held. lia.
  - destruct IH as [Hmutex Hsum].
    destruct (Hkeep _ _ _ Hidle Hstep Hmutex) as [H1 H2]. split; [exact H1|]. lia.
  - destruct IH as [Hmutex Hsum]. simpl in Hwait.
    destruct (used_sem (shm s)) as [|u] eqn:Hu; [done|]. injection Hwait as <-.
    unfold count_gens in *. cbn [shm gens sem_set free_sem used_sem write_sem held] in *.
    split; [exact Hmutex|]. lia.
  - destruct IH as [Hmutex Hsum].
    assert (consumes l s = false) as Hidle by (by destruct l).
    destruct (Hkeep _ _ _ Hidle Hstep Hmutex) as [H1 H2]. split; [exact H1|]. lia.
  - destruct IH as [Hmutex Hsum].
    destruct (supervisor_body_permits _ _ _ _ Hbody) as (Hf & Hu & Hw).
    unfold count_gens in *. cbn [shm gens held] in *. rewrite Hf, Hu, Hw.
    split; [exact Hmutex|]. lia.
Qed.

(** Every state of a run is one of these states, with the supervisor
    outside a consume. *)
Lemma run_fine ls : forall s s',
  fine_reachable s false -> run ls s = Ok s' -> fine_reachable s' false.
Proof.
  induction ls as [|l ls IH]; intros s s' Hs; simpl; [by intros [= <-]|].
  destruct (sys_step l s) as [s1| |] eqn:Hstep; [|done..].
  apply IH. destruct (consumes l s) eqn:Hc; [|by eapply Fine_step].
  destruct (ReadFacts.consumes_inv _ _ Hc) as (i & -> & Hpc & Hin).
  simpl in Hstep. unfold Supervisor.main_step in Hstep. rewrite Hpc, Hin in Hstep.
  destruct (sem_wait Acquired (shm s) USED_SEM) as [w| |] eqn:Hw; [|done..].
  destruct (Supervisor.body (sup s) w) as [[sp w']| |] eqn:Hb; [|done..].
  injection Hstep as <-.
  exact (Fine_finish _ _ _ (Fine_take _ _ Hs Hpc Hw) Hb).
Qed.

Lemma reachable_fine s : reachable s -> fine_reachable s false.
Proof.
  intros (a & st & gs & ls & Hrun). eapply run_fine; [|exact Hrun].
  rewrite StartFacts.system_on_init. constructor.
Qed.

End FineFacts.

(** ** A process that was told to stop *)

Module StopFacts.
Import SystemFacts.

Lemma supervisor_stopped_step l s s' :
  Supervisor.quit (sup s) = true ->
  sys_step l s = Ok s' ->
  Supervisor.quit (sup s') = true /\
  (if step_of_supervisor l
   then (supervisor_rest (Supervisor.at_pc (sup s')) <
         supervisor_rest (Supervisor.at_pc (sup s)))%nat
   else Supervisor.at_pc (sup s') = Supervisor.at_pc (sup s)).
Proof.
  intros Hq. destruct l as [i|n i| |n]; simpl.
  - destruct (Supervisor.main_step _ _ _) as [[s1 w1]| |] eqn:E; [|done..].
    intros [= <-]. simpl. revert E. unfold Supervisor.main_step.
    destruct (Supervisor.at_pc (sup s)) eqn:Hpc.
    + destruct (Supervisor.args (sup s)); [|intros [= <- <-]; simpl; split; [done|lia]].
      repeat (destruct (negb (_ i)); [intros [= <- <-]; simpl; split; [done|lia]|]).
      intros [= <- <-]. simpl. split; [done|lia].
    + rewrite Hq. simpl. intros [= <- <-]. simpl. split; [done|lia].
    + destruct (in_wait i) eqn:Hin; [|intros [= <- <-]; simpl; split; [done|lia]..].
      destruct (sem_wait _ _ _) as [w0| |] eqn:Hw0; [|done..].
      unfold Supervisor.body.
      destruct (slot _) as [k0|]; [|done]. destruct (_ !! k0) as [e0|]; [|done].
      destruct (length e0 =? 0); [intros [= <- <-]; simpl; split; [done|lia]|].
      destruct (slot _) as [k|]; [|done]. destruct (_ !! k) as [e|]; [|done].
      destruct (_ >=? _); intros [= <- <-]; simpl; split; try done; lia.
    + intros [= <- <-]. simpl. split; [done|lia].
    + intros [= <- <-]. simpl. split; [done|lia].
    + done.
  - destruct (gens s !! n) as [g|]; [|done].
    destruct (Generator.main_step _ _ _) as [[g1 w1]| |]; [|done..]. by intros [= <-].
  - unfold Supervisor.signal_step.
    destruct (Supervisor.at_pc (sup s)) eqn:Hpc; try done; by intros [= <-].
  - destruct (gens s !! n) as [g|]; [|done].
    destruct (Generator.signal_step _); [|done..]. by intros [= <-].
Qed.

Lemma supervisor_stopped_run ls : forall s s',
  Supervisor.quit (sup s) = true -> run ls s = Ok s' ->
  Supervisor.quit (sup s') = true /\
  (List.length (List.filter step_of_supervisor ls)
   + supervisor_rest (Supervisor.at_pc (sup s'))
   <= supervisor_rest (Supervisor.at_pc (sup s)))%nat.
Proof.
  induction ls as [|l ls IH]; intros s s' Hq; simpl.
  - intros [= <-]. split; [done|lia].
  - destruct (sys_step l s) as [s1| |] eqn:Hstep; [|done..]. intros Hrun.
    destruct (supervisor_stopped_step _ _ _ Hq Hstep) as [Hq1 Hrest].
    destruct (IH _ _ Hq1 Hrun) as [Hq' Hle]. split; [done|].
    destruct (step_of_supervisor l); simpl; [lia|]. rewrite <- Hrest. lia.
Qed.

(** With its wait interrupted, a supervisor that was told to stop runs to
    its end. *)
Lemma supervisor_stopped_exit i s :
  Supervisor.quit (sup s) = true -> in_wait i = Eintr ->
  supervisor_runs (Supervisor.at_pc (sup s)) = true ->
  exists s',
    run (repeat (L_sup i) (supervisor_rest (Supervisor.at_pc (sup s)))) s = Ok s' /\
    Supervisor.at_pc (sup s') = Supervisor.Exited EXIT_SUCCESS.
Proof.
  intros Hq Hin Hruns.
  destruct (Supervisor.at_pc (sup s)) eqn:Hpc; try done;
    cbn [supervisor_rest repeat run sys_step]; unfold Supervisor.main_step;
    rewrite ?Hpc, ?Hin; cbn [shm sup gens Supervisor.goto Supervisor.at_pc Supervisor.quit];
    rewrite ?Hq; cbn; eexists; (split; [reflexivity|reflexivity]).
Qed.

Lemma generator_stopped_step l s s' n g :
  gens s !! n = Some g -> told_to_stop g (shm s) ->
  sys_step l s = Ok s' ->
  exists g', gens s' !! n = Some g' /\ told_to_stop g' (shm s') /\
    if step_of n l
    then (generator_rest (Generator.at_pc g') < generator_rest (Generator.at_pc g))%nat
    else Generator.at_pc g' = Generator.at_pc g.
Proof.
  intros Hg Hstop. destruct l as [i|m i| |m]; simpl.
  - destruct (Supervisor.main_step _ _ _) as [[s1 w1]| |] eqn:E; [|done..].
    intros [= <-]. exists g. simpl. split; [done|]. split; [|done].
    destruct Hstop as [Hq|Hf]; [by left|right].
    by eapply RunFacts.supervisor_step_flag_stays.
  - destruct (gens s !! m) as [g0|] eqn:Hm; [|done].
    destruct (Generator.main_step _ _ _) as [[g1 w1]| |] eqn:E; [|done..].
    intros [= <-]. simpl.
    pose proof (FlagFacts.generator_step_signal _ _ _ _ _ E) as Hsig.
    destruct (Nat.eqb_spec m n) as [->|Hne].
    + rewrite Hg in Hm. injection Hm as <-. exists g1.
      rewrite list_lookup_insert_eq by (by eapply lookup_lt_Some).
      destruct (RunFacts.generator_step_rest _ _ _ _ _ E Hstop) as [Hq Hrest].
      split; [done|]. split; [|done].
      unfold told_to_stop in *. rewrite Hq, Hsig. done.
    + exists g. rewrite list_lookup_insert_ne by done. split; [done|]. split; [|done].
      unfold told_to_stop in *. by rewrite Hsig.
  - destruct (Supervisor.signal_step _); [|done..]. intros [= <-]. by exists g.
  - destruct (gens s !! m) as [g0|] eqn:Hm; [|done].
    destruct (Generator.signal_step _) as [g1| |] eqn:E; [|done..].
    intros [= <-]. simpl. destruct (decide (m = n)) as [->|Hne].
    + rewrite Hg in Hm. injection Hm as <-. exists g1.
      rewrite list_lookup_insert_eq by (by eapply lookup_lt_Some).
      unfold Generator.signal_step in E. split; [done|].
      assert (g1 = Generator.handle_signal g) as ->
        by (destruct (Generator.at_pc g); congruence).
      split; [by left|done].
    + exists g. by rewrite list_lookup_insert_ne by done.
Qed.

Lemma generator_stopped_run n ls : forall s s' g,
  gens s !! n = Some g -> told_to_stop g (shm s) -> run ls s = Ok s' ->
  exists g', gens s' !! n = Some g' /\ told_to_stop g' (shm s') /\
    (List.length (List.filter (step_of n) ls) + generator_rest (Generator.at_pc g')
     <= generator_rest (Generator.at_pc g))%nat.
Proof.
  induction ls as [|l ls IH]; intros s s' g Hg Hstop; simpl.
  - intros [= <-]. exists g. split; [done|]. split; [done|lia].
  - destruct (sys_step l s) as [s1| |] eqn:Hstep; [|done..]. intros Hrun.
    destruct (generator_stopped_step _ _ _ _ _ Hg Hstop Hstep) as (g1 & Hg1 & Hstop1 & Hrest).
    destruct (IH _ _ _ Hg1 Hstop1 Hrun) as (g' & Hg' & Hstop' & Hle).
    exists g'. split; [done|]. split; [done|].
    destruct (step_of n l); simpl; [lia|]. rewrite <- Hrest. lia.
Qed.

(** From the test of its loop a generator that was told to stop takes two
    steps to its end. *)
Lemma generator_exit_from_top i s n g :
  gens s !! n = Some g -> told_to_stop g (shm s) ->
  Generator.at_pc g = Generator.At_loop_top ->
  exists s' g', run [L_gen n i; L_gen n i] s = Ok s' /\ gens s' !! n = Some g' /\
    Generator.at_pc g' = Generator.Exited EXIT_SUCCESS.
Proof.
  intros Hg Hstop Hpc.
  assert (n < List.length (gens s))%nat as Hn by (by eapply lookup_lt_Some).
  assert (negb (Generator.quit g) && (signal (cb (shm s)) =? 0) = false) as Htest.
  { destruct Hstop as [-> | ->]; [done|]. by rewrite andb_false_r. }
  cbn [run sys_step]. rewrite Hg. unfold Generator.main_step at 1. rewrite Hpc, Htest.
  cbn [shm gens]. rewrite list_lookup_insert_eq by done.
  unfold Generator.main_step. cbn [Generator.goto Generator.at_pc].
  eexists _, _. split; [reflexivity|]. cbn [gens].
  split; [apply list_lookup_insert_eq; by rewrite length_insert|]. done.
Qed.

Lemma generator_exit_from_after i s n g :
  gens s !! n = Some g -> Generator.at_pc g = Generator.At_after_loop ->
  exists s' g', run [L_gen n i] s = Ok s' /\ gens s' !! n = Some g' /\
    Generator.at_pc g' = Generator.Exited EXIT_SUCCESS.
Proof.
  intros Hg Hpc.
  assert (n < List.length (gens s))%nat as Hn by (by eapply lookup_lt_Some).
  cbn [run sys_step]. rewrite Hg. unfold Generator.main_step. rewrite Hpc.
  eexists _, _. split; [reflexivity|]. cbn [gens].
  split; [by apply list_lookup_insert_eq|]. done.
Qed.

(** With its waits interrupted, a generator that was told to stop runs to
    its end in at most three steps. *)
Lemma generator_stopped_exit i s n g :
  world_ok (shm s) -> Forall generator_graph_ok (gens s) ->
  gens s !! n = Some g -> told_to_stop g (shm s) -> in_wait i = Eintr ->
  generator_runs (Generator.at_pc g) = true ->
  exists k s' g', (k <= 3)%nat /\ run (repeat (L_gen n i) k) s = Ok s' /\
    gens s' !! n = Some g' /\ Generator.at_pc g' = Generator.Exited EXIT_SUCCESS.
Proof.
  intros Hw Hgraphs Hg Hstop Hin Hruns.
  assert (n < List.length (gens s))%nat as Hn by (by eapply lookup_lt_Some).
  assert (forall g1 w1,
            sys_step (L_gen n i) s = Ok {| shm := w1; sup := sup s;
                                           gens := <[n := g1]> (gens s) |} ->
            Generator.at_pc g1 = Generator.At_loop_top ->
            told_to_stop g1 w1 ->
            exists k s' g', (k <= 3)%nat /\ run (repeat (L_gen n i) k) s = Ok s' /\
              gens s' !! n = Some g' /\
              Generator.at_pc g' = Generator.Exited EXIT_SUCCESS) as Hvia.
  { intros g1 w1 Hstep Hpc1 Hstop1.
    destruct (generator_exit_from_top i
                {| shm := w1; sup := sup s; gens := <[n := g1]> (gens s) |} n g1)
      as (s' & g' & Hrun & Hg' & Hpc'); [by apply list_lookup_insert_eq|done|done|].
    exists 3%nat, s', g'. split; [lia|]. split; [|done].
    change (repeat (L_gen n i) 3) with (L_gen n i :: [L_gen n i; L_gen n i]).
    cbn [run]. by rewrite Hstep. }
  destruct (Generator.at_pc g) eqn:Hpc; try done.
  - destruct (generator_exit_from_top i s n g Hg Hstop Hpc) as (s' & g' & Hrun & Hg' & Hpc').
    exists 2%nat, s', g'. split; [lia|]. done.
  - apply (Hvia (Generator.goto Generator.At_loop_top g) (shm s)); [|done|done].
    cbn [sys_step]. rewrite Hg. unfold Generator.main_step. by rewrite Hpc, Hin.
  - apply (Hvia (Generator.goto Generator.At_loop_top g) (shm s)); [|done|done].
    cbn [sys_step]. rewrite Hg. unfold Generator.main_step. by rewrite Hpc, Hin.
  - pose proof (Forall_lookup_1 _ _ _ _ Hgraphs Hg) as Hgraph.
    destruct (AttemptFacts.body_returns g (shm s) Hgraph Hw) as (g1 & w1 & Hbody).
    assert (Generator.main_step i g (shm s) = Ok (g1, w1)) as Hmain
      by (unfold Generator.main_step; by rewrite Hpc).
    destruct (RunFacts.generator_step_rest _ _ _ _ _ Hmain Hstop) as [Hq _].
    pose proof (FlagFacts.generator_step_signal _ _ _ _ _ Hmain) as Hsig.
    apply AttemptFacts.body_publishes in Hbody as (rc & e & _ & _ & _ & Hg1).
    apply (Hvia g1 w1).
    + cbn [sys_step]. by rewrite Hg, Hmain.
    + by rewrite Hg1.
    + unfold told_to_stop in *. by rewrite Hq, Hsig.
  - destruct (generator_exit_from_after i s n g Hg Hpc) as (s' & g' & Hrun & Hg' & Hpc').
    exists 1%nat, s', g'. split; [lia|]. done.
Qed.

End StopFacts.

(** * Main results *)

(** The states of the concrete runs can be reached. *)

Lemma star9_published_reachable : reachable Scenario.star9_published.
Proof.
  exists [], zero_entry, [(Scenario.star9, Scenario.all_zero)],
    (Scenario.attach ++ Scenario.attempt).
  vm_compute. reflexivity.
Defined.

Lemma generator_interrupted_reachable : reachable Scenario.generator_interrupted.
Proof.
  exists [], zero_entry, [(["0-1"%string], Scenario.counting)],
    (Scenario.attach ++ [L_signal_gen 0; L_gen 0 Scenario.go; L_gen 0 Scenario.go]).
  vm_compute. reflexivity.
Defined.

Lemma solution_pending_reachable : reachable Scenario.solution_pending.
Proof.
  exists [], zero_entry, [(["0-1"%string], Scenario.counting)],
    (Scenario.attach ++ Scenario.attempt ++ [L_sup Scenario.go]).
  vm_compute. reflexivity.
Defined.

Lemma star9_pending_reachable : reachable Scenario.star9_pending.
Proof.
  exists [], zero_entry, [(Scenario.star9, Scenario.all_zero)],
    (Scenario.attach ++ Scenario.attempt ++ [L_sup Scenario.go]).
  vm_compute. reflexivity.
Defined.

(** C1 (the code departs from it): an attempt whose conflict set has more
    than MAXIMUM_SOLUTION_LENGTH edges is not discarded outside the publish
    protocol. For the star with nine edges, all of one color, the generator
    takes [write_sem] and [free_sem] before it computes the candidates, the
    count it gets is 8, and it publishes: slot 0 is written with length 8,
    [wr] moves to 1, [used_sem] gets a permit and [free_sem] has lost one. *)
Theorem oversized_attempt_is_published :
  exists g s0 s_mid s1,
    run Scenario.attach Scenario.star9_system = Ok s0 /\
    shm s0 = world_init /\
    gens s0 !! 0%nat = Some g /\
    Generator.at_pc g = Generator.At_loop_top /\
    List.length
      (conflict_set (Graph.vertices (Generator.graph (Generator.recolor g)))
         (Graph.edges (Generator.graph g))) = 9%nat /\
    run (take 3 Scenario.attempt) s0 = Ok s_mid /\
    Generator.at_pc <$> gens s_mid !! 0%nat = Some Generator.At_body /\
    write_sem (shm s_mid) = 0%nat /\ free_sem (shm s_mid) = 199%nat /\
    run Scenario.attempt s0 = Ok s1 /\
    Generator.at_pc <$> gens s1 !! 0%nat = Some Generator.At_loop_top /\
    wr (cb (shm s1)) = 1 /\
    length <$> entries (cb (shm s1)) !! 0%nat = Some 8 /\
    used_sem (shm s1) = 1%nat /\ free_sem (shm s1) = 199%nat /\
    write_sem (shm s1) = 1%nat /\
    shm s1 <> shm s0.
Proof.
  do 4 eexists.
  split; [vm_compute; reflexivity|].
  split; [reflexivity|].
  split; [reflexivity|].
  split; [reflexivity|].
  split; [vm_compute; reflexivity|].
  split; [vm_compute; reflexivity|].
  split; [reflexivity|].
  split; [reflexivity|].
  split; [reflexivity|].
  split; [vm_compute; reflexivity|].
  split; [reflexivity|].
  split; [reflexivity|].
  split; [reflexivity|].
  split; [reflexivity|].
  split; [reflexivity|].
  split; [reflexivity|].
  intros H. apply (f_equal used_sem) in H. vm_compute in H. discriminate.
Qed.

(** C2 (the code departs from it): the entry the generator builds is not
    the whole conflict set once that has more than eight edges. For the
    star with nine edges of one color set_removal_candidates returns 8, the
    entry has length 8 and its pairs are the first eight conflicting edges;
    the ninth, 0-9, conflicts too and is missing. *)
Theorem candidate_entry_is_cut_off :
  exists g vs rc e,
    Graph.parse_argv Scenario.star9 = Some g /\
    vs = randomize Scenario.all_zero 0 (Graph.vertices g) /\
    map (edge_keys vs) (conflict_set vs (Graph.edges g)) =
      map (fun k => Some (0, k)) [1; 2; 3; 4; 5; 6; 7; 8; 9] /\
    set_removal_candidates vs (Graph.edges g) = Some rc /\
    List.length rc = 8%nat /\
    write_entry vs rc zero_entry = Some e /\
    length e = 8 /\
    entry_pairs e = map (fun k => (0, k)) [1; 2; 3; 4; 5; 6; 7; 8] /\
    length e <> Z.of_nat (List.length (conflict_set vs (Graph.edges g))).
Proof.
  do 4 eexists.
  split; [vm_compute; reflexivity|].
  split; [reflexivity|].
  split; [vm_compute; reflexivity|].
  split; [vm_compute; reflexivity|].
  split; [reflexivity|].
  split; [vm_compute; reflexivity|].
  split; [reflexivity|].
  split; [vm_compute; reflexivity|].
  vm_compute. discriminate.
Qed.

(** C3: whatever the edges and the colors, set_removal_candidates returns
    a count of at most MAXIMUM_SOLUTION_LENGTH, since its loop stops at that
    count. So the test [removal_candidates_length > MAXIMUM_SOLUTION_LENGTH]
    of the generator is false every time: with these edges and colors and a
    sound buffer the loop body returns, and what it does is a publish. *)
Theorem set_removal_candidates_bounded vs es :
  wf_edges vs es ->
  (exists rc,
     set_removal_candidates vs es = Some rc /\
     (List.length rc <= MAXIMUM_SOLUTION_LENGTH)%nat /\
     overflow rc = false) /\
  (forall g w,
     Graph.vertices (Generator.graph (Generator.recolor g)) = vs ->
     Graph.edges (Generator.graph (Generator.recolor g)) = es ->
     world_ok w ->
     exists n e g' w',
       Generator.body g w = Ok (g', w') /\
       (n <= MAXIMUM_SOLUTION_LENGTH)%nat /\ published n e w w').
Proof.
  intros Hwf. split.
  - pose proof (SearchFacts.set_removal_candidates_spec _ _ Hwf) as Hrc.
    pose proof (SearchFacts.set_removal_candidates_length _ _ _ Hrc) as Hlen.
    eexists. split; [exact Hrc|]. split; [done|]. by apply AttemptFacts.overflow_false.
  - intros g w Hvs Hes Hw.
    destruct (AttemptFacts.body_returns g w) as (g' & w' & Hbody); [|done|].
    { subst vs es. intros e He. specialize (Hwf e He). simpl in Hwf.
      by rewrite SearchFacts.randomize_length in Hwf. }
    pose proof Hbody as Hpub.
    apply AttemptFacts.body_publishes in Hpub as (rc & e & _ & Hlen & Hpub & _).
    eauto 10.
Qed.

Lemma set_removal_candidates_bounded_witness :
  wf_edges Scenario.star9_colored (Graph.edges Scenario.star9_graph) /\
  exists rc,
    set_removal_candidates Scenario.star9_colored (Graph.edges Scenario.star9_graph) =
      Some rc /\
    (List.length rc <= MAXIMUM_SOLUTION_LENGTH)%nat /\
    overflow rc = false.
Proof.
  assert (wf_edges Scenario.star9_colored (Graph.edges Scenario.star9_graph)) as Hwf.
  { intros e He. vm_compute in He. vm_compute.
    repeat (destruct He as [<-|He]; [lia|]). destruct He. }
  split; [exact Hwf|].
  exact (proj1 (set_removal_candidates_bounded _ _ Hwf)).
Defined.

(** C4 (the code departs from it): a generator whose wait on [free_sem]
    is interrupted does not retry that wait. With the buffer full it holds
    the permit of [write_sem] (count 0) and is blocked on [free_sem]; on
    EINTR [continue] takes it to the test of the loop, and the next call is
    [sem_wait(write_sem)] again, which cannot return 0 since the only
    permit is its own. When the interruption came with SIGINT or SIGTERM
    the loop ends instead and the process exits with the permit still
    taken. Either way [write_sem] stays one lower than it was. *)
Theorem interrupted_free_wait_keeps_writer_permit :
  exists s1 s2 s3 s4,
    Generator.at_pc <$> gens Scenario.buffer_full !! 0%nat = Some Generator.At_wait_free /\
    free_sem (shm Scenario.buffer_full) = 0%nat /\
    write_sem world_init = 1%nat /\ write_sem (shm Scenario.buffer_full) = 0%nat /\
    sys_step (L_gen 0 Scenario.go) Scenario.buffer_full = Blocked /\
    (* EINTR, and [quit] is not set *)
    sys_step (L_gen 0 (Scenario.os_ok Eintr)) Scenario.buffer_full = Ok s1 /\
    Generator.at_pc <$> gens s1 !! 0%nat = Some Generator.At_loop_top /\
    write_sem (shm s1) = 0%nat /\
    sys_step (L_gen 0 Scenario.go) s1 = Ok s2 /\
    Generator.at_pc <$> gens s2 !! 0%nat = Some Generator.At_wait_write /\
    sys_step (L_gen 0 Scenario.go) s2 = Blocked /\
    (* EINTR because handle_signal ran *)
    run [L_signal_gen 0; L_gen 0 (Scenario.os_ok Eintr)] Scenario.buffer_full = Ok s3 /\
    Generator.at_pc <$> gens s3 !! 0%nat = Some Generator.At_loop_top /\
    run [L_gen 0 Scenario.go; L_gen 0 Scenario.go] s3 = Ok s4 /\
    Generator.at_pc <$> gens s4 !! 0%nat = Some (Generator.Exited EXIT_SUCCESS) /\
    write_sem (shm s4) = 0%nat.
Proof.
  do 4 eexists.
  split; [vm_compute; reflexivity|].
  split; [vm_compute; reflexivity|].
  split; [reflexivity|].
  split; [vm_compute; reflexivity|].
  split; [vm_compute; reflexivity|].
  split; [vm_compute; reflexivity|].
  do 2 (split; [reflexivity|]).
  split; [vm_compute; reflexivity|].
  split; [reflexivity|].
  split; [vm_compute; reflexivity|].
  split; [vm_compute; reflexivity|].
  split; [reflexivity|].
  split; [vm_compute; reflexivity|].
  split; reflexivity.
Qed.

(** C5 as stated fails in two places. The generator that leaves its loop
    after SIGINT unlinks the named semaphores, here [FREE_SEM], while the
    supervisor is still listening. And the generator that has mapped the
    shared memory and then fails to open the semaphores exits without
    unmapping it. *)
Lemma generator_exit_paths_depart :
  ~ (forall s n g nm,
       reachable s -> gens s !! n = Some g ->
       ~ In (Ev_sem_unlink nm) (Generator.out g)) /\
  ~ (forall s n g st,
       reachable s -> gens s !! n = Some g ->
       Generator.at_pc g = Generator.Exited st ->
       In Ev_munmap (Generator.out g)).
Proof.
  split.
  - intros H.
    destruct (Scenario.generator_interrupted) as [w su gs] eqn:E.
    pose proof generator_interrupted_reachable as Hr. rewrite E in Hr.
    vm_compute in E. injection E as <- <- <-.
    eapply (H _ 0%nat _ FREE_SEM Hr); [reflexivity|].
    simpl. tauto.
  - intros H.
    assert (reachable Failing.generator_without_semaphores) as Hr.
    { exists [], zero_entry, [(["0-1"%string], Scenario.counting)],
        [L_sup Scenario.go; L_gen 0 Failing.no_sem_open].
      vm_compute. reflexivity. }
    destruct (Failing.generator_without_semaphores) as [w su gs] eqn:E.
    vm_compute in E. injection E as <- <- <-.
    pose proof (H _ 0%nat _ EXIT_FAILURE Hr eq_refl eq_refl) as Hin.
    simpl in Hin. intuition discriminate.
Qed.

(** C5, amended: a generator never unlinks the shared-memory object. When
    it exits with success (the loop ended on a signal or on the
    supervisor's order) it has unmapped the shared region, closed the
    descriptor and closed its three semaphore handles. When it exits after
    a failed [sem_wait] or [sem_open] it has closed its three semaphore
    handles. *)
Theorem generator_exit_resources s n g st :
  reachable s -> gens s !! n = Some g ->
  Generator.at_pc g = Generator.Exited st ->
  (st = EXIT_SUCCESS \/ st = EXIT_FAILURE) /\
  ~ In Ev_shm_unlink (Generator.out g) /\
  (st = EXIT_SUCCESS ->
   In Ev_munmap (Generator.out g) /\ In Ev_close_fd (Generator.out g) /\
   forall nm, In (Ev_sem_close nm) (Generator.out g)) /\
  (In (Ev_print (Msg_errno "sem_wait failed")) (Generator.out g) \/
   In (Ev_print (Msg_errno "sem_open failed")) (Generator.out g) ->
   st = EXIT_FAILURE /\ forall nm, In (Ev_sem_close nm) (Generator.out g)).
Proof.
  intros Hreach Hg Hpc.
  assert (generator_trace_ok g) as Hok
    by (eapply Forall_lookup_1; [by apply TraceFacts.reachable_traces|exact Hg]).
  destruct (TraceFacts.exited_trace g st Hok Hpc) as (Hst & Hno & _ & Hsucc & Hfail).
  split; [exact Hst|]. split; [exact Hno|]. split.
  - intros ->. destruct (Hsucc eq_refl) as [Hmun Hall]. split; [exact Hmun|]. split.
    + unfold generator_trace_ok in Hok. rewrite Hpc in Hok.
      destruct Hok as (pre & tail & Hout & _ & [[_ [w ->]]|[Hbad _]]); [|discriminate Hbad].
      rewrite Hout. apply in_app_iff. right. unfold Generator.cleanup.
      apply in_app_iff. right. simpl. tauto.
    + intros nm. apply Hall.
  - intros H. destruct (Hfail H) as (Hst' & _ & Hall). split; [exact Hst'|].
    intros nm. apply Hall.
Qed.

Lemma generator_exit_resources_witness :
  exists g,
    gens Scenario.generator_interrupted !! 0%nat = Some g /\
    Generator.at_pc g = Generator.Exited EXIT_SUCCESS /\
    ~ In Ev_shm_unlink (Generator.out g) /\
    In Ev_munmap (Generator.out g) /\ In Ev_close_fd (Generator.out g) /\
    forall nm, In (Ev_sem_close nm) (Generator.out g).
Proof.
  destruct (gens Scenario.generator_interrupted !! 0%nat) as [g|] eqn:Hg;
    [|vm_compute in Hg; discriminate].
  assert (Generator.at_pc g = Generator.Exited EXIT_SUCCESS) as Hpc
    by (vm_compute in Hg; injection Hg as <-; reflexivity).
  exists g. split; [reflexivity|]. split; [exact Hpc|].
  destruct (generator_exit_resources _ 0%nat g EXIT_SUCCESS
              generator_interrupted_reachable Hg Hpc) as (_ & H1 & H2 & _).
  destruct (H2 eq_refl) as (H3 & H4 & H5). auto.
Defined.

(** C6 as stated fails in two places. The consume of an entry of length 0
    does not advance [cb->rd]: the generator of the path publishes length 0
    into slot 0, and after the supervisor has consumed it [rd] is still 0,
    not 1. And the values of [rd] do not start at 0 when the object is
    already there: on the object a run of the star has left with [rd] at 1,
    the next run reads at 1 and 2. *)
Lemma read_indices_depart :
  ~ (forall s i s',
       reachable s -> consumes (L_sup i) s = true -> sys_step (L_sup i) s = Ok s' ->
       rd (cb (shm s')) = (rd (cb (shm s)) + 1) mod NUMBER_OF_ENTRIES) /\
  ~ (forall c sup_args stack gs ls s,
       world_ok (world_on c) -> run ls (system_on c sup_args stack gs) = Ok s ->
       read_indices ls (system_on c sup_args stack gs) =
         cyclic_from 0 (List.length (read_indices ls (system_on c sup_args stack gs)))).
Proof.
  split.
  - intros H.
    destruct (sys_step (L_sup Scenario.go) Scenario.solution_pending) as [s'| |] eqn:E;
      [|vm_compute in E; discriminate..].
    pose proof (H Scenario.solution_pending Scenario.go s'
                  solution_pending_reachable eq_refl E) as Hrd.
    vm_compute in E. injection E as <-. vm_compute in Hrd. discriminate.
  - intros H.
    assert (world_ok (world_on Stale.consumed_once)) as Hc.
    { apply StartFacts.left_behind_ok.
      exists [], zero_entry, [(Scenario.star9, Scenario.all_zero)],
        (Scenario.attach ++ Scenario.attempt ++ [L_sup Scenario.go; L_sup Scenario.go]).
      vm_compute. reflexivity. }
    assert (run Scenario.two_consumes Stale.star9_again =
              Ok (Scenario.after Scenario.two_consumes Stale.star9_again)) as Hrun
      by (vm_compute; reflexivity).
    pose proof (H Stale.consumed_once [] zero_entry [(Scenario.star9, Scenario.all_zero)]
                  Scenario.two_consumes _ Hc Hrun) as Hidx.
    vm_compute in Hidx. discriminate.
Qed.

(** C6, amended: [cb->rd] always stays in [0, NUMBER_OF_ENTRIES). Every
    consume reads the entry at [rd] and releases one permit of [free_sem].
    When that entry has a length other than 0 the consume advances [rd] by
    exactly one modulo NUMBER_OF_ENTRIES; when it has length 0 the consume
    leaves [rd] as it is and ends the loop, and no consume follows. So over
    the consumes of any run on an object whose [rd] is 0 when the
    supervisor opens it, as on an object it creates, and with any
    interleaving of generators, the values of [rd] are 0, 1, 2, ..., 199,
    0, 1, ... The object [c] is one that is new or that these programs
    have left. *)
Theorem read_index_cyclic c sup_args stack gs ls s :
  world_ok (world_on c) ->
  run ls (system_on c sup_args stack gs) = Ok s ->
  0 <= rd (cb (shm s)) < NUMBER_OF_ENTRIES /\
  (forall i s',
     consumes (L_sup i) s = true -> sys_step (L_sup i) s = Ok s' ->
     exists e,
       entries (cb (shm s)) !! Z.to_nat (rd (cb (shm s))) = Some e /\
       free_sem (shm s') = S (free_sem (shm s)) /\
       if length e =? 0
       then rd (cb (shm s')) = rd (cb (shm s)) /\
            past_loop (Supervisor.at_pc (sup s')) = true
       else rd (cb (shm s')) = (rd (cb (shm s)) + 1) mod NUMBER_OF_ENTRIES /\
            Supervisor.at_pc (sup s') = Supervisor.At_loop_top) /\
  (past_loop (Supervisor.at_pc (sup s)) = true -> forall ls', read_indices ls' s = []) /\
  (rd c = 0 ->
   read_indices ls (system_on c sup_args stack gs) =
     cyclic_from 0 (List.length (read_indices ls (system_on c sup_args stack gs)))).
Proof.
  intros Hc Hrun.
  pose proof (StartFacts.run_world_on _ _ _ _ _ _ Hc Hrun) as Hw.
  split; [apply Hw|]. split; [|split].
  - intros i s' Hcon Hstep.
    destruct (ReadFacts.consumes_inv _ _ Hcon) as (i' & [= <-] & Hpc & Hin).
    destruct (ReadFacts.sys_step_sup _ _ _ Hstep) as [Hm _].
    destruct (ReadFacts.supervisor_consume _ _ _ _ _ Hpc Hin Hw Hm)
      as (e & He & Hfree & _ & _ & _ & Hcase).
    exists e. split; [done|]. split; [done|].
    destruct (length e =? 0).
    + destruct Hcase as [Hrd ->]. done.
    + destruct Hcase as (Hrd & Hpc' & _). done.
  - intros Hp ls'. by apply ReadFacts.read_indices_cyclic.
  - intros Hzero.
    pose proof (proj1 (ReadFacts.read_indices_cyclic ls
                         (system_on c sup_args stack gs) Hc)) as Hcyc.
    cbn [system_on shm world_on cb] in Hcyc. rewrite Hzero in Hcyc. exact Hcyc.
Qed.

Lemma read_index_cyclic_witness :
  world_ok (world_on (cb world_init)) /\
  run Scenario.two_consumes Scenario.star9_system =
    Ok (Scenario.after Scenario.two_consumes Scenario.star9_system) /\
  read_indices Scenario.two_consumes Scenario.star9_system = [0; 1] /\
  0 <= rd (cb (shm (Scenario.after Scenario.two_consumes Scenario.star9_system)))
    < NUMBER_OF_ENTRIES /\
  read_indices Scenario.two_consumes Scenario.star9_system =
    cyclic_from 0 (List.length (read_indices Scenario.two_consumes Scenario.star9_system)).
Proof.
  assert (world_ok (world_on (cb world_init))) as Hc by exact SystemFacts.world_ok_init.
  assert (run Scenario.two_consumes Scenario.star9_system =
            Ok (Scenario.after Scenario.two_consumes Scenario.star9_system)) as Hrun
    by (vm_compute; reflexivity).
  split; [exact Hc|]. split; [exact Hrun|]. split; [vm_compute; reflexivity|].
  destruct (read_index_cyclic (cb world_init) [] zero_entry
              [(Scenario.star9, Scenario.all_zero)]
              Scenario.two_consumes _ Hc Hrun) as (H1 & _ & _ & H2).
  split; [exact H1|exact (H2 eq_refl)].
Defined.

(** C7: the supervisor starts with a best length of INT_MAX, which is above
    every length a slot can hold, and from then on no run raises it. A
    consumed entry whose length is at least the best length leaves
    [current_best] as it was; one whose length is above 0 and below the
    best length becomes [current_best]. *)
Theorem best_length_non_increasing l s s' :
  reachable s -> sys_step l s = Ok s' ->
  (Supervisor.at_pc (sup s) = Supervisor.At_start ->
   Supervisor.at_pc (sup s') = Supervisor.At_loop_top ->
   length (Supervisor.current_best (sup s')) = INT_MAX) /\
  Forall (fun e => length e < INT_MAX) (entries (cb (shm s))) /\
  (Supervisor.at_pc (sup s) <> Supervisor.At_start ->
   forall ls s'', run ls s = Ok s'' ->
   length (Supervisor.current_best (sup s'')) <= length (Supervisor.current_best (sup s))) /\
  (consumes l s = true ->
   exists e,
     entries (cb (shm s)) !! Z.to_nat (rd (cb (shm s))) = Some e /\
     (length e >= length (Supervisor.current_best (sup s)) ->
      Supervisor.current_best (sup s') = Supervisor.current_best (sup s)) /\
     (0 < length e < length (Supervisor.current_best (sup s)) ->
      Supervisor.current_best (sup s') = e)).
Proof.
  intros Hreach Hstep.
  pose proof (SystemFacts.reachable_world_ok _ Hreach) as Hw.
  split; [|split; [|split]].
  - intros Hpc Hpc'. destruct l as [i|n i| |n]; simpl in Hstep.
    + destruct (Supervisor.main_step _ _ _) as [[s1 w1]| |] eqn:E; [|done..].
      injection Hstep as <-. simpl in *. by eapply BestFacts.supervisor_start_best.
    + destruct (gens s !! n); [|done].
      destruct (Generator.main_step _ _ _) as [[g1 w1]| |]; [|done..].
      injection Hstep as <-. simpl in *. congruence.
    + unfold Supervisor.signal_step in Hstep. by rewrite Hpc in Hstep.
    + destruct (gens s !! n); [|done].
      destruct (Generator.signal_step _); [|done..].
      injection Hstep as <-. simpl in *. congruence.
  - destruct Hw as (_ & Hall & _). eapply Forall_impl; [exact Hall|].
    intros e [He _]. unfold MAXIMUM_SOLUTION_LENGTH, INT_MAX in *. lia.
  - intros Hpc ls s'' Hrun. by eapply BestFacts.run_best.
  - intros Hc.
    destruct (ReadFacts.consumes_inv _ _ Hc) as (i & -> & Hpc & Hin).
    destruct (ReadFacts.sys_step_sup _ _ _ Hstep) as [Hm _].
    destruct (ReadFacts.supervisor_consume _ _ _ _ _ Hpc Hin Hw Hm)
      as (e & He & _ & _ & _ & _ & Hcase).
    exists e. split; [done|].
    destruct (length e =? 0) eqn:Hz.
    + destruct Hcase as [_ ->]. apply Z.eqb_eq in Hz. split; [done|]. lia.
    + destruct Hcase as (_ & _ & ->).
      destruct (length e >=? length (Supervisor.current_best (sup s))) eqn:Hge.
      * split; [done|]. rewrite Z.geb_leb in Hge; apply Z.leb_le in Hge. lia.
      * split; [|done]. rewrite Z.geb_leb in Hge; apply Z.leb_gt in Hge. lia.
Qed.

Lemma best_length_non_increasing_witness :
  reachable Scenario.star9_pending /\
  sys_step (L_sup Scenario.go) Scenario.star9_pending = Ok Scenario.star9_consumed /\
  length (Supervisor.current_best (sup Scenario.star9_pending)) = INT_MAX /\
  length (Supervisor.current_best (sup Scenario.star9_consumed)) = 8 /\
  Forall (fun e => length e < INT_MAX) (entries (cb (shm Scenario.star9_pending))).
Proof.
  assert (sys_step (L_sup Scenario.go) Scenario.star9_pending =
            Ok Scenario.star9_consumed) as Hstep by (vm_compute; reflexivity).
  split; [exact star9_pending_reachable|]. split; [exact Hstep|].
  split; [reflexivity|]. split; [reflexivity|].
  exact (proj1 (proj2 (best_length_non_increasing _ _ _ star9_pending_reachable Hstep))).
Defined.

(** C8: a consume of an entry of length 0 makes the supervisor print that
    the graph is 3-colorable and leave its loop. However the loop is left
    short of a failed wait (by that [break], or by [quit] at the test), the
    supervisor comes to the line behind the loop having called nothing but
    [printf]; its next step sets [cb->signal] to 1, and only the step after
    that destroys the resources: it calls [munmap], [close] and
    [shm_unlink] on the shared memory and [sem_close] and [sem_unlink] on
    each of the three semaphores, in this order and once each, and returns
    EXIT_SUCCESS. So wherever the supervisor has unmapped or unlinked the
    shared memory, and wherever it has ended with success, the flag is
    set. A generator that finds the flag set at the test of its loop
    leaves the loop without touching the shared state, prints that it ends
    by order of the supervisor, releases what it holds and exits with
    success. *)
Theorem termination_protocol s :
  reachable s ->
  (forall i s' e,
     consumes (L_sup i) s = true -> sys_step (L_sup i) s = Ok s' ->
     entries (cb (shm s)) !! Z.to_nat (rd (cb (shm s))) = Some e -> length e = 0 ->
     Supervisor.out (sup s') = Supervisor.out (sup s) ++ [Ev_print Msg_3_colorable] /\
     Supervisor.at_pc (sup s') = Supervisor.At_after_loop) /\
  (forall i s',
     past_loop (Supervisor.at_pc (sup s)) = false ->
     Supervisor.at_pc (sup s) <> Supervisor.At_start ->
     sys_step (L_sup i) s = Ok s' ->
     past_loop (Supervisor.at_pc (sup s')) = true ->
     Supervisor.at_pc (sup s') = Supervisor.At_after_loop \/
     (in_wait i = Efail /\ Supervisor.at_pc (sup s') = Supervisor.Exited EXIT_FAILURE)) /\
  (forall i,
     Supervisor.at_pc (sup s) = Supervisor.At_loop_top ->
     Supervisor.quit (sup s) = true ->
     exists s', sys_step (L_sup i) s = Ok s' /\
       Supervisor.at_pc (sup s') = Supervisor.At_after_loop) /\
  (Supervisor.at_pc (sup s) = Supervisor.At_after_loop ->
   Forall (fun e => is_print e = true) (Supervisor.out (sup s)) /\
   forall i, exists s',
     sys_step (L_sup i) s = Ok s' /\
     signal (cb (shm s')) = 1 /\
     Supervisor.at_pc (sup s') = Supervisor.At_cleanup /\
     Supervisor.out (sup s') = Supervisor.out (sup s)) /\
  (Supervisor.at_pc (sup s) = Supervisor.At_cleanup ->
   signal (cb (shm s)) = 1 /\
   forall i, exists s',
     sys_step (L_sup i) s = Ok s' /\
     shm s' = shm s /\
     Supervisor.at_pc (sup s') = Supervisor.Exited EXIT_SUCCESS /\
     Supervisor.out (sup s') =
       Supervisor.out (sup s) ++
       [Ev_munmap; Ev_close_fd; Ev_shm_unlink;
        Ev_sem_close FREE_SEM; Ev_sem_unlink FREE_SEM;
        Ev_sem_close USED_SEM; Ev_sem_unlink USED_SEM;
        Ev_sem_close WRITE_SEM; Ev_sem_unlink WRITE_SEM;
        Ev_print Msg_cleaned_up; Ev_exit EXIT_SUCCESS]) /\
  (In Ev_shm_unlink (Supervisor.out (sup s)) \/ In Ev_munmap (Supervisor.out (sup s)) ->
   signal (cb (shm s)) = 1) /\
  (Supervisor.at_pc (sup s) = Supervisor.Exited EXIT_SUCCESS ->
   signal (cb (shm s)) = 1 /\
   exists pre,
     Forall (fun e => is_print e = true) pre /\
     Supervisor.out (sup s) =
       pre ++
       [Ev_munmap; Ev_close_fd; Ev_shm_unlink;
        Ev_sem_close FREE_SEM; Ev_sem_unlink FREE_SEM;
        Ev_sem_close USED_SEM; Ev_sem_unlink USED_SEM;
        Ev_sem_close WRITE_SEM; Ev_sem_unlink WRITE_SEM;
        Ev_print Msg_cleaned_up; Ev_exit EXIT_SUCCESS]) /\
  (forall n g i,
     gens s !! n = Some g -> Generator.at_pc g = Generator.At_loop_top ->
     signal (cb (shm s)) = 1 ->
     exists s1 s2 g2,
       sys_step (L_gen n i) s = Ok s1 /\ shm s1 = shm s /\
       gens s1 !! n = Some (Generator.goto Generator.At_after_loop g) /\
       sys_step (L_gen n i) s1 = Ok s2 /\ shm s2 = shm s /\
       gens s2 !! n = Some g2 /\
       Generator.at_pc g2 = Generator.Exited EXIT_SUCCESS /\
       Generator.out g2 =
         Generator.out g ++
         [Ev_print Msg_by_order_of_supervisor; Ev_munmap; Ev_close_fd;
          Ev_sem_close FREE_SEM; Ev_sem_unlink FREE_SEM;
          Ev_sem_close USED_SEM; Ev_sem_unlink USED_SEM;
          Ev_sem_close WRITE_SEM; Ev_sem_unlink WRITE_SEM;
          Ev_print Msg_cleaned_up; Ev_exit EXIT_SUCCESS]).
Proof.
  intros Hreach.
  pose proof (SystemFacts.reachable_world_ok _ Hreach) as Hw.
  pose proof (FlagFacts.reachable_ok _ Hreach) as Hok.
  repeat apply conj.
  - intros i s' e Hc Hstep He Hz.
    destruct (ReadFacts.consumes_inv _ _ Hc) as (i' & [= <-] & Hpc & Hin).
    destruct (ReadFacts.sys_step_sup _ _ _ Hstep) as [Hm _].
    destruct (ReadFacts.supervisor_consume _ _ _ _ _ Hpc Hin Hw Hm)
      as (e' & He' & _ & _ & _ & _ & Hcase).
    rewrite He in He'. injection He' as <-. rewrite Hz in Hcase. simpl in Hcase.
    destruct Hcase as [_ ->]. done.
  - intros i s' Hin Hstart Hstep Hout.
    apply ReadFacts.sys_step_sup in Hstep as [Hm _]. revert Hm Hout.
    unfold Supervisor.main_step.
    destruct (Supervisor.at_pc (sup s)) eqn:Hpc; try done.
    + destruct (negb _); intros [= <- _]; simpl; [done|auto].
    + destruct (in_wait i) eqn:Hi.
      * destruct (sem_wait _ _ _) as [w1| |]; [|done..]. unfold Supervisor.body.
        destruct (slot _) as [k0|]; [|done]. destruct (_ !! k0) as [e0|]; [|done].
        destruct (length e0 =? 0); [intros [= <- _]; simpl; auto|].
        destruct (slot _) as [k|]; [|done]. destruct (_ !! k) as [e|]; [|done].
        destruct (_ >=? _); intros [= <- _]; simpl; done.
      * intros [= <- _]. done.
      * intros [= <- _]. simpl. auto.
  - intros i Hpc Hq. simpl. unfold Supervisor.main_step. rewrite Hpc, Hq. simpl.
    eexists. split; [reflexivity|]. done.
  - intros Hpc. unfold supervisor_ok in Hok. rewrite Hpc in Hok. split; [done|].
    intros i. simpl. unfold Supervisor.main_step. rewrite Hpc.
    eexists. split; [reflexivity|]. done.
  - intros Hpc. unfold supervisor_ok in Hok. rewrite Hpc in Hok. split; [apply Hok|].
    intros i. simpl. unfold Supervisor.main_step. rewrite Hpc.
    eexists. split; [reflexivity|]. done.
  - intros Hin.
    pose proof (SupervisorFacts.reachable_flag _ Hreach) as Hflag.
    pose proof (ExitFacts.reachable_supervisor_trace _ Hreach) as Htrace.
    unfold supervisor_trace_ok in Htrace.
    assert (forall pre, Forall (fun e => is_print e = true) pre ->
              ~ (In Ev_shm_unlink pre \/ In Ev_munmap pre)) as Hprints.
    { intros pre Hpre [H|H]; by apply (ExitFacts.prints_only _ _ Hpre) in H. }
    destruct (Supervisor.at_pc (sup s)) as [| | | | |st] eqn:Hpc;
      try (exfalso; by apply (Hprints _ Htrace)).
    destruct Htrace as (pre & tail & Hout & Hpre & [[-> _]|[-> Htail]]);
      [by rewrite Hflag|].
    exfalso. rewrite Hout, !in_app_iff in Hin.
    destruct Hin as [[H|H]|[H|H]];
      try (by apply (ExitFacts.prints_only _ _ Hpre) in H);
      revert H; unfold Supervisor.fatal_wait;
      destruct Htail as [-> | [-> | [-> | [-> | [-> | ->]]]]];
      TraceFacts.not_in.
  - intros Hpc.
    pose proof (SupervisorFacts.reachable_flag _ Hreach) as Hflag.
    pose proof (ExitFacts.reachable_supervisor_trace _ Hreach) as Htrace.
    unfold supervisor_trace_ok in Htrace. rewrite Hpc in Hflag, Htrace.
    split; [exact Hflag|].
    destruct Htrace as (pre & tail & Hout & Hpre & [[_ ->]|[Hbad _]]); [|discriminate Hbad].
    by exists pre.
  - intros n g i Hg Hpc Hsig.
    assert (n < List.length (gens s))%nat as Hn by (by eapply lookup_lt_Some).
    assert (sys_step (L_gen n i) s =
              Ok {| shm := shm s; sup := sup s;
                    gens := <[n := Generator.goto Generator.At_after_loop g]> (gens s) |})
      as Hs1.
    { simpl. rewrite Hg. unfold Generator.main_step. rewrite Hpc, Hsig. simpl.
      by rewrite andb_false_r. }
    eexists _, _, _. split; [exact Hs1|]. split; [done|].
    split; [by apply list_lookup_insert_eq|].
    split.
    { simpl. rewrite list_lookup_insert_eq by done. reflexivity. }
    split; [done|]. split; [by apply list_lookup_insert_eq; rewrite length_insert|].
    split; [done|]. cbn [Generator.leave Generator.goto Generator.emit Generator.out].
    unfold Generator.cleanup. by rewrite Hsig.
Qed.

Lemma termination_protocol_witness :
  reachable Scenario.solution_pending /\
  consumes (L_sup Scenario.go) Scenario.solution_pending = true /\
  exists s',
    sys_step (L_sup Scenario.go) Scenario.solution_pending = Ok s' /\
    Supervisor.out (sup s') =
      Supervisor.out (sup Scenario.solution_pending) ++ [Ev_print Msg_3_colorable] /\
    Supervisor.at_pc (sup s') = Supervisor.At_after_loop.
Proof.
  split; [exact solution_pending_reachable|]. split; [reflexivity|].
  destruct (sys_step (L_sup Scenario.go) Scenario.solution_pending) as [s'| |] eqn:E;
    [|vm_compute in E; discriminate..].
  exists s'. split; [reflexivity|].
  destruct (termination_protocol _ solution_pending_reachable) as (H & _).
  apply (H Scenario.go s' zero_entry eq_refl E); reflexivity.
Defined.

(** C9: no entry of length above MAXIMUM_SOLUTION_LENGTH is ever in the
    buffer. In every state the system can reach, every slot holds a length
    between 0 and 8; whenever a generator's loop body returns it has
    written one slot, with a length of at most 8; the entry the supervisor
    reads at a consume has a length of at most 8; and no step reads or
    writes outside an array. *)
Theorem consumed_length_bounded s :
  reachable s ->
  Forall (fun e => 0 <= length e <= Z.of_nat MAXIMUM_SOLUTION_LENGTH)
    (entries (cb (shm s))) /\
  (forall n g i g' w',
     gens s !! n = Some g -> Generator.at_pc g = Generator.At_body ->
     Generator.main_step i g (shm s) = Ok (g', w') ->
     exists m e, (m <= MAXIMUM_SOLUTION_LENGTH)%nat /\ published m e (shm s) w') /\
  (forall i s',
     consumes (L_sup i) s = true -> sys_step (L_sup i) s = Ok s' ->
     exists e, entries (cb (shm s)) !! Z.to_nat (rd (cb (shm s))) = Some e /\
               0 <= length e <= Z.of_nat MAXIMUM_SOLUTION_LENGTH) /\
  (forall l, sys_step l s <> Undefined).
Proof.
  intros Hreach. pose proof (SystemFacts.reachable_world_ok _ Hreach) as Hw.
  destruct Hw as (Hlen & Hall & Hrd & Hwr).
  assert (Forall (fun e => 0 <= length e <= Z.of_nat MAXIMUM_SOLUTION_LENGTH)
            (entries (cb (shm s)))) as Hbound
    by (eapply Forall_impl; [exact Hall|]; by intros e [He _]).
  split; [exact Hbound|]. split; [|split; [|intros l; by apply SafetyFacts.step_defined]].
  - intros n g i g' w' _ Hpc Hstep. unfold Generator.main_step in Hstep.
    rewrite Hpc in Hstep.
    apply AttemptFacts.body_publishes in Hstep as (rc & e & _ & Hrcl & Hpub & _).
    eauto.
  - intros i s' Hc Hstep.
    destruct (ReadFacts.consumes_inv _ _ Hc) as (i' & [= <-] & Hpc & Hin).
    destruct (ReadFacts.sys_step_sup _ _ _ Hstep) as [Hm _].
    destruct (ReadFacts.supervisor_consume _ _ _ _ _ Hpc Hin
                (conj Hlen (conj Hall (conj Hrd Hwr))) Hm) as (e & He & _).
    exists e. split; [done|].
    eapply Forall_lookup_1 in Hbound; [|exact He]. exact Hbound.
Qed.

Lemma consumed_length_bounded_witness :
  reachable Scenario.star9_published /\
  length <$> entries (cb (shm Scenario.star9_published)) !! 0%nat = Some 8 /\
  Forall (fun e => 0 <= length e <= Z.of_nat MAXIMUM_SOLUTION_LENGTH)
    (entries (cb (shm Scenario.star9_published))).
Proof.
  split; [exact star9_published_reachable|]. split; [reflexivity|].
  exact (proj1 (consumed_length_bounded _ star9_published_reachable)).
Defined.

(** C10: in the graph parse_argv returns the keys of the vertices are
    pairwise distinct and no two edges have the same pair of keys, in
    either order. A further argument whose two keys are both present adds
    no vertex, and one that names an edge already present, in either
    order, leaves both arrays as they are. *)
Theorem parse_argv_coalesces args g :
  Graph.parse_argv args = Some g ->
  NoDup (map key (Graph.vertices g)) /\
  GraphSpec.distinct_edges (Graph.vertices g) (Graph.edges g) /\
  forall arg k1 k2,
    Graph.parse_keys arg = Some (k1, k2) ->
    (GraphSpec.has_key (Graph.vertices g) k1 ->
     GraphSpec.has_key (Graph.vertices g) k2 ->
     exists g', Graph.parse_arg arg g = Some g' /\
                Graph.vertices g' = Graph.vertices g) /\
    (GraphSpec.joins g k1 k2 -> Graph.parse_arg arg g = Some g).
Proof.
  intros Hparse. pose proof (GraphFacts.parse_argv_inv _ _ Hparse) as Hinv.
  split; [apply Hinv|]. split; [by apply GraphFacts.inv_distinct_edges|].
  intros arg k1 k2 Hkeys. unfold Graph.parse_arg. rewrite Hkeys. split.
  - intros H1 H2. eexists. split; [reflexivity|].
    by apply GraphFacts.insert_edge_same_vertices.
  - intros Hj. f_equal. by apply GraphFacts.insert_edge_joined.
Qed.

Lemma parse_argv_coalesces_witness :
  Graph.parse_argv ["0-1"; "1-2"; "2-0"; "1-0"; "2-1"]%string =
    Some {| Graph.vertices := [ {| key := 0; color := 0 |}; {| key := 1; color := 0 |};
                                {| key := 2; color := 0 |} ];
            Graph.edges := [ {| v1 := 0; v2 := 1 |}; {| v1 := 1; v2 := 2 |};
                             {| v1 := 2; v2 := 0 |} ] |} /\
  NoDup [0; 1; 2] /\
  Graph.parse_arg "0-2"
    {| Graph.vertices := [ {| key := 0; color := 0 |}; {| key := 1; color := 0 |};
                           {| key := 2; color := 0 |} ];
       Graph.edges := [ {| v1 := 0; v2 := 1 |}; {| v1 := 1; v2 := 2 |};
                        {| v1 := 2; v2 := 0 |} ] |} =
    Some {| Graph.vertices := [ {| key := 0; color := 0 |}; {| key := 1; color := 0 |};
                                {| key := 2; color := 0 |} ];
            Graph.edges := [ {| v1 := 0; v2 := 1 |}; {| v1 := 1; v2 := 2 |};
                             {| v1 := 2; v2 := 0 |} ] |}.
Proof.
  assert (Graph.parse_argv ["0-1"; "1-2"; "2-0"; "1-0"; "2-1"]%string =
    Some {| Graph.vertices := [ {| key := 0; color := 0 |}; {| key := 1; color := 0 |};
                                {| key := 2; color := 0 |} ];
            Graph.edges := [ {| v1 := 0; v2 := 1 |}; {| v1 := 1; v2 := 2 |};
                             {| v1 := 2; v2 := 0 |} ] |}) as Hparse by reflexivity.
  split; [exact Hparse|].
  destruct (parse_argv_coalesces _ _ Hparse) as (Hnd & _ & Hmore).
  split; [exact Hnd|].
  apply (Hmore "0-2"%string 0 2 eq_refl).
  exists {| v1 := 2; v2 := 0 |}. split; [simpl; tauto|]. right. reflexivity.
Defined.

(** * The code beyond the statements *)

(** ** The graph *)

(** X1: find_vertex_by_key returns the first place of the array whose key
    is the one asked for, and NULL exactly when no place has that key. *)
Theorem find_vertex_by_key_first vs k :
  match Graph.find_vertex_by_key vs k with
  | Some p =>
      (exists v, vs !! p = Some v /\ key v = k) /\
      (forall q u, (q < p)%nat -> vs !! q = Some u -> key u <> k)
  | None => forall v, In v vs -> key v <> k
  end.
Proof.
  destruct (Graph.find_vertex_by_key vs k) as [p|] eqn:E.
  - split; [by apply GraphFacts.find_vertex_by_key_Some|].
    intros q u Hq. eapply GraphMore.find_vertex_from_first; [exact E|lia].
  - intros v Hv Hk.
    destruct (GraphMore.find_vertex_from_present vs 0 k v Hv Hk) as [p Hp].
    unfold Graph.find_vertex_by_key in E. congruence.
Qed.

(** X2: a key that find_vertex_by_key does not find is found, after
    add_new_vertex, at the address add_new_vertex returned; the new vertex
    has color 0, and every key found before is found where it was. *)
Theorem add_new_vertex_then_find vs k :
  Graph.find_vertex_by_key vs (to_int k) = None ->
  let '(vs', p) := Graph.add_new_vertex vs k in
  Graph.find_vertex_by_key vs' (to_int k) = Some p /\
  vs' !! p = Some {| key := to_int k; color := 0 |} /\
  forall k' q, Graph.find_vertex_by_key vs k' = Some q ->
               Graph.find_vertex_by_key vs' k' = Some q.
Proof.
  intros Hnone. unfold Graph.add_new_vertex. split; [|split].
  - by apply (GraphMore.find_vertex_from_new vs 0).
  - apply list_lookup_middle. done.
  - intros k' q Hq. by apply GraphMore.find_vertex_from_app.
Qed.

Lemma add_new_vertex_then_find_witness :
  Graph.find_vertex_by_key [ {| key := 4; color := 2 |} ] (to_int 7) = None /\
  Graph.find_vertex_by_key [ {| key := 4; color := 2 |}; {| key := 7; color := 0 |} ] 7
  = Some 1%nat.
Proof.
  split; [reflexivity|].
  exact (proj1 (add_new_vertex_then_find [ {| key := 4; color := 2 |} ] 7 eq_refl)).
Defined.

(** X3: find_edge_by_vertices gives the same answer for the two orders of
    its vertices. What it returns is the first edge of the array that joins
    the two, one way round or the other, and NULL exactly when none does. *)
Theorem find_edge_by_vertices_either_order es p1 p2 :
  Graph.find_edge_by_vertices es p1 p2 = Graph.find_edge_by_vertices es p2 p1 /\
  match Graph.find_edge_by_vertices es p1 p2 with
  | Some n =>
      (exists e, es !! n = Some e /\
                 ((v1 e = p1 /\ v2 e = p2) \/ (v1 e = p2 /\ v2 e = p1))) /\
      (forall q e, (q < n)%nat -> es !! q = Some e ->
                   ~ ((v1 e = p1 /\ v2 e = p2) \/ (v1 e = p2 /\ v2 e = p1)))
  | None =>
      forall e, In e es -> ~ ((v1 e = p1 /\ v2 e = p2) \/ (v1 e = p2 /\ v2 e = p1))
  end.
Proof.
  assert (forall e, Graph.edge_matches e p1 p2 = true <->
                    ((v1 e = p1 /\ v2 e = p2) \/ (v1 e = p2 /\ v2 e = p1))) as Hm.
  { intros e. unfold Graph.edge_matches.
    rewrite orb_true_iff, !andb_true_iff, !Nat.eqb_eq. tauto. }
  split; [apply GraphMore.find_edge_from_swap|].
  destruct (Graph.find_edge_by_vertices es p1 p2) as [n|] eqn:E.
  - destruct (GraphMore.find_edge_from_first _ _ _ _ _ E) as (_ & (e & He & Hme) & Hfirst).
    rewrite Nat.sub_0_r in *. split.
    + exists e. split; [done|]. by apply Hm.
    + intros q e' Hq He' Hc. apply Hm in Hc. rewrite (Hfirst q e' Hq He') in Hc. done.
  - intros e He Hc. apply Hm in Hc.
    pose proof (GraphFacts.find_edge_from_None _ _ _ _ E e He) as Hnone.
    congruence.
Qed.

(** X4: an edge that find_edge_by_vertices does not find is found, after
    add_new_edge, at the end of the array, whichever of its two vertices is
    named first. *)
Theorem add_new_edge_then_find es p1 p2 :
  Graph.find_edge_by_vertices es p1 p2 = None ->
  Graph.find_edge_by_vertices (Graph.add_new_edge es p1 p2) p1 p2 = Some (List.length es) /\
  Graph.find_edge_by_vertices (Graph.add_new_edge es p1 p2) p2 p1 = Some (List.length es).
Proof.
  intros Hnone. unfold Graph.find_edge_by_vertices.
  rewrite <- (GraphMore.find_edge_from_swap _ _ p1 p2).
  by rewrite (GraphMore.find_edge_from_new es 0 p1 p2 Hnone).
Qed.

Lemma add_new_edge_then_find_witness :
  Graph.find_edge_by_vertices [ {| v1 := 0; v2 := 1 |} ] 1 2 = None /\
  Graph.find_edge_by_vertices [ {| v1 := 0; v2 := 1 |}; {| v1 := 1; v2 := 2 |} ] 2 1
  = Some 1%nat.
Proof.
  split; [reflexivity|].
  exact (proj2 (add_new_edge_then_find [ {| v1 := 0; v2 := 1 |} ] 1 2 eq_refl)).
Defined.

(** X5: what parse_argv leaves in the two arrays fits them: at most one
    edge and two vertices per argument, which is the size [main] gives
    [edges] and [vertices]. Every vertex has color 0 and a key that is an
    [int]. *)
Theorem parse_argv_fits_arrays args g :
  Graph.parse_argv args = Some g ->
  (List.length (Graph.edges g) <= List.length args)%nat /\
  (List.length (Graph.vertices g) <= 2 * List.length args)%nat /\
  Forall (fun v => color v = 0 /\ to_int (key v) = key v) (Graph.vertices g).
Proof.
  intros H. apply GraphMore.parse_from_grows in H
    as (mv & me & Hv & He & Hlv & Hle & Hmv & _).
  simpl in Hv, He. rewrite Hv, He. split; [done|]. split; [done|].
  eapply Forall_impl; [exact Hmv|]. intros v (Hc & Hk & _). done.
Qed.

Lemma parse_argv_fits_arrays_witness :
  exists g, Graph.parse_argv ["0-1"; "1-2"; "2-0"; "1-0"]%string = Some g /\
            List.length (Graph.edges g) = 3%nat /\
            (List.length (Graph.edges g) <= 4)%nat /\
            (List.length (Graph.vertices g) <= 8)%nat.
Proof.
  eexists. split; [reflexivity|]. split; [reflexivity|].
  destruct (parse_argv_fits_arrays ["0-1"; "1-2"; "2-0"; "1-0"]%string _ eq_refl)
    as (H1 & H2 & _).
  split; [exact H1|exact H2].
Defined.

(** X6: the graph of parse_argv is the graph of the arguments. Every
    argument names two keys that some edge joins, one way round or the
    other; every edge joins the keys of some argument, in the order the
    argument has them; every vertex has a key that some argument names. *)
Theorem parse_argv_is_the_input args g :
  Graph.parse_argv args = Some g ->
  (forall arg, In arg args ->
     exists k1 k2, Graph.parse_keys arg = Some (k1, k2) /\ GraphSpec.joins g k1 k2) /\
  (forall e, In e (Graph.edges g) ->
     exists arg k1 k2, In arg args /\ Graph.parse_keys arg = Some (k1, k2) /\
                       edge_keys (Graph.vertices g) e = Some (k1, k2)) /\
  (forall v, In v (Graph.vertices g) ->
     exists arg k1 k2, In arg args /\ Graph.parse_keys arg = Some (k1, k2) /\
                       (key v = k1 \/ key v = k2)).
Proof.
  intros H. apply GraphMore.parse_from_grows in H
    as (mv & me & Hv & He & _ & _ & Hmv & Hme & Hargs).
  simpl in Hv, He. split; [done|]. split.
  - rewrite He. rewrite List.Forall_forall in Hme. done.
  - rewrite Hv. rewrite List.Forall_forall in Hmv. intros v Hin.
    destruct (Hmv v Hin) as (_ & _ & Hex). done.
Qed.

Lemma parse_argv_is_the_input_witness :
  exists g, Graph.parse_argv ["0-1"; "1-2"; "2-0"; "1-0"]%string = Some g /\
            GraphSpec.joins g 1 0.
Proof.
  eexists. split; [reflexivity|].
  destruct (parse_argv_is_the_input ["0-1"; "1-2"; "2-0"; "1-0"]%string _ eq_refl)
    as (H & _).
  destruct (H "1-0"%string) as (k1 & k2 & Hk & Hj).
  - simpl. tauto.
  - injection Hk as <- <-. exact Hj.
Defined.

(** X7: parse_argv ends in [usage] exactly when one of the arguments is
    not what the code takes for an edge: ['-'] characters (any number of
    them), a key, at least one ['-'], a key, and ['-'] characters again,
    where a key is white space (any amount of it), an optional ['+'] and at
    least one digit. Which edges came before does not matter. *)
Theorem parse_argv_usage_iff args :
  Graph.parse_argv args = None <->
  exists arg, In arg args /\
    ~ exists ds1 ds2, edge_text (list_ascii_of_string arg) ds1 ds2.
Proof.
  unfold Graph.parse_argv. rewrite GraphMore.parse_from_None.
  split; intros (arg & Hin & H); exists arg; (split; [done|]).
  - intros (ds1 & ds2 & Ht).
    assert (Graph.parse_keys arg =
              Some (to_int (Graph.clamp_long (decimal_value ds1)),
                    to_int (Graph.clamp_long (decimal_value ds2)))) as Hk
      by (apply TextFacts.parse_keys_text; by exists ds1, ds2).
    congruence.
  - destruct (Graph.parse_keys arg) as [[k1 k2]|] eqn:Hk; [|done].
    exfalso. apply H. apply TextFacts.parse_keys_text in Hk as (ds1 & ds2 & Ht & _).
    by exists ds1, ds2.
Qed.

(** X8: the keys parse_argv reads from an argument are the values of its
    two runs of digits, cut to a [long] and then to an [int]. No sign is
    ever applied to them: a ['-'] in front of a key is a separator, so
    that the argument -5-3 names the edge between 5 and 3, and a key is
    negative only when its digits stand for a number that does not fit an
    [int]. *)
Theorem parse_keys_reads_digits arg k1 k2 :
  Graph.parse_keys arg = Some (k1, k2) ->
  exists ds1 ds2,
    edge_text (list_ascii_of_string arg) ds1 ds2 /\
    0 <= decimal_value ds1 /\ 0 <= decimal_value ds2 /\
    k1 = to_int (Graph.clamp_long (decimal_value ds1)) /\
    k2 = to_int (Graph.clamp_long (decimal_value ds2)).
Proof.
  intros Hk. apply TextFacts.parse_keys_text in Hk as (ds1 & ds2 & Ht & -> & ->).
  exists ds1, ds2. split; [done|].
  destruct Ht as (d1 & t1 & d2 & t2 & d3 & _ & _ & _ & _ & _ & Hk1 & Hk2).
  destruct Hk1 as (_ & _ & _ & _ & _ & _ & Hds1).
  destruct Hk2 as (_ & _ & _ & _ & _ & _ & Hds2).
  split; [by apply TextFacts.decimal_value_nonneg|].
  split; [by apply TextFacts.decimal_value_nonneg|]. done.
Qed.

Lemma parse_keys_reads_digits_witness :
  Graph.parse_keys "-5-3"%string = Some (5, 3) /\
  Graph.parse_keys " 1-+2"%string = Some (1, 2) /\
  exists ds1 ds2,
    edge_text (list_ascii_of_string "-5-3"%string) ds1 ds2 /\
    5 = to_int (Graph.clamp_long (decimal_value ds1)) /\
    3 = to_int (Graph.clamp_long (decimal_value ds2)).
Proof.
  split; [reflexivity|]. split; [reflexivity|].
  destruct (parse_keys_reads_digits "-5-3"%string 5 3 eq_refl)
    as (ds1 & ds2 & Ht & _ & _ & H1 & H2).
  exists ds1, ds2. split; [exact Ht|]. split; [exact H1|exact H2].
Defined.

(** X9: two numbers written in decimal with a ['-'] between them are read
    back by parse_argv as these numbers, cut to a [long] and then to an
    [int]. *)
Theorem parse_keys_reads_decimal a b :
  Graph.parse_keys (edge_token a b) =
  Some (to_int (Graph.clamp_long (Z.of_nat a)), to_int (Graph.clamp_long (Z.of_nat b))).
Proof. apply GraphMore.parse_keys_edge_token. Qed.

(** X10: in the coloring randomize leaves, every vertex keeps its key and
    vertex [i] gets the result of its own call of [rand()], modulo 3; as
    [rand()] returns no negative number these are the colors 0, 1 and 2. *)
Theorem randomize_three_colors r n vs :
  (forall k, 0 <= r k) ->
  map key (randomize r n vs) = map key vs /\
  Forall (fun v => 0 <= color v <= 2) (randomize r n vs) /\
  forall i v, randomize r n vs !! i = Some v -> color v = r (n + i)%nat mod 3.
Proof.
  intros Hr. split; [apply SearchFacts.randomize_keys|].
  split; [by apply OriginFacts.randomize_colors|].
  intros i v Hv. rewrite (RunFacts.randomize_lookup _ _ _ _ _ Hv).
  apply Z.rem_mod_nonneg; [apply Hr|lia].
Qed.

Lemma randomize_three_colors_witness :
  (forall k, 0 <= Scenario.counting k) /\
  map color (randomize Scenario.counting 2 (Graph.vertices Scenario.star9_graph))
  = [2; 0; 1; 2; 0; 1; 2; 0; 1; 2] /\
  Forall (fun v => 0 <= color v <= 2)
    (randomize Scenario.counting 2 (Graph.vertices Scenario.star9_graph)).
Proof.
  assert (forall k, 0 <= Scenario.counting k) as Hr
    by (intros k; unfold Scenario.counting; lia).
  split; [exact Hr|]. split; [reflexivity|].
  exact (proj1 (proj2 (randomize_three_colors Scenario.counting 2
                         (Graph.vertices Scenario.star9_graph) Hr))).
Defined.

(** ** The protocol *)

(** X11: [write_sem] keeps the generators apart: in no reachable state are
    two of them between their [sem_wait(write_sem)] and the end of the loop
    body, and while one is there the semaphore is 0. *)
Theorem writers_exclude_each_other s n m g g' :
  reachable s ->
  gens s !! n = Some g -> gens s !! m = Some g' ->
  in_critical g = true -> in_critical g' = true ->
  n = m /\ write_sem (shm s) = 0%nat.
Proof.
  intros Hreach Hn Hm Hg Hg'.
  destruct (PermitFacts.reachable_permits _ Hreach) as [Hone _].
  unfold count_gens in Hone.
  pose proof (FifoFacts.count_ge_1 in_critical _ _ _ Hn Hg) as H1.
  split; [|lia]. destruct (decide (n = m)) as [|Hne]; [done|].
  pose proof (RunFacts.count_two in_critical _ _ _ _ _ Hn Hm Hne Hg Hg'). lia.
Qed.

Lemma writers_exclude_each_other_witness :
  reachable Runs.writer_inside /\
  (exists g, gens Runs.writer_inside !! 0%nat = Some g /\ in_critical g = true) /\
  write_sem (shm Runs.writer_inside) = 0%nat.
Proof.
  assert (reachable Runs.writer_inside) as Hreach.
  { exists [], zero_entry, [(["0-1"%string], Scenario.counting)],
      (Scenario.attach ++ [L_gen 0 Scenario.go; L_gen 0 Scenario.go]).
    vm_compute. reflexivity. }
  split; [exact Hreach|]. split; [eexists; split; vm_compute; reflexivity|].
  destruct (gens Runs.writer_inside !! 0%nat) as [g|] eqn:Hg; [|vm_compute in Hg; discriminate].
  assert (in_critical g = true) as Hc by (vm_compute in Hg; injection Hg as <-; reflexivity).
  exact (proj2 (writers_exclude_each_other _ 0%nat 0%nat g g Hreach Hg Hg Hc Hc)).
Defined.

(** X12: the permits of [free_sem] and [used_sem] and the processes that
    hold one are always NUMBER_OF_ENTRIES: a generator that has returned
    from [sem_wait(free_sem)] and not yet published holds one, and so does
    the supervisor between its [sem_wait(used_sem)] and its
    [sem_post(free_sem)], whatever the generators do meanwhile. So no more
    entries wait to be read than the buffer has slots. *)
Theorem slot_permits_balance s h :
  fine_reachable s h ->
  (free_sem (shm s) + used_sem (shm s) + count_gens in_body s + held h
   = Z.to_nat NUMBER_OF_ENTRIES)%nat /\
  (count_gens in_body s <= 1)%nat /\
  (used_sem (shm s) <= Z.to_nat NUMBER_OF_ENTRIES)%nat /\
  (free_sem (shm s) <= Z.to_nat NUMBER_OF_ENTRIES)%nat.
Proof.
  intros Hfine. destruct (FineFacts.fine_permits _ _ Hfine) as [Hone Hsum].
  assert (count_gens in_body s <= count_gens in_critical s)%nat as Hle.
  { unfold count_gens. induction (gens s) as [|g gs IH]; simpl; [done|].
    unfold in_body at 1, in_critical at 1.
    destruct (Generator.at_pc g); simpl; lia. }
  split; [exact Hsum|]. split; [lia|]. split; lia.
Qed.

Lemma slot_permits_balance_witness :
  fine_reachable star9_taken true /\
  free_sem (shm star9_taken) = 199%nat /\ used_sem (shm star9_taken) = 0%nat /\
  (free_sem (shm star9_taken) + used_sem (shm star9_taken)
   + count_gens in_body star9_taken + held true = Z.to_nat NUMBER_OF_ENTRIES)%nat.
Proof.
  assert (fine_reachable star9_taken true) as Hfine.
  { apply (Fine_take Scenario.star9_pending).
    - apply FineFacts.reachable_fine. exact star9_pending_reachable.
    - vm_compute. reflexivity.
    - vm_compute. reflexivity. }
  split; [exact Hfine|]. split; [vm_compute; reflexivity|].
  split; [vm_compute; reflexivity|].
  exact (proj1 (slot_permits_balance _ _ Hfine)).
Defined.

(** X13: the buffer is a queue. In every run on an object whose [rd] and
    [wr] are equal when the supervisor opens it, as they are on an object
    it creates, the entries the supervisor has consumed are, in order, the
    first of the entries the generators have published: none is lost, read
    twice or overtaken, and none is read that no generator of the run
    published. *)
Theorem buffer_is_a_queue c sup_args stack gs ls s :
  world_ok (world_on c) -> rd c = wr c ->
  run ls (system_on c sup_args stack gs) = Ok s ->
  exists q,
    published_entries ls (system_on c sup_args stack gs) =
      consumed_entries ls (system_on c sup_args stack gs) ++ q.
Proof.
  intros Hc Heq Hrun.
  destruct (StartFacts.run_fifo_on _ _ _ _ _ _ Hc Heq Hrun) as (_ & _ & q & Hq & _).
  by exists q.
Qed.

Lemma buffer_is_a_queue_witness :
  world_ok (world_on Stale.consumed_once) /\
  rd Stale.consumed_once = wr Stale.consumed_once /\
  run Scenario.two_consumes Stale.star9_again =
    Ok (Scenario.after Scenario.two_consumes Stale.star9_again) /\
  List.length (consumed_entries Scenario.two_consumes Stale.star9_again) = 2%nat /\
  exists q,
    published_entries Scenario.two_consumes Stale.star9_again =
      consumed_entries Scenario.two_consumes Stale.star9_again ++ q.
Proof.
  assert (world_ok (world_on Stale.consumed_once)) as Hc.
  { apply StartFacts.left_behind_ok.
    exists [], zero_entry, [(Scenario.star9, Scenario.all_zero)],
      (Scenario.attach ++ Scenario.attempt ++ [L_sup Scenario.go; L_sup Scenario.go]).
    vm_compute. reflexivity. }
  assert (rd Stale.consumed_once = wr Stale.consumed_once) as Heq
    by (vm_compute; reflexivity).
  assert (run Scenario.two_consumes Stale.star9_again =
            Ok (Scenario.after Scenario.two_consumes Stale.star9_again)) as Hrun
    by (vm_compute; reflexivity).
  split; [exact Hc|]. split; [exact Heq|]. split; [exact Hrun|].
  split; [vm_compute; reflexivity|].
  exact (buffer_is_a_queue _ [] zero_entry [(Scenario.star9, Scenario.all_zero)]
           Scenario.two_consumes _ Hc Heq Hrun).
Defined.

(** X14: [current_best] is the best of what was consumed. No consumed
    entry of a length other than 0 is shorter than it, and once such an
    entry was consumed [current_best] is one of the consumed entries. *)
Theorem current_best_is_minimum sup_args stack gs ls s :
  run ls (system_init sup_args stack gs) = Ok s ->
  (forall e, In e (consumed_entries ls (system_init sup_args stack gs)) ->
             length e <> 0 -> length (Supervisor.current_best (sup s)) <= length e) /\
  ((exists e, In e (consumed_entries ls (system_init sup_args stack gs)) /\ length e <> 0) ->
   In (Supervisor.current_best (sup s))
      (consumed_entries ls (system_init sup_args stack gs))).
Proof.
  intros Hrun.
  destruct (SupervisorFacts.run_supervisor_log _ _ _ _ _ Hrun)
    as (_ & (_ & H1 & H2 & _) & _).
  split; [exact H1|exact H2].
Qed.

Lemma current_best_is_minimum_witness :
  run Scenario.two_consumes Scenario.star9_system =
    Ok (Scenario.after Scenario.two_consumes Scenario.star9_system) /\
  length (Supervisor.current_best
            (sup (Scenario.after Scenario.two_consumes Scenario.star9_system))) = 8 /\
  forall e, In e (consumed_entries Scenario.two_consumes Scenario.star9_system) ->
            length e <> 0 ->
            length (Supervisor.current_best
                      (sup (Scenario.after Scenario.two_consumes Scenario.star9_system)))
            <= length e.
Proof.
  assert (run Scenario.two_consumes Scenario.star9_system =
            Ok (Scenario.after Scenario.two_consumes Scenario.star9_system)) as Hrun
    by (vm_compute; reflexivity).
  split; [exact Hrun|]. split; [vm_compute; reflexivity|].
  exact (proj1 (current_best_is_minimum [] zero_entry
                  [(Scenario.star9, Scenario.all_zero)] Scenario.two_consumes _ Hrun)).
Defined.





(** X17: every entry a generator publishes comes from its own graph. It
    belongs to one attempt [j] of a generator whose arguments parse_argv
    accepted: under the coloring of that attempt, it holds the edges of
    the parsed graph whose ends have one color, in the order of [edges],
    up to MAXIMUM_SOLUTION_LENGTH of them, as key pairs, and its length is
    their number. *)
Theorem published_entries_come_from_graph sup_args stack gs ls s :
  run ls (system_init sup_args stack gs) = Ok s ->
  Forall (fun e =>
            exists n a r gr j,
              gs !! n = Some (a, r) /\ Graph.parse_argv a = Some gr /\
              let vs := attempt_coloring r gr j in
              let cs := conflict_set vs (Graph.edges gr) in
              length e = Z.of_nat (Nat.min MAXIMUM_SOLUTION_LENGTH (List.length cs)) /\
              map Some (entry_pairs e) = map (edge_keys vs) (take MAXIMUM_SOLUTION_LENGTH cs))
    (published_entries ls (system_init sup_args stack gs)).
Proof.
  intros Hrun. destruct (OriginFacts.run_published _ _ _ _ _ Hrun) as (_ & _ & _ & H).
  exact H.
Qed.

Lemma published_entries_come_from_graph_witness :
  run (Scenario.attach ++ Scenario.attempt) Scenario.star9_system =
    Ok Scenario.star9_published /\
  List.length (published_entries (Scenario.attach ++ Scenario.attempt)
                 Scenario.star9_system) = 1%nat /\
  Forall (fun e => exists n a r gr j,
            [(Scenario.star9, Scenario.all_zero)] !! n = Some (a, r) /\
            Graph.parse_argv a = Some gr /\ entry_of_attempt r gr j e)
    (published_entries (Scenario.attach ++ Scenario.attempt) Scenario.star9_system).
Proof.
  assert (run (Scenario.attach ++ Scenario.attempt) Scenario.star9_system =
            Ok Scenario.star9_published) as Hrun by (vm_compute; reflexivity).
  split; [exact Hrun|]. split; [vm_compute; reflexivity|].
  exact (published_entries_come_from_graph [] zero_entry
           [(Scenario.star9, Scenario.all_zero)] _ _ Hrun).
Defined.

(** X18: the supervisor tells the truth when it starts on an object whose
    [rd] and [wr] are equal, as they are on an object it creates. When it
    has then printed that the graph is 3-colorable, the graph of one of the
    generators of this run has a coloring with the colors 0, 1 and 2 in
    which no edge joins two vertices of one color. This holds as [rand()]
    returns no negative number. *)
Theorem announcement_is_sound c sup_args stack gs ls s :
  world_ok (world_on c) -> rd c = wr c ->
  rand_ok gs ->
  run ls (system_on c sup_args stack gs) = Ok s ->
  In (Ev_print Msg_3_colorable) (Supervisor.out (sup s)) ->
  exists n a r gr,
    gs !! n = Some (a, r) /\ Graph.parse_argv a = Some gr /\ three_colorable gr.
Proof.
  intros Hc Heq Hrand Hrun Hprinted.
  destruct (StartFacts.run_supervisor_log_on _ _ _ _ _ _ Hc Hrun) as (_ & _ & _ & Ha).
  apply Ha in Hprinted as (e & He & Hzero).
  destruct (StartFacts.run_fifo_on _ _ _ _ _ _ Hc Heq Hrun) as (_ & _ & q & Hq & _).
  destruct (StartFacts.run_published_on _ _ _ _ _ _ Hc Hrun) as (_ & _ & _ & Hpub).
  rewrite Hq in Hpub. rewrite List.Forall_forall in Hpub.
  destruct (Hpub e) as (n & a & r & gr & j & Hgs & Hgr & Hlen & _).
  { apply in_app_iff. by left. }
  exists n, a, r, gr. split; [done|]. split; [done|].
  exists (attempt_coloring r gr j). split; [apply SearchFacts.randomize_keys|].
  split.
  - apply OriginFacts.randomize_colors. apply (Hrand a r).
    eapply list_elem_of_In, list_elem_of_lookup_2. exact Hgs.
  - apply SearchFacts.conflict_set_nil. cbn zeta in Hlen.
    destruct (conflict_set _ _); [done|].
    rewrite Hzero in Hlen. unfold MAXIMUM_SOLUTION_LENGTH in Hlen. simpl in Hlen. lia.
Qed.

Lemma announcement_is_sound_witness :
  world_ok (world_on Stale.consumed_once) /\
  rd Stale.consumed_once = wr Stale.consumed_once /\
  rand_ok [(["0-1"%string], Scenario.counting)] /\
  run Runs.one_round Stale.path_again = Ok (Scenario.after Runs.one_round Stale.path_again) /\
  In (Ev_print Msg_3_colorable)
     (Supervisor.out (sup (Scenario.after Runs.one_round Stale.path_again))) /\
  exists n a r gr,
    [(["0-1"%string], Scenario.counting)] !! n = Some (a, r) /\
    Graph.parse_argv a = Some gr /\ three_colorable gr.
Proof.
  assert (world_ok (world_on Stale.consumed_once)) as Hc.
  { apply StartFacts.left_behind_ok.
    exists [], zero_entry, [(Scenario.star9, Scenario.all_zero)],
      (Scenario.attach ++ Scenario.attempt ++ [L_sup Scenario.go; L_sup Scenario.go]).
    vm_compute. reflexivity. }
  assert (rd Stale.consumed_once = wr Stale.consumed_once) as Heq
    by (vm_compute; reflexivity).
  assert (rand_ok [(["0-1"%string], Scenario.counting)]) as Hrand.
  { intros a r [[= <- <-]|[]] n. unfold Scenario.counting. lia. }
  assert (run Runs.one_round Stale.path_again =
            Ok (Scenario.after Runs.one_round Stale.path_again)) as Hrun
    by (vm_compute; reflexivity).
  assert (In (Ev_print Msg_3_colorable)
            (Supervisor.out (sup (Scenario.after Runs.one_round Stale.path_again))))
    as Hin by (vm_compute; tauto).
  split; [exact Hc|]. split; [exact Heq|]. split; [exact Hrand|].
  split; [exact Hrun|]. split; [exact Hin|].
  exact (announcement_is_sound _ [] zero_entry _ _ _ Hc Heq Hrand Hrun Hin).
Defined.

(** X19: on an object whose [rd] and [wr] are equal when the supervisor
    opens it, as they are on an object it creates, a solution the
    supervisor prints with fewer than MAXIMUM_SOLUTION_LENGTH edges is
    complete: under the coloring of one attempt of one generator of this
    run, its pairs are the keys of all the edges of that generator's graph
    whose two ends have one color, so that without these edges the coloring
    is valid. *)
Theorem short_solution_is_complete c sup_args stack gs ls s len ps :
  world_ok (world_on c) -> rd c = wr c ->
  run ls (system_on c sup_args stack gs) = Ok s ->
  In (Ev_print (Msg_solution len ps)) (Supervisor.out (sup s)) ->
  len < Z.of_nat MAXIMUM_SOLUTION_LENGTH ->
  exists n a r gr j,
    gs !! n = Some (a, r) /\ Graph.parse_argv a = Some gr /\
    let vs := attempt_coloring r gr j in
    len = Z.of_nat (List.length (conflict_set vs (Graph.edges gr))) /\
    map Some ps = map (edge_keys vs) (conflict_set vs (Graph.edges gr)).
Proof.
  intros Hc Heq Hrun Hprinted Hshort.
  destruct (StartFacts.run_printed_on _ _ _ _ _ _ Hc Hrun) as (_ & Hs).
  destruct (Hs _ _ Hprinted) as (e & He & -> & ->).
  destruct (StartFacts.run_fifo_on _ _ _ _ _ _ Hc Heq Hrun) as (_ & _ & q & Hq & _).
  destruct (StartFacts.run_published_on _ _ _ _ _ _ Hc Hrun) as (_ & _ & _ & Hpub).
  rewrite Hq in Hpub. rewrite List.Forall_forall in Hpub.
  destruct (Hpub e) as (n & a & r & gr & j & Hgs & Hgr & Hentry).
  { apply in_app_iff. by left. }
  exists n, a, r, gr, j. split; [done|]. split; [done|].
  by apply RunFacts.entry_of_attempt_whole.
Qed.

Lemma short_solution_is_complete_witness :
  world_ok (world_on Stale.consumed_once) /\
  rd Stale.consumed_once = wr Stale.consumed_once /\
  run Runs.one_round Stale.triangle_again =
    Ok (Scenario.after Runs.one_round Stale.triangle_again) /\
  In (Ev_print (Msg_solution 3 [(0, 1); (1, 2); (2, 0)]))
     (Supervisor.out (sup (Scenario.after Runs.one_round Stale.triangle_again))) /\
  exists n a r gr j,
    [(Runs.triangle, Scenario.all_zero)] !! n = Some (a, r) /\
    Graph.parse_argv a = Some gr /\
    3 = Z.of_nat (List.length (conflict_set (attempt_coloring r gr j) (Graph.edges gr))).
Proof.
  assert (world_ok (world_on Stale.consumed_once)) as Hc.
  { apply StartFacts.left_behind_ok.
    exists [], zero_entry, [(Scenario.star9, Scenario.all_zero)],
      (Scenario.attach ++ Scenario.attempt ++ [L_sup Scenario.go; L_sup Scenario.go]).
    vm_compute. reflexivity. }
  assert (rd Stale.consumed_once = wr Stale.consumed_once) as Heq
    by (vm_compute; reflexivity).
  assert (run Runs.one_round Stale.triangle_again =
            Ok (Scenario.after Runs.one_round Stale.triangle_again)) as Hrun
    by (vm_compute; reflexivity).
  assert (In (Ev_print (Msg_solution 3 [(0, 1); (1, 2); (2, 0)]))
            (Supervisor.out (sup (Scenario.after Runs.one_round Stale.triangle_again))))
    as Hin by (vm_compute; tauto).
  split; [exact Hc|]. split; [exact Heq|]. split; [exact Hrun|]. split; [exact Hin|].
  destruct (short_solution_is_complete _ [] zero_entry _ _ _ _ _ Hc Heq Hrun Hin)
    as (n & a & r & gr & j & H1 & H2 & H3 & _).
  - unfold MAXIMUM_SOLUTION_LENGTH. lia.
  - exists n, a, r, gr, j. split; [exact H1|]. split; [exact H2|exact H3].
Defined.

(** X20: each part of the shared state has one writer. A step of a
    generator leaves [rd], the flag and the supervisor as they are; a step
    of the supervisor leaves [wr], the entries, [write_sem] and the
    generators as they are; a signal handler leaves the whole shared state
    as it is. *)
Theorem shared_fields_have_one_writer l s s' :
  sys_step l s = Ok s' ->
  match l with
  | L_gen _ _ =>
      rd (cb (shm s')) = rd (cb (shm s)) /\ signal (cb (shm s')) = signal (cb (shm s)) /\
      sup s' = sup s
  | L_sup _ =>
      wr (cb (shm s')) = wr (cb (shm s)) /\ entries (cb (shm s')) = entries (cb (shm s)) /\
      write_sem (shm s') = write_sem (shm s) /\ gens s' = gens s
  | L_signal_sup | L_signal_gen _ => shm s' = shm s
  end.
Proof.
  destruct l as [i|n i| |n]; simpl.
  - destruct (Supervisor.main_step _ _ _) as [[s1 w1]| |] eqn:E; [|done..].
    intros [= <-]. simpl.
    destruct (PermitFacts.supervisor_step_wr _ _ _ _ _ E) as (H1 & H2 & H3). done.
  - destruct (gens s !! n) as [g|]; [|done].
    destruct (Generator.main_step _ _ _) as [[g1 w1]| |] eqn:E; [|done..].
    intros [= <-]. simpl. split; [by eapply ReadFacts.generator_step_rd|].
    split; [by eapply FlagFacts.generator_step_signal|done].
  - destruct (Supervisor.signal_step _); [|done..]. by intros [= <-].
  - destruct (gens s !! n) as [g|]; [|done].
    destruct (Generator.signal_step _); [|done..]. by intros [= <-].
Qed.

Lemma shared_fields_have_one_writer_witness :
  sys_step (L_sup Scenario.go) Scenario.star9_pending = Ok Scenario.star9_consumed /\
  rd (cb (shm Scenario.star9_consumed)) = 1 /\
  wr (cb (shm Scenario.star9_consumed)) = wr (cb (shm Scenario.star9_pending)).
Proof.
  assert (sys_step (L_sup Scenario.go) Scenario.star9_pending = Ok Scenario.star9_consumed)
    as Hstep by (vm_compute; reflexivity).
  split; [exact Hstep|]. split; [vm_compute; reflexivity|].
  exact (proj1 (shared_fields_have_one_writer _ _ _ Hstep)).
Defined.

(** X21: what a supervisor does once a signal has set [quit]. The flag
    stays set, and in whatever way the run goes on the supervisor takes at
    most four more steps from its loop: each one brings it nearer to its
    end, so it consumes at most one more entry. When its [sem_wait] is
    interrupted, as by the signal, or when it is not waiting, these steps
    are there and it ends with EXIT_SUCCESS. When the signal came between
    the test of the loop and [sem_wait(used_sem)], so that the wait is not
    interrupted, and no entry is there, it stays in the wait. *)
Theorem stopped_supervisor_ends s :
  Supervisor.quit (sup s) = true ->
  (forall ls s', run ls s = Ok s' ->
     Supervisor.quit (sup s') = true /\
     (List.length (List.filter step_of_supervisor ls)
      + supervisor_rest (Supervisor.at_pc (sup s'))
      <= supervisor_rest (Supervisor.at_pc (sup s)))%nat) /\
  (forall i, in_wait i = Eintr ->
     supervisor_runs (Supervisor.at_pc (sup s)) = true ->
     exists s',
       run (repeat (L_sup i) (supervisor_rest (Supervisor.at_pc (sup s)))) s = Ok s' /\
       Supervisor.at_pc (sup s') = Supervisor.Exited EXIT_SUCCESS) /\
  (forall i, in_wait i = Acquired ->
     Supervisor.at_pc (sup s) = Supervisor.At_wait_used -> used_sem (shm s) = 0%nat ->
     sys_step (L_sup i) s = Blocked).
Proof.
  intros Hq. split; [|split].
  - intros ls s' Hrun. by apply StopFacts.supervisor_stopped_run.
  - intros i Hin Hruns. by apply StopFacts.supervisor_stopped_exit.
  - intros i Hin Hpc Hused. simpl. unfold Supervisor.main_step.
    rewrite Hpc, Hin. simpl. by rewrite Hused.
Qed.

Lemma stopped_supervisor_ends_witness :
  Supervisor.quit (sup Runs.supervisor_stopped) = true /\
  Supervisor.at_pc (sup Runs.supervisor_stopped) = Supervisor.At_wait_used /\
  exists s',
    run (repeat (L_sup (Scenario.os_ok Eintr)) 4) Runs.supervisor_stopped = Ok s' /\
    Supervisor.at_pc (sup s') = Supervisor.Exited EXIT_SUCCESS.
Proof.
  assert (Supervisor.quit (sup Runs.supervisor_stopped) = true) as Hq
    by (vm_compute; reflexivity).
  assert (Supervisor.at_pc (sup Runs.supervisor_stopped) = Supervisor.At_wait_used) as Hpc
    by (vm_compute; reflexivity).
  split; [exact Hq|]. split; [exact Hpc|].
  destruct (stopped_supervisor_ends _ Hq) as (_ & Hexit & _).
  destruct (Hexit (Scenario.os_ok Eintr) eq_refl) as (s' & Hrun & Hend).
  - by rewrite Hpc.
  - rewrite Hpc in Hrun. exists s'. split; [exact Hrun|exact Hend].
Defined.

(** X22: what a generator does once it was told to stop, by a signal or
    by the flag of the supervisor. It stays told to stop, and in whatever
    way the run goes on it takes at most five more steps from its loop:
    each one brings it nearer to its end, so it publishes at most one more
    entry. When its waits are interrupted, or when it is not waiting, it
    ends with EXIT_SUCCESS within three steps. When a wait is not
    interrupted and its semaphore is 0, as [free_sem] is once the buffer
    is full and the supervisor has gone, it stays in the wait. *)
Theorem stopped_generator_ends s n g :
  gens s !! n = Some g -> told_to_stop g (shm s) ->
  (forall ls s', run ls s = Ok s' ->
     exists g', gens s' !! n = Some g' /\ told_to_stop g' (shm s') /\
       (List.length (List.filter (step_of n) ls) + generator_rest (Generator.at_pc g')
        <= generator_rest (Generator.at_pc g))%nat) /\
  (forall i, reachable s -> in_wait i = Eintr ->
     generator_runs (Generator.at_pc g) = true ->
     exists k s' g', (k <= 3)%nat /\ run (repeat (L_gen n i) k) s = Ok s' /\
       gens s' !! n = Some g' /\ Generator.at_pc g' = Generator.Exited EXIT_SUCCESS) /\
  (forall i, in_wait i = Acquired ->
     (Generator.at_pc g = Generator.At_wait_write /\ write_sem (shm s) = 0%nat) \/
     (Generator.at_pc g = Generator.At_wait_free /\ free_sem (shm s) = 0%nat) ->
     sys_step (L_gen n i) s = Blocked).
Proof.
  intros Hg Hstop. split; [|split].
  - intros ls s' Hrun. by apply (StopFacts.generator_stopped_run n ls s s' g).
  - intros i Hreach Hin Hruns.
    apply (StopFacts.generator_stopped_exit i s n g); try done.
    + by apply SystemFacts.reachable_world_ok.
    + by apply SafetyFacts.reachable_graphs.
  - intros i Hin [[Hpc Hsem]|[Hpc Hsem]]; simpl; rewrite Hg;
      unfold Generator.main_step; rewrite Hpc, Hin; simpl; by rewrite Hsem.
Qed.

Lemma stopped_generator_ends_witness :
  exists g, gens Runs.generator_stopped !! 0%nat = Some g /\
    told_to_stop g (shm Runs.generator_stopped) /\
    Generator.at_pc g = Generator.At_loop_top /\
    exists k s' g', (k <= 3)%nat /\
      run (repeat (L_gen 0 (Scenario.os_ok Eintr)) k) Runs.generator_stopped = Ok s' /\
      gens s' !! 0%nat = Some g' /\ Generator.at_pc g' = Generator.Exited EXIT_SUCCESS.
Proof.
  destruct (gens Runs.generator_stopped !! 0%nat) as [g|] eqn:Hg;
    [|vm_compute in Hg; discriminate].
  assert (Generator.quit g = true /\ Generator.at_pc g = Generator.At_loop_top) as [Hq Hpc]
    by (vm_compute in Hg; injection Hg as <-; split; reflexivity).
  assert (reachable Runs.generator_stopped) as Hreach.
  { exists [], zero_entry, [(Scenario.star9, Scenario.all_zero)],
      (Scenario.attach ++ Scenario.attempt ++ [L_signal_gen 0]).
    vm_compute. reflexivity. }
  exists g. split; [reflexivity|]. split; [by left|]. split; [exact Hpc|].
  destruct (stopped_generator_ends _ 0%nat g Hg (or_introl Hq)) as (_ & Hexit & _).
  apply (Hexit (Scenario.os_ok Eintr) Hreach eq_refl). by rewrite Hpc.
Defined.

(** X23: how the supervisor ends. It returns EXIT_SUCCESS or
    EXIT_FAILURE. Before success it has, after nothing but prints, unmapped
    and closed the shared memory, unlinked it, closed and unlinked each of
    the three semaphores, once each and in this order. Before failure it
    has never unmapped, closed or unlinked the shared memory, and it has
    either closed and unlinked all three semaphores or none. *)
Theorem supervisor_exit_resources s st :
  reachable s -> Supervisor.at_pc (sup s) = Supervisor.Exited st ->
  (st = EXIT_SUCCESS \/ st = EXIT_FAILURE) /\
  (st = EXIT_SUCCESS ->
   exists pre, Forall (fun e => is_print e = true) pre /\
     Supervisor.out (sup s) =
       pre ++ [Ev_munmap; Ev_close_fd; Ev_shm_unlink;
               Ev_sem_close FREE_SEM; Ev_sem_unlink FREE_SEM;
               Ev_sem_close USED_SEM; Ev_sem_unlink USED_SEM;
               Ev_sem_close WRITE_SEM; Ev_sem_unlink WRITE_SEM;
               Ev_print Msg_cleaned_up; Ev_exit EXIT_SUCCESS]) /\
  (st = EXIT_FAILURE ->
   ~ In Ev_munmap (Supervisor.out (sup s)) /\
   ~ In Ev_close_fd (Supervisor.out (sup s)) /\
   ~ In Ev_shm_unlink (Supervisor.out (sup s)) /\
   ((forall nm, In (Ev_sem_close nm) (Supervisor.out (sup s)) /\
                In (Ev_sem_unlink nm) (Supervisor.out (sup s))) \/
    (forall nm, ~ In (Ev_sem_close nm) (Supervisor.out (sup s)) /\
                ~ In (Ev_sem_unlink nm) (Supervisor.out (sup s))))).
Proof.
  intros Hreach Hpc. pose proof (ExitFacts.reachable_supervisor_trace _ Hreach) as Hs.
  unfold supervisor_trace_ok in Hs. rewrite Hpc in Hs.
  destruct Hs as (pre & tail & -> & Hpre & Htail).
  assert (forall tl e, is_print e = false -> In e (pre ++ tl) <-> In e tl) as Hin.
  { intros tl e He. rewrite in_app_iff. split; [|by right].
    intros [H|H]; [|done]. by destruct (ExitFacts.prints_only _ _ Hpre He). }
  assert (forall nm, In (Ev_sem_close nm) close_all_sems /\
                     In (Ev_sem_unlink nm) close_all_sems) as Hall
    by (intros []; split; unfold close_all_sems, close_sem; simpl; tauto).
  destruct Htail as [[-> ->]|[-> Hfail]].
  - split; [by left|]. split; [|done]. intros _. by exists pre.
  - split; [by right|]. split; [done|]. intros _. rewrite !Hin by done.
    assert (forall tl : list event,
              ~ In Ev_munmap tl -> ~ In Ev_close_fd tl -> ~ In Ev_shm_unlink tl ->
              ~ In Ev_munmap (close_all_sems ++ tl) /\
              ~ In Ev_close_fd (close_all_sems ++ tl) /\
              ~ In Ev_shm_unlink (close_all_sems ++ tl)) as Hnone.
    { intros tl H1 H2 H3. rewrite !in_app_iff.
      unfold close_all_sems, close_sem. simpl. intuition discriminate. }
    assert (forall what, ~ In Ev_munmap (print_errno_msg what) /\
                         ~ In Ev_close_fd (print_errno_msg what) /\
                         ~ In Ev_shm_unlink (print_errno_msg what)) as Hmsg
      by (intros what; unfold print_errno_msg; simpl; intuition discriminate).
    assert (forall tl nm, In (Ev_sem_close nm) (pre ++ close_all_sems ++ tl) /\
                          In (Ev_sem_unlink nm) (pre ++ close_all_sems ++ tl)) as Hsome.
    { intros tl nm. destruct (Hall nm). rewrite !in_app_iff. tauto. }
    assert (forall what nm, ~ In (Ev_sem_close nm) (pre ++ print_errno_msg what) /\
                            ~ In (Ev_sem_unlink nm) (pre ++ print_errno_msg what)) as Hno.
    { intros what nm. rewrite !Hin by done. unfold print_errno_msg. simpl.
      intuition discriminate. }
    destruct Hfail as [->|[->|[->|[->|[->| ->]]]]].
    + unfold usage. simpl. repeat split; try (intuition discriminate).
      right. intros nm. rewrite !Hin by done. simpl. intuition discriminate.
    + destruct (Hmsg "shm_open failed"%string) as (H1 & H2 & H3). auto.
    + destruct (Hmsg "ftruncate failed"%string) as (H1 & H2 & H3). auto.
    + destruct (Hmsg "mmap failed"%string) as (H1 & H2 & H3). auto.
    + destruct (Hmsg "sem_open failed"%string) as (H1 & H2 & H3).
      destruct (Hnone _ H1 H2 H3) as (H4 & H5 & H6). auto.
    + destruct (Hmsg "sem_wait failed"%string) as (H1 & H2 & H3).
      destruct (Hnone _ H1 H2 H3) as (H4 & H5 & H6). unfold Supervisor.fatal_wait. auto.
Qed.

Lemma supervisor_exit_resources_witness :
  reachable supervisor_done /\
  Supervisor.at_pc (sup supervisor_done) = Supervisor.Exited EXIT_SUCCESS /\
  exists pre, Forall (fun e => is_print e = true) pre /\
    Supervisor.out (sup supervisor_done) =
      pre ++ [Ev_munmap; Ev_close_fd; Ev_shm_unlink;
              Ev_sem_close FREE_SEM; Ev_sem_unlink FREE_SEM;
              Ev_sem_close USED_SEM; Ev_sem_unlink USED_SEM;
              Ev_sem_close WRITE_SEM; Ev_sem_unlink WRITE_SEM;
              Ev_print Msg_cleaned_up; Ev_exit EXIT_SUCCESS].
Proof.
  assert (reachable supervisor_done) as Hreach.
  { exists [], zero_entry, [(Scenario.star9, Scenario.all_zero)],
      (Scenario.attach ++ Scenario.attempt ++
       [L_sup Scenario.go; L_signal_sup; L_sup (Scenario.os_ok Eintr);
        L_sup Scenario.go; L_sup Scenario.go; L_sup Scenario.go]).
    vm_compute. reflexivity. }
  assert (Supervisor.at_pc (sup supervisor_done) = Supervisor.Exited EXIT_SUCCESS) as Hpc
    by (vm_compute; reflexivity).
  split; [exact Hreach|]. split; [exact Hpc|].
  exact (proj1 (proj2 (supervisor_exit_resources _ _ Hreach Hpc)) eq_refl).
Defined.


